(** * lennys-quote: a shallow embedding of the resumable quote pipeline

    The development follows three scripts of the repository:

    - [process_all_transcripts.py]: the checkpoint manager, the two batch
      loops with their bounded retry, and the whole-file translation;
    - [fill_missing_translations_openai.py]: the field-by-field completion of
      translations;
    - [fix_timestamps.py]: the location of a quote in its transcript and the
      search of the timestamp marker that precedes it.

    Python values are modelled as the scripts use them: [int] is [Z], the
    [float] holding the accrued cost is a binary64 [float], [str] is a
    sequence of characters ([string] in JSON documents, [list ascii] where
    the code slices and searches), a JSON object is an association list in
    insertion order, the output directory is a finite map from file names to
    documents.  Characters are ASCII.  The external services are oracles,
    functions of the requests issued so far; the clock is one too, a
    function of the number of its readings. *)

From Stdlib Require Import ZArith Lia PrimFloat Ascii String DecimalString Sorted.
From stdpp Require Import base option list strings gmap.

Local Open Scope Z_scope.

(** ** Python values and string primitives *)

Module Py.

(** Text that the code slices, searches and scans is a sequence of
    characters. *)
Abbreviation text := (list ascii).

Definition of_string (s : string) : text := list_ascii_of_string s.
Definition to_string (t : text) : string := string_of_list_ascii t.

(** [str.isspace] on one character, which is also what the pattern [\s]
    matches: tab, line feed, vertical tab, form feed, carriage return, the
    four separators 0x1c-0x1f and the space. *)
Definition is_space (c : ascii) : bool :=
  let n := nat_of_ascii c in
  ((9 <=? n)%nat && (n <=? 13)%nat) || ((28 <=? n)%nat && (n <=? 32)%nat).

(** What the pattern [\d] matches. *)
Definition is_digit (c : ascii) : bool :=
  let n := nat_of_ascii c in
  (48 <=? n)%nat && (n <=? 57)%nat.

(** [re.sub(r'\s+', ' ', t)]: every maximal run of whitespace becomes one
    space. [in_run] tells that the previous character was whitespace. *)
Fixpoint collapse_ws (in_run : bool) (t : text) : text :=
  match t with
  | [] => []
  | c :: r =>
      if is_space c then
        if in_run then collapse_ws true r else " "%char :: collapse_ws true r
      else c :: collapse_ws false r
  end.

(** The double quote character (code 34). *)
Definition double_quote : ascii := ascii_of_nat 34.

(** [t.replace(old, new)] for one-character [old] and [new]. *)
Definition replace_char (old new : ascii) (t : text) : text :=
  map (fun c => if Ascii.eqb c old then new else c) t.

Fixpoint lstrip (t : text) : text :=
  match t with
  | [] => []
  | c :: r => if is_space c then lstrip r else t
  end.

Definition rstrip (t : text) : text := rev (lstrip (rev t)).

(** [t.strip()] *)
Definition strip (t : text) : text := rstrip (lstrip t).

Definition lower_char (c : ascii) : ascii :=
  let n := nat_of_ascii c in
  if (65 <=? n)%nat && (n <=? 90)%nat then ascii_of_nat (n + 32) else c.

(** [t.lower()] *)
Definition lower (t : text) : text := map lower_char t.

(** [t.startswith(p)] *)
Fixpoint startswith (p t : text) : bool :=
  match p, t with
  | [], _ => true
  | _ :: _, [] => false
  | a :: p', b :: t' => Ascii.eqb a b && startswith p' t'
  end.

(** [t.find(sub)] scanning from offset [i] of the original text: the lowest
    offset at which [sub] occurs, [-1] when there is none. *)
Fixpoint find_from (sub t : text) (i : Z) : Z :=
  if startswith sub t then i
  else match t with
       | [] => -1
       | _ :: r => find_from sub r (i + 1)
       end.

Definition find (t sub : text) : Z := find_from sub t 0.

(** [t[a:b]] for offsets [0 <= a] and [0 <= b]. *)
Definition slice (t : text) (a b : nat) : text := take (b - a) (drop a t).

(** [t.split(sep)] for a one-character separator. *)
Fixpoint split (sep : ascii) (t : text) : list text :=
  match t with
  | [] => [[]]
  | c :: r =>
      if Ascii.eqb c sep then [] :: split sep r
      else match split sep r with
           | [] => [[c]]
           | p :: ps => (c :: p) :: ps
           end
  end.

(** [t.zfill(width)]: zeros on the left, after a leading sign. *)
Definition zfill (width : nat) (t : text) : text :=
  let pad := replicate (width - length t) "0"%char in
  match t with
  | c :: r =>
      if Ascii.eqb c "+" || Ascii.eqb c "-" then c :: pad ++ r else pad ++ t
  | [] => pad
  end.

(** [t.replace(old, new)] for a non-empty [old]: the occurrences are taken
    from left to right, none overlapping another.  [skip] counts the
    characters of the last occurrence still to be passed. *)
Fixpoint replace_aux (old new : text) (skip : nat) (t : text) : text :=
  match t with
  | [] => []
  | c :: r =>
      match skip with
      | S k => replace_aux old new k r
      | O =>
          if startswith old t then new ++ replace_aux old new (length old - 1) r
          else c :: replace_aux old new 0 r
      end
  end.

Definition replace (old new : string) (s : string) : string :=
  to_string (replace_aux (of_string old) (of_string new) 0 (of_string s)).

(** [name.rfind('.')] *)
Fixpoint rfind_dot (t : text) (i : nat) (acc : option nat) : option nat :=
  match t with
  | [] => acc
  | c :: r => rfind_dot r (S i) (if Ascii.eqb c "." then Some i else acc)
  end.

(** [PurePath.stem] of a file name: the name without its last suffix; a
    leading or a trailing dot starts no suffix. *)
Definition stem (name : string) : string :=
  let t := of_string name in
  match rfind_dot t 0 None with
  | Some i =>
      if (0 <? i)%nat && (i <? length t - 1)%nat then to_string (take i t)
      else name
  | None => name
  end.

(** [s.strip()] on a string. *)
Definition strip_string (s : string) : string :=
  to_string (strip (of_string s)).

(** [str(n)] for a natural number. *)
Definition str_of_nat (n : nat) : string :=
  NilEmpty.string_of_uint (Nat.to_uint n).

(** JSON documents as [json.load] returns them; an object keeps its keys in
    insertion order. *)
#[local] Unset Elimination Schemes.
Inductive json :=
  | JNull
  | JBool (b : bool)
  | JInt (n : Z)
  | JFloat (x : float)
  | JStr (s : string)
  | JArr (items : list json)
  | JObj (members : list (string * json)).
#[local] Set Elimination Schemes.

Abbreviation dict := (list (string * json)).

(** [k in d] and [d.get(k)] *)
Fixpoint dict_get (k : string) (d : dict) : option json :=
  match d with
  | [] => None
  | (k', v) :: r => if String.eqb k k' then Some v else dict_get k r
  end.

(** [d[k] = v]: an existing key keeps its place, a new one goes last. *)
Fixpoint dict_set (k : string) (v : json) (d : dict) : dict :=
  match d with
  | [] => [(k, v)]
  | (k', v') :: r =>
      if String.eqb k k' then (k', v) :: r else (k', v') :: dict_set k v r
  end.

(** [d.get(k, dflt)] *)
Definition dict_get_default (k : string) (dflt : json) (d : dict) : json :=
  default dflt (dict_get k d).

(** Truth value of a JSON value in a condition ([if v:], [not v]). *)
Definition truthy (v : json) : bool :=
  match v with
  | JNull => false
  | JBool b => b
  | JInt n => negb (n =? 0)
  | JFloat x => negb (PrimFloat.eqb x 0%float)
  | JStr s => negb (String.eqb s "")
  | JArr l => match l with [] => false | _ => true end
  | JObj o => match o with [] => false | _ => true end
  end.

End Py.

(** ** Checkpoint management ([class CheckpointManager]) *)

Module Checkpoint.

(** The dictionary held in [self.data] and written to
    [pipeline_checkpoint.json]. *)
Record checkpoint_data := CheckpointData {
  extracted_files : list string;
  translated_files : list string;
  errors : list string;
  start_time : option string;
  total_cost_usd : float;
  total_quotes_extracted : Z;
  total_quotes_translated : Z
}.

(** A manager is its in-memory dictionary together with the checkpoint file
    ([None] while the file does not exist). *)
Record manager := Manager {
  data : checkpoint_data;
  checkpoint_file : option checkpoint_data
}.

Definition empty_data : checkpoint_data :=
  CheckpointData [] [] [] None 0%float 0 0.

(** [_load]: the file's content when it exists, the empty dictionary
    otherwise. *)
Definition _load (file : option checkpoint_data) : checkpoint_data :=
  match file with
  | Some d => d
  | None => empty_data
  end.

(** [CheckpointManager(base_dir)]: a new manager over the file found on
    disk. *)
Definition init (file : option checkpoint_data) : manager :=
  Manager (_load file) file.

(** [save]: the whole dictionary overwrites the file. *)
Definition save (m : manager) : manager :=
  Manager (data m) (Some (data m)).

(** [filename in self.data[...]]: Python's linear scan with [==]. *)
Definition py_in (x : string) (l : list string) : bool :=
  existsb (String.eqb x) l.

Definition mark_extracted (filename : string) (quote_count : Z) (cost : float)
    (m : manager) : manager :=
  let d := data m in
  let d' :=
    if negb (py_in filename (extracted_files d)) then
      CheckpointData
        (extracted_files d ++ [filename])
        (translated_files d) (errors d) (start_time d)
        (total_cost_usd d + cost)%float
        (total_quotes_extracted d + quote_count)
        (total_quotes_translated d)
    else d in
  save (Manager d' (checkpoint_file m)).

Definition mark_translated (filename : string) (quote_count : Z) (cost : float)
    (m : manager) : manager :=
  let d := data m in
  let d' :=
    if negb (py_in filename (translated_files d)) then
      CheckpointData
        (extracted_files d)
        (translated_files d ++ [filename]) (errors d) (start_time d)
        (total_cost_usd d + cost)%float
        (total_quotes_extracted d)
        (total_quotes_translated d + quote_count)
    else d in
  save (Manager d' (checkpoint_file m)).

(** [add_error]: [now] is the value of [datetime.now().isoformat()] read by
    the call. *)
Definition add_error (now : string) (error_msg : string) (m : manager)
    : manager :=
  let d := data m in
  let entry := ("[" +:+ now +:+ "] " +:+ error_msg)%string in
  save (Manager
    (CheckpointData (extracted_files d) (translated_files d)
       (errors d ++ [entry]) (start_time d) (total_cost_usd d)
       (total_quotes_extracted d) (total_quotes_translated d))
    (checkpoint_file m)).

Definition is_extracted (filename : string) (m : manager) : bool :=
  py_in filename (extracted_files (data m)).

Definition is_translated (filename : string) (m : manager) : bool :=
  py_in filename (translated_files (data m)).

(** [set_start_time]: only the first call records (and saves) the time. *)
Definition set_start_time (now : string) (m : manager) : manager :=
  let d := data m in
  match start_time d with
  | None =>
      save (Manager
        (CheckpointData (extracted_files d) (translated_files d) (errors d)
           (Some now) (total_cost_usd d) (total_quotes_extracted d)
           (total_quotes_translated d))
        (checkpoint_file m))
  | Some _ => m
  end.

Definition clear (m : manager) : manager :=
  save (Manager empty_data (checkpoint_file m)).

(** The operations a run applies to the checkpoint.  [OpLoad] is a restart:
    the process is gone and a new manager reads the file, which is how an
    interrupted run resumes. *)
Inductive op :=
  | OpMarkExtracted (filename : string) (quote_count : Z) (cost : float)
  | OpMarkTranslated (filename : string) (quote_count : Z) (cost : float)
  | OpAddError (now error_msg : string)
  | OpLoad.

Definition step (m : manager) (o : op) : manager :=
  match o with
  | OpMarkExtracted f n c => mark_extracted f n c m
  | OpMarkTranslated f n c => mark_translated f n c m
  | OpAddError now msg => add_error now msg m
  | OpLoad => init (checkpoint_file m)
  end.

Definition run (ops : list op) (m : manager) : manager :=
  fold_left step ops m.

(** The quote count credited to [filename]: the one passed by the first
    [mark_extracted] of that file in the sequence. *)
Fixpoint credited (ops : list op) (filename : string) : option Z :=
  match ops with
  | [] => None
  | OpMarkExtracted f n _ :: rest =>
      if String.eqb filename f then Some n else credited rest filename
  | _ :: rest => credited rest filename
  end.

Definition credited_sum (ops : list op) (files : list string) : Z :=
  foldr (fun f acc => default 0 (credited ops f) + acc) 0 files.

End Checkpoint.

(** ** The pipeline ([process_all_transcripts.py]) *)

Module Pipeline.
Import Py Checkpoint.

Definition BATCH_SIZE : nat := 50.
Definition MAX_RETRIES : nat := 3.
#[local] Set Warnings "-inexact-float".
Definition COST_PER_FILE_EXTRACT_USD : float := 0.02%float.
Definition COST_PER_FILE_TRANSLATE_USD : float := 0.03%float.

(** The requests the pipeline sends to the two services. *)
Inductive request :=
  | ReqExtract (prompt transcript : string)
  | ReqKorean (quote_text : json)
  | ReqClaude (quote_text : json) (lang_code : string).

(** What lies outside the pipeline.  [transcript_of] is [load_file] on a
    transcript: the text read, or the exception raised by the read ([inl],
    a file that cannot be opened or decoded).  A service answers a request
    knowing the requests issued before it; [inl msg] is an exception whose
    [str(e)] is [msg].  The extraction service's answer is the response
    already parsed by [json.loads] (a response that does not parse is an
    exception). *)
Record world := World {
  transcript_of : string -> string + string;
  extraction_prompt : string;
  speaker_profiles : dict;
  extract_service : list request -> string -> string -> string + list dict;
  korean_service : list request -> json -> string + string;
  claude_service : list request -> json -> string -> string + string;
  clock : nat -> string
}.

(** What a run reads and writes: the checkpoint, the quote files of the
    output directory, the requests issued so far (oldest first), the lines
    [logger.error] wrote and the number of clock readings. *)
Record state := State {
  checkpoint : manager;
  output : gmap string (list dict);
  requests : list request;
  error_log : list string;
  clock_reads : nat
}.

Definition with_checkpoint (f : manager -> manager) (st : state) : state :=
  State (f (checkpoint st)) (output st) (requests st) (error_log st)
    (clock_reads st).

Definition issue (r : request) (st : state) : state :=
  State (checkpoint st) (output st) (requests st ++ [r]) (error_log st)
    (clock_reads st).

Definition write_quotes (name : string) (quotes : list dict) (st : state)
    : state :=
  State (checkpoint st) (<[name := quotes]> (output st)) (requests st)
    (error_log st) (clock_reads st).

Definition logger_error (msg : string) (st : state) : state :=
  State (checkpoint st) (output st) (requests st) (error_log st ++ [msg])
    (clock_reads st).

(** [checkpoint.add_error(msg)], which reads the clock once. *)
Definition checkpoint_add_error (w : world) (msg : string) (st : state)
    : state :=
  State (add_error (clock w (clock_reads st)) msg (checkpoint st))
    (output st) (requests st) (error_log st) (S (clock_reads st)).

(** [checkpoint.set_start_time()], which reads the clock only when no start
    time is recorded. *)
Definition checkpoint_set_start_time (w : world) (st : state) : state :=
  match start_time (data (checkpoint st)) with
  | None =>
      State (set_start_time (clock w (clock_reads st)) (checkpoint st))
        (output st) (requests st) (error_log st) (S (clock_reads st))
  | Some _ => st
  end.

(** One iteration of [enrich_quotes_with_speaker_info].  A speaker that is
    a list or an object cannot be looked up, a profile that is not an object
    has no [get]: both raise. *)
Definition enrich_quote (profiles : dict) (quote : dict) : string + dict :=
  let defaults :=
    dict_set "speaker_expertise" (JArr [])
      (dict_set "speaker_function" (JStr "Leadership") quote) in
  match dict_get_default "speaker" (JStr "") quote with
  | JArr _ => inl "unhashable type: 'list'"
  | JObj _ => inl "unhashable type: 'dict'"
  | JStr speaker_name =>
      match dict_get speaker_name profiles with
      | Some (JObj profile) =>
          inr (dict_set "speaker_expertise"
                 (dict_get_default "expertise" (JArr []) profile)
                 (dict_set "speaker_function"
                    (dict_get_default "function" (JStr "Leadership") profile)
                    quote))
      | Some JNull => inl "'NoneType' object has no attribute 'get'"
      | Some (JBool _) => inl "'bool' object has no attribute 'get'"
      | Some (JInt _) => inl "'int' object has no attribute 'get'"
      | Some (JFloat _) => inl "'float' object has no attribute 'get'"
      | Some (JStr _) => inl "'str' object has no attribute 'get'"
      | Some (JArr _) => inl "'list' object has no attribute 'get'"
      | None => inr defaults
      end
  | _ => inr defaults
  end.

Fixpoint enrich_quotes_with_speaker_info (quotes : list dict) (profiles : dict)
    : string + list dict :=
  match quotes with
  | [] => inr []
  | q :: rest =>
      match enrich_quote profiles q with
      | inl e => inl e
      | inr q' =>
          match enrich_quotes_with_speaker_info rest profiles with
          | inl e => inl e
          | inr rest' => inr (q' :: rest')
          end
      end
  end.

(** The name [extract_single_file] writes to. *)
Definition output_filename (filename : string) : string :=
  stem filename +:+ "_quotes.json".

(** The name [process_batch_translate] reads and writes. *)
Definition quotes_filename (filename : string) : string :=
  replace ".txt" "_quotes.json" filename.

(** [extract_single_file]: the transcript is read, one request is issued,
    then the enriched quotes are written.  The result is the quote count, or
    the exception raised by the read, the service or the enrichment. *)
Definition extract_single_file (w : world) (filename : string) (st : state)
    : state * (string + Z) :=
  match transcript_of w filename with
  | inl e => (st, inl e)
  | inr transcript =>
      let st1 := issue (ReqExtract (extraction_prompt w) transcript) st in
      match extract_service w (requests st) (extraction_prompt w) transcript
      with
      | inl e => (st1, inl e)
      | inr quotes =>
          match enrich_quotes_with_speaker_info quotes (speaker_profiles w)
          with
          | inl e => (st1, inl e)
          | inr quotes' =>
              (write_quotes (output_filename filename) quotes' st1,
               inr (Z.of_nat (length quotes')))
          end
      end
  end.

(** [translate_to_korean] and [translate_with_claude]: one request each, the
    answer stripped. *)
Definition translate_to_korean (w : world) (quote_text : json) (st : state)
    : state * (string + string) :=
  (issue (ReqKorean quote_text) st,
   match korean_service w (requests st) quote_text with
   | inl e => inl e
   | inr content => inr (strip_string content)
   end).

Definition translate_with_claude (w : world) (quote_text : json)
    (lang_code : string) (st : state) : state * (string + string) :=
  (issue (ReqClaude quote_text lang_code) st,
   match claude_service w (requests st) quote_text lang_code with
   | inl e => inl e
   | inr content => inr (strip_string content)
   end).

(** The body of the loop of [translate_single_file] for one quote. *)
Definition translate_quote (w : world) (quote : dict) (st : state)
    : state * (string + dict) :=
  match dict_get "text" quote with
  | None => (st, inl "'text'")
  | Some quote_text =>
      match translate_to_korean w quote_text st with
      | (st1, inl e) => (st1, inl e)
      | (st1, inr ko) =>
          let quote1 := dict_set "text_ko" (JStr ko) quote in
          match translate_with_claude w quote_text "zh" st1 with
          | (st2, inl e) => (st2, inl e)
          | (st2, inr zh) =>
              let quote2 := dict_set "text_zh" (JStr zh) quote1 in
              match translate_with_claude w quote_text "es" st2 with
              | (st3, inl e) => (st3, inl e)
              | (st3, inr es) =>
                  (st3, inr (dict_set "text_es" (JStr es) quote2))
              end
          end
      end
  end.

Fixpoint translate_quotes (w : world) (quotes : list dict) (st : state)
    : state * (string + list dict) :=
  match quotes with
  | [] => (st, inr [])
  | q :: rest =>
      match translate_quote w q st with
      | (st1, inl e) => (st1, inl e)
      | (st1, inr q') =>
          match translate_quotes w rest st1 with
          | (st2, inl e) => (st2, inl e)
          | (st2, inr rest') => (st2, inr (q' :: rest'))
          end
      end
  end.

(** [translate_single_file] on the file [name]: the file is read, every
    quote is translated, and only then is the file written back. *)
Definition translate_single_file (w : world) (name : string) (st : state)
    : state * (string + Z) :=
  match output st !! name with
  | None => (st, inl ("[Errno 2] No such file or directory: " +:+ name))
  | Some quotes =>
      match translate_quotes w quotes st with
      | (st1, inl e) => (st1, inl e)
      | (st1, inr quotes') =>
          (write_quotes name quotes' st1, inr (Z.of_nat (length quotes')))
      end
  end.

(** The [while retry_count < MAX_RETRIES] loop both batch functions share.
    [remaining] is [MAX_RETRIES - retry_count], so the loop ends when it
    reaches zero.  [attempt] is the stage operation, [mark] the checkpoint
    update after a success, [describe] the head of the error message.  The
    result tells whether the unit was processed and how many attempts were
    made. *)
Fixpoint retry_loop (w : world) (attempt : state -> state * (string + Z))
    (mark : Z -> manager -> manager) (describe : string)
    (remaining retry_count : nat) (st : state) : state * bool * nat :=
  match remaining with
  | O => (st, false, retry_count)
  | S remaining' =>
      match attempt st with
      | (st1, inr quote_count) =>
          (with_checkpoint (mark quote_count) st1, true, S retry_count)
      | (st1, inl e) =>
          let retry_count := S retry_count in
          let error_msg :=
            describe +:+ " (attempt " +:+ str_of_nat retry_count +:+ "): "
              +:+ e in
          let st2 := logger_error error_msg st1 in
          if (retry_count <? MAX_RETRIES)%nat then
            retry_loop w attempt mark describe remaining' retry_count st2
          else
            retry_loop w attempt mark describe remaining' retry_count
              (checkpoint_add_error w
                 ("FAILED after " +:+ str_of_nat MAX_RETRIES +:+ " attempts: "
                    +:+ error_msg) st2)
      end
  end.

(** The retry loop as [process_batch_extract] enters it for one file. *)
Definition extract_loop (w : world) (filename : string) (st : state)
    : state * bool * nat :=
  retry_loop w (extract_single_file w filename)
    (fun n => mark_extracted filename n COST_PER_FILE_EXTRACT_USD)
    ("Extract " +:+ filename) MAX_RETRIES 0 st.

(** The retry loop as [process_batch_translate] enters it for one file. *)
Definition translate_loop (w : world) (filename : string) (st : state)
    : state * bool * nat :=
  retry_loop w (translate_single_file w (quotes_filename filename))
    (fun n => mark_translated filename n COST_PER_FILE_TRANSLATE_USD)
    ("Translate " +:+ quotes_filename filename) MAX_RETRIES 0 st.

(** One iteration of the loop of [process_batch_extract]; the boolean is the
    increment of [batch_processed]. *)
Definition extract_unit (w : world) (filename : string) (st : state)
    : state * bool :=
  if is_extracted filename (checkpoint st) then (st, true)
  else (extract_loop w filename st).1.

(** One iteration of the loop of [process_batch_translate]. *)
Definition translate_unit (w : world) (filename : string) (st : state)
    : state * bool :=
  if is_translated filename (checkpoint st) then (st, true)
  else if negb (bool_decide (is_Some (output st !! quotes_filename filename)))
  then (st, false)
  else (translate_loop w filename st).1.

(** A batch loop: the units in order, the state threaded through, the
    processed units counted. *)
Fixpoint process_batch (unit : string -> state -> state * bool)
    (batch_files : list string) (st : state) : state * Z :=
  match batch_files with
  | [] => (st, 0)
  | filename :: rest =>
      let '(st1, done) := unit filename st in
      let '(st2, n) := process_batch unit rest st1 in
      (st2, (if done then 1 else 0) + n)
  end.

Definition process_batch_extract (w : world) (batch_files : list string)
    (st : state) : state * Z :=
  process_batch (extract_unit w) batch_files st.

Definition process_batch_translate (w : world) (batch_files : list string)
    (st : state) : state * Z :=
  process_batch (translate_unit w) batch_files st.

(** The files of batch [batch_num] (numbered from 1). *)
Definition batch_of (transcript_files : list string) (batch_num : nat)
    : list string :=
  let start_idx := ((batch_num - 1) * BATCH_SIZE)%nat in
  let end_idx := (batch_num * BATCH_SIZE `min` length transcript_files)%nat in
  take (end_idx - start_idx) (drop start_idx transcript_files).

(** The body of the loop over the batches in [main]: extraction of the whole
    batch, then translation of the whole batch. *)
Definition run_batch (w : world) (transcript_files : list string)
    (st : state) (batch_num : nat) : state :=
  let batch_files := batch_of transcript_files batch_num in
  let st1 := (process_batch_extract w batch_files st).1 in
  (process_batch_translate w batch_files st1).1.

(** One run of [main] over the sorted transcript files, for an operator who
    resumes and confirms: a new manager reads the checkpoint file, the start
    time is recorded, the batches follow one another.  The pauses, the
    progress output and the export that follows are left out; they touch
    neither the checkpoint nor the quote files nor the services. *)
Definition run (w : world) (transcript_files : list string) (st : state)
    : state :=
  let st0 := with_checkpoint (fun m => init (checkpoint_file m)) st in
  match transcript_files with
  | [] => st0
  | _ :: _ =>
      let total_files := length transcript_files in
      let batch_count := ((total_files + BATCH_SIZE - 1) / BATCH_SIZE)%nat in
      foldl (run_batch w transcript_files) (checkpoint_set_start_time w st0)
        (seq 1 batch_count)
  end.

(** The state before the first run: no checkpoint file, an empty output
    directory, nothing requested or logged yet. *)
Definition initial_state : state :=
  State (init None) ∅ [] [] 0.

End Pipeline.

(** ** Completion of missing translations
       ([fill_missing_translations_openai.py]) *)

Module FillMissing.
Import Py.

(** [is_missing_translation]: the field is absent, [None], or a string that
    is empty once stripped. *)
Definition is_missing_translation (quote : dict) (field : string) : bool :=
  match dict_get field quote with
  | None => true
  | Some JNull => true
  | Some (JStr value) => String.eqb (strip_string value) ""
  | Some _ => false
  end.

Definition FIELDS : list string := ["text_ko"; "text_zh"; "text_es"].

(** One request to the translation service: the English text and the field
    whose prompt is used. *)
Record call := Call {
  call_text : json;
  call_field : string
}.

(** The service answers with the message content and the two token counts,
    or raises ([inl]); it knows the calls issued before. *)
Definition service :=
  list call -> json -> string -> string + (string * Z * Z).

Record stats := Stats {
  quotes_checked : Z;
  text_ko_added : Z;
  text_zh_added : Z;
  text_es_added : Z;
  api_calls : Z;
  input_tokens : Z;
  output_tokens : Z;
  translations_needed : Z
}.

(** [stats[f"{field}_added"] += 1] with the call and token counters. *)
Definition count_added (field : string) (input output : Z) (s : stats)
    : stats :=
  let bump := fun name => if String.eqb field name then 1 else 0 in
  Stats (quotes_checked s)
    (text_ko_added s + bump "text_ko")
    (text_zh_added s + bump "text_zh")
    (text_es_added s + bump "text_es")
    (api_calls s + 1) (input_tokens s + input) (output_tokens s + output)
    (translations_needed s).

(** What the loop threads: the calls issued (oldest first) and the
    statistics. *)
Record progress := Progress {
  calls : list call;
  run_stats : stats
}.

(** [translate_text]: one call; the content comes back stripped. *)
Definition translate_text (svc : service) (english_text : json)
    (language_field : string) (issued : list call)
    : list call * (string + (string * Z * Z)) :=
  (issued ++ [Call english_text language_field],
   match svc issued english_text language_field with
   | inl e => inl e
   | inr (content, input, output) => inr (strip_string content, input, output)
   end).

(** The body of [for field in ...]: a missing field is requested and, when
    the call succeeds, filled; an exception is printed and the loop goes
    on. *)
Definition fill_field (svc : service) (english_text : json)
    (acc : dict * progress) (field : string) : dict * progress :=
  let '(quote, p) := acc in
  if is_missing_translation quote field then
    match translate_text svc english_text field (calls p) with
    | (issued, inr (translation, input, output)) =>
        (dict_set field (JStr translation) quote,
         Progress issued (count_added field input output (run_stats p)))
    | (issued, inl _) => (quote, Progress issued (run_stats p))
    end
  else (quote, p).

(** The body of [for quote_idx, quote in enumerate(quotes)]. *)
Definition fill_quote (svc : service) (quote : dict) (p : progress)
    : dict * progress :=
  let english_text := dict_get_default "text" (JStr "") quote in
  if negb (truthy english_text) then (quote, p)
  else foldl (fill_field svc english_text) (quote, p) FIELDS.

Fixpoint fill_quotes (svc : service) (quotes : list dict) (p : progress)
    : list dict * progress :=
  match quotes with
  | [] => ([], p)
  | q :: rest =>
      let '(q', p1) := fill_quote svc q p in
      let '(rest', p2) := fill_quotes svc rest p1 in
      (q' :: rest', p2)
  end.

(** The first loop of [process_quote_file]: the missing translations per
    field. *)
Definition count_missing (quotes : list dict) (field : string) : Z :=
  Z.of_nat (length (filter (fun q => is_missing_translation q field) quotes)).

(** [process_quote_file] on the quotes loaded from the file: the content
    written back, the calls issued, the statistics and the missing counts
    per field. *)
Definition process_quote_file (svc : service) (quotes : list dict)
    (issued : list call) : list dict * progress * list (string * Z) :=
  let missing_counts := map (fun f => (f, count_missing quotes f)) FIELDS in
  let needed := foldr Z.add 0 (map snd missing_counts) in
  let st := Stats (Z.of_nat (length quotes)) 0 0 0 0 0 0 needed in
  (fill_quotes svc quotes (Progress issued st), missing_counts).

End FillMissing.

(** ** Timestamp alignment ([fix_timestamps.py]) *)

Module FixTimestamps.
Import Py.

(** [normalize_timestamp]: [MM:SS] and [H:MM:SS] become [HH:MM:SS]. *)
Definition normalize_timestamp (ts : text) : text :=
  match split ":" ts with
  | [p0; p1] => of_string "00:" ++ zfill 2 p0 ++ ":"%char :: p1
  | [p0; p1; p2] => zfill 2 p0 ++ ":"%char :: p1 ++ ":"%char :: p2
  | _ => ts
  end.

(** [clean_text_for_search]: whitespace runs collapsed, the four quote
    replacements as the file has them (each maps a quote character to
    itself), then [strip]. *)
Definition clean_text_for_search (t : text) : text :=
  let t := collapse_ws false t in
  let t := replace_char double_quote double_quote
             (replace_char double_quote double_quote t) in
  let t := replace_char "'" "'" (replace_char "'" "'" t) in
  strip t.

(** [find_quote_position]: the offset of the quote in the cleaned
    transcript, [-1] when no step finds it. *)
Definition find_quote_position (transcript quote_text : text) : Z :=
  let clean_quote := clean_text_for_search quote_text in
  let clean_transcript := clean_text_for_search transcript in
  let pos := find clean_transcript clean_quote in
  if negb (pos =? -1) then pos else
  let pos100 := find clean_transcript (take 100 clean_quote) in
  if (100 <? length clean_quote)%nat && negb (pos100 =? -1) then pos100 else
  let pos50 := find clean_transcript (take 50 clean_quote) in
  if (50 <? length clean_quote)%nat && negb (pos50 =? -1) then pos50 else
  let pos30 := find clean_transcript (take 30 clean_quote) in
  if (30 <? length clean_quote)%nat && negb (pos30 =? -1) then pos30 else
  let pos := find (lower clean_transcript) (take 50 (lower clean_quote)) in
  if negb (pos =? -1) then pos else
  -1.

(** The tail [:\d{2}:\d{2}\)] of the marker pattern at the head of [t]; the
    result is the text matched before the closing parenthesis. *)
Definition match_tail (t : text) : option text :=
  match t with
  | c1 :: m1 :: m2 :: c2 :: s1 :: s2 :: p :: _ =>
      if Ascii.eqb c1 ":" && is_digit m1 && is_digit m2 && Ascii.eqb c2 ":"
         && is_digit s1 && is_digit s2 && Ascii.eqb p ")"
      then Some [c1; m1; m2; c2; s1; s2]
      else None
  | _ => None
  end.

(** The pattern [\((\d{1,2}:\d{2}:\d{2})\)] matched at the head of [t]; the
    result is group 1.  The greedy [\d{1,2}] takes two digits when it can
    and falls back to one. *)
Definition match_marker (t : text) : option text :=
  match t with
  | p :: d1 :: r1 =>
      if Ascii.eqb p "(" && is_digit d1 then
        let one := option_map (cons d1) (match_tail r1) in
        match r1 with
        | d2 :: r2 =>
            if is_digit d2 then
              match match_tail r2 with
              | Some tl => Some (d1 :: d2 :: tl)
              | None => one
              end
            else one
        | [] => one
        end
      else None
  | _ => None
  end.

(** [timestamp_pattern.finditer(t)]: the matches from left to right, none
    overlapping another, each with [match.start()] and group 1.  [skip]
    counts the characters of the last match still to be passed. *)
Fixpoint finditer (skip pos : nat) (t : text) : list (nat * text) :=
  match t with
  | [] => []
  | _ :: r =>
      match skip with
      | S k => finditer k (S pos) r
      | O =>
          match match_marker t with
          | Some ts => (pos, ts) :: finditer (S (length ts)) (S pos) r
          | None => finditer 0 (S pos) r
          end
      end
  end.

(** [timestamps.sort(key=lambda x: x[0])]: a stable sort by position. *)
Fixpoint insert_by_pos (x : nat * text) (l : list (nat * text))
    : list (nat * text) :=
  match l with
  | [] => [x]
  | y :: r => if (x.1 <? y.1)%nat then x :: l else y :: insert_by_pos x r
  end.

Definition sort_by_pos (l : list (nat * text)) : list (nat * text) :=
  foldl (fun acc x => insert_by_pos x acc) [] l.

(** The inner [search_in_window]. *)
Definition search_in_window (transcript : text) (quote_start_pos : nat)
    (window_size : nat) : option text :=
  let search_start := (quote_start_pos - window_size)%nat in
  let search_end := quote_start_pos in
  let search_text := slice transcript search_start search_end in
  let timestamps := finditer 0 0 search_text in
  match last (sort_by_pos timestamps) with
  | Some (_, ts) => Some ts
  | None => None
  end.

(** [if result:] on an optional string. *)
Definition found (r : option text) : bool :=
  match r with
  | Some (_ :: _) => true
  | _ => false
  end.

(** [find_timestamp_before_position], for an offset the caller has checked
    not to be [-1]. *)
Definition find_timestamp_before_position (transcript : text)
    (quote_start_pos : nat) : option text :=
  let r200 := search_in_window transcript quote_start_pos 200 in
  if found r200 then option_map normalize_timestamp r200 else
  let r500 := search_in_window transcript quote_start_pos 500 in
  if found r500 then option_map normalize_timestamp r500 else
  let r1000 := search_in_window transcript quote_start_pos 1000 in
  if found r1000 then option_map normalize_timestamp r1000 else
  let rall := search_in_window transcript quote_start_pos quote_start_pos in
  if found rall then option_map normalize_timestamp rall else
  None.

(** The statistics dictionary of [process_quote_file]. *)
Record stats := Stats {
  quotes_checked : Z;
  timestamps_updated : Z;
  timestamps_unchanged : Z;
  warnings : list string
}.

(** The outcome of one iteration of the loop over the quotes: the quote as
    the iteration leaves it and the statistics; [None] when the iteration
    raises (a [text] that is not a string reaches [re.sub]). *)
Definition process_quote (transcript : text) (quote : dict) (st : stats)
    : option (dict * stats) :=
  let quote_text := dict_get_default "text" (JStr "") quote in
  let old_timestamp := dict_get_default "timestamp" (JStr "") quote in
  if negb (truthy quote_text) then Some (quote, st) else
  match quote_text with
  | JStr qs =>
      let q := of_string qs in
      let pos := find_quote_position transcript q in
      if pos =? -1 then
        Some (quote,
              Stats (quotes_checked st) (timestamps_updated st)
                (timestamps_unchanged st + 1)
                (warnings st ++
                   ["Text not found: " +:+ to_string (take 40 q) +:+ "..."]))
      else
        let st_w :=
          fun upd unch =>
            Stats (quotes_checked st) (timestamps_updated st + upd)
              (timestamps_unchanged st + unch)
              (warnings st ++
                 ["No timestamp found for: " +:+ to_string (take 40 q)
                    +:+ "..."]) in
        match find_timestamp_before_position transcript (Z.to_nat pos) with
        | None =>
            if truthy old_timestamp then Some (quote, st_w 0 1)
            else Some (dict_set "timestamp" (JStr "00:00:00") quote, st_w 1 0)
        | Some new_timestamp =>
            match old_timestamp with
            | JStr old =>
                if String.eqb old (to_string new_timestamp) then
                  Some (quote,
                        Stats (quotes_checked st) (timestamps_updated st)
                          (timestamps_unchanged st + 1) (warnings st))
                else
                  Some (dict_set "timestamp" (JStr (to_string new_timestamp))
                          quote,
                        Stats (quotes_checked st) (timestamps_updated st + 1)
                          (timestamps_unchanged st) (warnings st))
            | _ =>
                Some (dict_set "timestamp" (JStr (to_string new_timestamp))
                        quote,
                      Stats (quotes_checked st) (timestamps_updated st + 1)
                        (timestamps_unchanged st) (warnings st))
            end
        end
  | _ => None
  end.

(** The loop [for quote in quotes]. *)
Fixpoint process_quotes (transcript : text) (quotes : list dict) (st : stats)
    : option (list dict * stats) :=
  match quotes with
  | [] => Some ([], st)
  | q :: rest =>
      match process_quote transcript q st with
      | None => None
      | Some (q', st') =>
          match process_quotes transcript rest st' with
          | None => None
          | Some (rest', st'') => Some (q' :: rest', st'')
          end
      end
  end.

(** [process_quote_file] on the quotes loaded from the file and the
    transcript [find_transcript_file] led to ([None] when it found none).
    The result is the content of the quote file afterwards and the
    statistics; [None] when the call raises, which leaves the file as it
    was. *)
Definition process_quote_file (filename : string) (quotes : list dict)
    (transcript : option text) : option (list dict * stats) :=
  match quotes with
  | [] => Some (quotes, Stats 0 0 0 [])
  | _ :: _ =>
      match transcript with
      | None =>
          Some (quotes,
                Stats (Z.of_nat (length quotes)) 0 0
                  ["Transcript not found for " +:+ filename])
      | Some t =>
          process_quotes t quotes (Stats (Z.of_nat (length quotes)) 0 0 [])
      end
  end.

End FixTimestamps.

(** ** Vocabulary of the properties and the scenarios they are tried on *)

Module Spec.
Import Py Checkpoint Pipeline.

(** The three target-language fields. *)
Definition TARGET_FIELDS : list string := ["text_ko"; "text_zh"; "text_es"].

(** The field holds a string. *)
Definition is_string_field (q : dict) (field : string) : bool :=
  match dict_get field q with
  | Some (JStr _) => true
  | _ => false
  end.

(** The field holds a non-empty string. *)
Definition is_populated_field (q : dict) (field : string) : bool :=
  match dict_get field q with
  | Some (JStr s) => negb (String.eqb s "")
  | _ => false
  end.

(** Every target-language field of the quote holds a string. *)
Definition has_translations (q : dict) : bool :=
  forallb (is_string_field q) TARGET_FIELDS.

(** Every target-language field of the quote holds a non-empty string. *)
Definition fully_translated (q : dict) : bool :=
  forallb (is_populated_field q) TARGET_FIELDS.

(** The checkpoint of [st'] is that of [st] with one more entry in the error
    log: no file name was added, no counter moved; and no quote file
    changed. *)
Definition skipped_with_one_error (st st' : state) : Prop :=
  let d := data (checkpoint st) in
  let d' := data (checkpoint st') in
  (exists entry, errors d' = errors d ++ [entry])
  /\ extracted_files d' = extracted_files d
  /\ translated_files d' = translated_files d
  /\ total_quotes_extracted d' = total_quotes_extracted d
  /\ total_quotes_translated d' = total_quotes_translated d
  /\ total_cost_usd d' = total_cost_usd d
  /\ output st' = output st.

(** The attempts made for one unit, as the retry bound counts them: the
    stage operation is run; each time it raises, the failure is written to
    the log and, while fewer than [budget] runs were made, the operation is
    run again from there.  The list holds, in order, the state each run left
    and what it returned or raised; [made] is the number of runs before. *)
Fixpoint attempts (attempt : state -> state * (string + Z))
    (describe : string) (budget made : nat) (st : state)
    : list (state * (string + Z)) :=
  match budget with
  | O => []
  | S budget' =>
      let o := attempt st in
      o :: match o.2 with
           | inr _ => []
           | inl e =>
               attempts attempt describe budget' (S made)
                 (logger_error
                    (describe +:+ " (attempt " +:+ str_of_nat (S made)
                       +:+ "): " +:+ e) o.1)
           end
  end.

(** The attempt raised. *)
Definition raised (o : state * (string + Z)) : bool :=
  match o.2 with
  | inl _ => true
  | inr _ => false
  end.

(** The state the last attempt left ([st] when none was made). *)
Definition after_attempts (st : state) (l : list (state * (string + Z)))
    : state :=
  match last l with
  | Some o => o.1
  | None => st
  end.

(** The quote file [name] holds quotes that all carry the three
    translations. *)
Definition translated_file (st : state) (name : string) : Prop :=
  exists qs, output st !! name = Some qs /\ forallb has_translations qs = true.

(** The calls [FillMissing.process_quote_file] owes to one quote: one per
    target-language field that is missing, provided the quote has a text. *)
Definition missing_calls (quote : dict) : list FillMissing.call :=
  let english_text := dict_get_default "text" (JStr "") quote in
  if truthy english_text then
    map (FillMissing.Call english_text)
      (List.filter (FillMissing.is_missing_translation quote)
         FillMissing.FIELDS)
  else [].

(** [quote'] agrees with [quote] on every key that is not a missing
    target-language field of [quote]. *)
Definition keeps_populated (quote quote' : dict) : Prop :=
  forall key,
    (In key FillMissing.FIELDS ->
     FillMissing.is_missing_translation quote key = false) ->
    dict_get key quote' = dict_get key quote.

(** A service for [FillMissing] that always answers. *)
Definition echo_service : FillMissing.service :=
  fun _ _ field => inr (" <" +:+ field +:+ "> ", 10, 5).

(** A world whose services always answer: the extraction returns one quote
    holding the transcript, the Korean service answers [ko] and the other
    one echoes the language code. *)
Definition answering (ko : string) : world :=
  World (fun f => inr ("transcript of " +:+ f)) "PROMPT" []
    (fun _ _ t => inr [[("text", JStr t)]])
    (fun _ _ => inr ko)
    (fun _ _ lang => inr lang)
    (fun n => "T" +:+ str_of_nat n).

(** A world whose services always raise. *)
Definition failing : world :=
  World (fun f => inr ("transcript of " +:+ f)) "PROMPT" []
    (fun _ _ _ => inl "overloaded")
    (fun _ _ => inl "rate limit")
    (fun _ _ _ => inl "overloaded")
    (fun n => "T" +:+ str_of_nat n).

(** A world in which the Korean service answers until [k] requests have been
    issued and raises afterwards. *)
Definition failing_after (k : nat) : world :=
  World (fun f => inr ("transcript of " +:+ f)) "PROMPT" []
    (fun _ _ t => inr [[("text", JStr t)]])
    (fun issued _ =>
       if (length issued <? k)%nat then inr "ko" else inl "rate limit")
    (fun _ _ lang => inr lang)
    (fun n => "T" +:+ str_of_nat n).

(** A sorted corpus of 51 transcripts, two batches.  Its first file
    contains [.txt] twice, so that [quotes_filename] does not give the name
    [output_filename] wrote for it but the one written for the last file,
    which is in the second batch. *)
Definition two_digits (n : nat) : string :=
  (if (n <? 10)%nat then "0" else "") +:+ str_of_nat n.

Definition colliding_corpus : list string :=
  "a.txt.txt"
  :: map (fun n => "a" +:+ two_digits n +:+ ".txt") (seq 1 49)
  ++ ["a_quotes.json.txt"].

(** The list is in the order [sorted] gives: each name is below the next. *)
Fixpoint ascending (l : list string) : bool :=
  match l with
  | a :: (b :: _) as rest => String.ltb a b && ascending rest
  | _ => true
  end.

(** A state with one extracted, untranslated unit whose file holds
    [quotes]. *)
Definition one_unit (filename : string) (quotes : list dict) : state :=
  State
    (mark_extracted filename (Z.of_nat (length quotes))
       COST_PER_FILE_EXTRACT_USD (init None))
    {[ quotes_filename filename := quotes ]} [] [] 0.

(** Every mutator saves, so the file always holds the dictionary in
    memory; before the first save both are empty. *)
Definition in_sync (m : manager) : Prop :=
  _load (checkpoint_file m) = data m.

(** The invariant behind the counter: the listed files are distinct, each
    was marked in the sequence, none is credited that is not listed, and the
    counter is the sum of the credits. *)
Record counted (ops : list op) (m : manager) : Prop := Counted {
  counted_sync : in_sync m;
  counted_nodup : NoDup (extracted_files (data m));
  counted_listed :
    forall f, f ∈ extracted_files (data m) <-> is_Some (credited ops f);
  counted_total :
    total_quotes_extracted (data m)
      = credited_sum ops (extracted_files (data m))
}.

(** [st'] differs from [st] by requests issued only. *)
Definition requests_only (st st' : state) : Prop :=
  checkpoint st' = checkpoint st /\ output st' = output st
  /\ error_log st' = error_log st /\ clock_reads st' = clock_reads st
  /\ exists new, requests st' = requests st ++ new.

(** What every step of a run preserves: nothing is unlisted, no quote file
    disappears, the error log only grows, a recorded start time stays, a
    saved checkpoint stays saved, and every file listed as extracted has its
    quote file as long as this held before. *)
Record extends (st st' : state) : Prop := Extends {
  ext_log : (length (error_log st) <= length (error_log st'))%nat;
  ext_extracted :
    forall f, is_extracted f (checkpoint st) = true ->
              is_extracted f (checkpoint st') = true;
  ext_translated :
    forall f, is_translated f (checkpoint st) = true ->
              is_translated f (checkpoint st') = true;
  ext_files :
    forall name, is_Some (output st !! name) -> is_Some (output st' !! name);
  ext_start :
    is_Some (start_time (data (checkpoint st))) ->
    is_Some (start_time (data (checkpoint st')));
  ext_saved :
    checkpoint_file (checkpoint st) = Some (data (checkpoint st)) ->
    checkpoint_file (checkpoint st') = Some (data (checkpoint st'));
  ext_written :
    (forall f, is_extracted f (checkpoint st) = true ->
               is_Some (output st !! output_filename f)) ->
    forall f, is_extracted f (checkpoint st') = true ->
              is_Some (output st' !! output_filename f)
}.

(** Every extracted file has its quote file. *)
Definition written (st : state) : Prop :=
  forall f, is_extracted f (checkpoint st) = true ->
            is_Some (output st !! output_filename f).

End Spec.

(** ** Vocabulary of the alignment properties *)

Module AlignSpec.
Import Py FixTimestamps.

(** A marker, that is a match of the timestamp pattern, starts at offset
    [i] of [t]; [ts] is its group 1. *)
Definition marker_at (t : text) (i : nat) (ts : text) : Prop :=
  match_marker (drop i t) = Some ts.

(** The marker at [i] lies inside the window of [w] characters that ends
    just before offset [q]: it starts at or after [q - w] (at or after 0 when
    the window is longer than the prefix) and all of it is before [q]. *)
Definition marker_in_window (t : text) (q w i : nat) (ts : text) : Prop :=
  (q - w <= i)%nat /\ marker_at (take q t) i ts.

(** The marker at [i] is the one with the largest offset in the window. *)
Definition last_in_window (t : text) (q w i : nat) (ts : text) : Prop :=
  marker_in_window t q w i ts
  /\ forall j ts', marker_in_window t q w j ts' -> (j <= i)%nat.

(** All the markers of [t], scanned position by position. *)
Fixpoint all_markers (pos : nat) (t : text) : list (nat * text) :=
  match t with
  | [] => []
  | _ :: r =>
      match match_marker t with
      | Some ts => (pos, ts) :: all_markers (S pos) r
      | None => all_markers (S pos) r
      end
  end.

(** The windows in the order the specification gives them: the first that
    holds a marker decides. *)
Definition first_window (t : text) (q : nat) : option text :=
  match search_in_window t q 200 with
  | Some ts => Some ts
  | None =>
      match search_in_window t q 500 with
      | Some ts => Some ts
      | None =>
          match search_in_window t q 1000 with
          | Some ts => Some ts
          | None => search_in_window t q q
          end
      end
  end.

(** [sub] occurs in [t] at offset [i] and at no lower offset. *)
Definition occurs_first (t sub : text) (i : nat) : Prop :=
  startswith sub (drop i t) = true
  /\ (i <= length t)%nat
  /\ forall j, (j < i)%nat -> startswith sub (drop j t) = false.

(** [sub] occurs nowhere in [t]. *)
Definition absent (t sub : text) : Prop :=
  forall i, startswith sub (drop i t) = false.

(** The steps of the graduated fallback as the specification lists them:
    whether the step applies, where it searches and what it searches. *)
Definition quote_attempts (transcript quote_text : text)
    : list (bool * text * text) :=
  let cq := clean_text_for_search quote_text in
  let ct := clean_text_for_search transcript in
  [ (true, ct, cq);
    ((100 <? length cq)%nat, ct, take 100 cq);
    ((50 <? length cq)%nat, ct, take 50 cq);
    ((30 <? length cq)%nat, ct, take 30 cq);
    (true, lower ct, take 50 (lower cq)) ].

(** The offset found by the first step that applies and succeeds; [-1] when
    there is none. *)
Fixpoint first_success (attempts : list (bool * text * text)) : Z :=
  match attempts with
  | [] => -1
  | (applies, haystack, needle) :: rest =>
      if applies && negb (find haystack needle =? -1)
      then find haystack needle
      else first_success rest
  end.

Definition find_quote_position_spec (transcript quote_text : text) : Z :=
  first_success (quote_attempts transcript quote_text).

(** A step that does not apply or finds nothing. *)
Definition fails (a : bool * text * text) : Prop :=
  a.1.1 = true -> absent a.1.2 a.2.

(** *** The quote location in the words of the specification *)

(** The words of [t]: its maximal runs of characters that are not
    whitespace, in order. *)
Fixpoint words (t : text) : list text :=
  match t with
  | [] => []
  | c :: r =>
      if is_space c then words r
      else match r with
           | [] => [[c]]
           | d :: _ =>
               if is_space d then [c] :: words r
               else match words r with
                    | w :: ws => (c :: w) :: ws
                    | [] => [[c]]
                    end
           end
  end.

(** The words with one space between each two. *)
Fixpoint join_words (ws : list text) : text :=
  match ws with
  | [] => []
  | w :: rest =>
      match rest with
      | [] => w
      | _ :: _ => w ++ " "%char :: join_words rest
      end
  end.

(** The whitespace-normalized copy of a text: its words, separated by
    single spaces. *)
Definition whitespace_normalized (t : text) : text := join_words (words t).

(** How a step of the fallback compares characters. *)
Inductive matching := Exact | IgnoringCase.

(** An upper-case letter. *)
Definition is_upper (c : ascii) : bool :=
  let n := nat_of_ascii c in
  (65 <=? n)%nat && (n <=? 90)%nat.

(** The same character or, when case is ignored, the same letter in the
    other case. *)
Definition same_char (m : matching) (a b : ascii) : bool :=
  match m with
  | Exact => Ascii.eqb a b
  | IgnoringCase =>
      Ascii.eqb a b
      || (is_upper a && (nat_of_ascii b =? nat_of_ascii a + 32)%nat)
      || (is_upper b && (nat_of_ascii a =? nat_of_ascii b + 32)%nat)
  end.

Fixpoint same_text (m : matching) (a b : text) : bool :=
  match a, b with
  | [], [] => true
  | x :: a', y :: b' => same_char m x y && same_text m a' b'
  | _, _ => false
  end.

(** [sub] stands in [t] at offset [i]. *)
Definition occurs_at (m : matching) (t sub : text) (i : nat) : bool :=
  same_text m sub (take (length sub) (drop i t)).

(** [i] is the lowest offset at which [sub] stands in [t]. *)
Definition first_occurrence (m : matching) (t sub : text) (i : nat) : Prop :=
  occurs_at m t sub i = true
  /\ forall j, (j < i)%nat -> occurs_at m t sub j = false.

(** [sub] stands nowhere in [t]. *)
Definition no_occurrence (m : matching) (t sub : text) : Prop :=
  forall i, occurs_at m t sub i = false.

(** The steps of the graduated fallback for the normalized quote [nq], in
    order: whether the step applies, how it compares and what it looks
    for. *)
Definition fallback_steps (nq : text) : list (bool * matching * text) :=
  [ (true, Exact, nq);
    ((100 <? length nq)%nat, Exact, take 100 nq);
    ((50 <? length nq)%nat, Exact, take 50 nq);
    ((30 <? length nq)%nat, Exact, take 30 nq);
    (true, IgnoringCase, take 50 nq) ].

(** The step does not apply, or what it looks for stands nowhere in the
    normalized transcript [nt]. *)
Definition step_fails (nt : text) (s : bool * matching * text) : Prop :=
  s.1.1 = true -> no_occurrence s.1.2 nt s.2.

(** A step of the code and a step of the specification agree: they apply
    together and find the same offsets. *)
Definition same_step (nt : text) (a : bool * text * text)
    (s : bool * matching * text) : Prop :=
  a.1.1 = s.1.1
  /\ (forall i, occurs_first a.1.2 a.2 i <-> first_occurrence s.1.2 nt s.2 i)
  /\ (absent a.1.2 a.2 <-> no_occurrence s.1.2 nt s.2).

(** Every character there is. *)
Definition all_chars : list ascii := map ascii_of_nat (seq 0 256).

(** The transcript of the specification's scenario. *)
Definition scenario : text :=
  of_string
    "... (00:01:15) Speaker: Growth is about retention. (00:02:40) ...".

(** A transcript whose only marker before offset 300 is at offset 0. *)
Definition far_marker : text :=
  of_string "(1:02:03)" ++ replicate 291 "x"%char
    ++ of_string "Growth is about retention. (0:05:00)".

(** A transcript with no marker before the quote and one after it. *)
Definition no_marker_before : text :=
  of_string "Intro. Growth is about retention. (00:02:40) ...".

(** A character that does not open a marker. *)
Definition not_open (c : ascii) : Prop := Ascii.eqb c "(" = false.

(** The order of the positions of two matches. *)
Abbreviation by_pos := (fun a b : nat * text => (a.1 < b.1)%nat).

End AlignSpec.

(** ** Vocabulary of the further properties *)

Module More.
Import Py Checkpoint.

(** The entries a sequence of operations appends to the error log. *)
Fixpoint logged (ops : list op) : list string :=
  match ops with
  | [] => []
  | OpAddError now msg :: rest =>
      ("[" +:+ now +:+ "] " +:+ msg)%string :: logged rest
  | _ :: rest => logged rest
  end.

(** The quote count credited to [filename] as translated: the one passed by
    the first [mark_translated] of that file in the sequence. *)
Fixpoint credited_translated (ops : list op) (filename : string) : option Z :=
  match ops with
  | [] => None
  | OpMarkTranslated f n _ :: rest =>
      if String.eqb filename f then Some n
      else credited_translated rest filename
  | _ :: rest => credited_translated rest filename
  end.

Definition translated_sum (ops : list op) (files : list string) : Z :=
  foldr (fun f acc => default 0 (credited_translated ops f) + acc) 0 files.

(** The invariant behind the translated counter. *)
Record counted_translated (ops : list op) (m : manager) : Prop :=
  CountedTranslated {
    ct_sync : Spec.in_sync m;
    ct_nodup : NoDup (translated_files (data m));
    ct_listed :
      forall f, f ∈ translated_files (data m)
                <-> is_Some (credited_translated ops f);
    ct_total :
      total_quotes_translated (data m)
        = translated_sum ops (translated_files (data m))
  }.

(** The status of a unit as the checkpoint tells it. *)
Inductive stage_status := Pending | Extracted | Translated.

Definition stage_status_of (m : manager) (filename : string)
    : stage_status :=
  if is_translated filename m then Translated
  else if is_extracted filename m then Extracted
  else Pending.

(** The units whose status is extracted or translated, each once: the names
    of [extracted_files], then the names found in [translated_files]
    only. *)
Definition advanced_units (m : manager) : list string :=
  extracted_files (data m)
  ++ List.filter (fun f => negb (is_extracted f m))
       (translated_files (data m)).

(** The quote count of a unit in a sequence of operations: the count passed
    when the unit was first marked extracted and, for a unit never marked
    extracted, the count passed when it was first marked translated. *)
Definition quote_count (ops : list op) (filename : string) : Z :=
  match credited ops filename with
  | Some n => n
  | None => default 0 (credited_translated ops filename)
  end.

Definition quote_count_sum (ops : list op) (units : list string) : Z :=
  foldr (fun f acc => quote_count ops f + acc) 0 units.

End More.

Module MorePipeline.
Import Py Checkpoint Pipeline.

(** The number of batches [main] runs over [transcript_files]. *)
Definition batch_count (transcript_files : list string) : nat :=
  ((length transcript_files + BATCH_SIZE - 1) / BATCH_SIZE)%nat.

(** The slice [transcript_files[start_idx:end_idx]] of [main], the bounds
    written as the source has them:
    [end_idx = min(batch_num * BATCH_SIZE, total_files)]. *)
Definition batch_slice (transcript_files : list string) (batch_num : nat)
    : list string :=
  let start_idx := ((batch_num - 1) * BATCH_SIZE)%nat in
  let end_idx :=
    Nat.min (batch_num * BATCH_SIZE) (length transcript_files) in
  take (end_idx - start_idx) (drop start_idx transcript_files).

(** The quote carries the two fields the enrichment sets. *)
Definition has_speaker_info (q : dict) : Prop :=
  is_Some (dict_get "speaker_function" q)
  /\ is_Some (dict_get "speaker_expertise" q).

(** [q'] agrees with [q] on every key outside [keys]. *)
Definition same_outside (keys : list string) (q q' : dict) : Prop :=
  forall key, ~ In key keys -> dict_get key q' = dict_get key q.

(** The three requests the translation of one quote issues, in order; none
    for a quote without a text, whose translation raises before any
    request. *)
Definition quote_requests (q : dict) : list request :=
  match dict_get "text" q with
  | Some t => [ReqKorean t; ReqClaude t "zh"; ReqClaude t "es"]
  | None => []
  end.

(** What an extraction phase may change of the checkpoint: it appends to
    [extracted_files] and to the error log and leaves the translation side
    and the start time alone. *)
Definition extraction_frame (st st' : state) : Prop :=
  let d := data (checkpoint st) in
  let d' := data (checkpoint st') in
  translated_files d' = translated_files d
  /\ total_quotes_translated d' = total_quotes_translated d
  /\ start_time d' = start_time d
  /\ extracted_files d `prefix_of` extracted_files d'
  /\ errors d `prefix_of` errors d'.

(** What a translation phase may change: it appends to [translated_files]
    and to the error log, leaves the extraction side and the start time
    alone, and neither creates nor deletes a quote file. *)
Definition translation_frame (st st' : state) : Prop :=
  let d := data (checkpoint st) in
  let d' := data (checkpoint st') in
  extracted_files d' = extracted_files d
  /\ total_quotes_extracted d' = total_quotes_extracted d
  /\ start_time d' = start_time d
  /\ translated_files d `prefix_of` translated_files d'
  /\ errors d `prefix_of` errors d'
  /\ forall name, is_Some (output st' !! name) <-> is_Some (output st !! name).

(** A world whose extraction service raises until [k] requests have been
    issued and answers afterwards; the translation services answer. *)
Definition flaky (k : nat) : world :=
  World (fun f => inr ("transcript of " +:+ f)) "PROMPT" []
    (fun issued _ t =>
       if (length issued <? k)%nat then inl "overloaded"
       else inr [[("text", JStr t)]])
    (fun _ _ => inr "ko")
    (fun _ _ lang => inr lang)
    (fun n => "T" +:+ str_of_nat n).

(** A world whose transcripts cannot be read; the services answer. *)
Definition unreadable : world :=
  World (fun f => inl ("[Errno 13] Permission denied: " +:+ f)) "PROMPT" []
    (fun _ _ t => inr [[("text", JStr t)]])
    (fun _ _ => inr "ko")
    (fun _ _ lang => inr lang)
    (fun n => "T" +:+ str_of_nat n).

End MorePipeline.

Module MoreAlign.
Import Py FixTimestamps.

(** The text has the form [HH:MM:SS]: eight characters, digits around two
    colons. *)
Definition is_hhmmss (t : text) : bool :=
  match t with
  | [h1; h2; c1; m1; m2; c2; s1; s2] =>
      is_digit h1 && is_digit h2 && Ascii.eqb c1 ":" && is_digit m1
      && is_digit m2 && Ascii.eqb c2 ":" && is_digit s1 && is_digit s2
  | _ => false
  end.

(** Whitespace is in order: every whitespace character is a space and no
    space follows a space; [prev_space] tells that a space precedes. *)
Fixpoint ws_ok (prev_space : bool) (t : text) : bool :=
  match t with
  | [] => true
  | c :: r =>
      if is_space c then Ascii.eqb c " " && negb prev_space && ws_ok true r
      else ws_ok false r
  end.

(** The first (resp. last) character, if any, is not whitespace. *)
Definition no_leading_space (t : text) : Prop :=
  forall c r, t = c :: r -> is_space c = false.

Definition no_trailing_space (t : text) : Prop :=
  forall l c, t = l ++ [c] -> is_space c = false.

(** The quote has a text the timestamp pass works on. *)
Definition with_text (q : dict) : bool :=
  truthy (dict_get_default "text" (JStr "") q).

(** The text of the quote is there, is not a string and is true in a
    condition: the pass raises on it. *)
Definition bad_text (q : dict) : bool :=
  match dict_get_default "text" (JStr "") q with
  | JStr _ => false
  | v => truthy v
  end.

(** The timestamp of [q'] is that of [q] or a string of the form
    [HH:MM:SS]. *)
Definition timestamp_written (q q' : dict) : Prop :=
  dict_get "timestamp" q' = dict_get "timestamp" q
  \/ exists r, is_hhmmss r = true
               /\ dict_get "timestamp" q' = Some (JStr (to_string r)).

(** [q'] agrees with [q] on every key but [timestamp]. *)
Definition only_timestamp (q q' : dict) : Prop :=
  forall key, key <> "timestamp" -> dict_get key q' = dict_get key q.

End MoreAlign.

Module MoreFill.
Import Py FillMissing.

(** The service answers every call, and never with a blank content. *)
Definition answers_text (svc : service) : Prop :=
  forall issued english_text field, exists content input output,
    svc issued english_text field = inr (content, input, output)
    /\ strip_string content <> "".

(** The quote has an English text the completion pass works on. *)
Definition has_text (q : dict) : bool :=
  truthy (dict_get_default "text" (JStr "") q).

(** No target-language field of the quote is missing. *)
Definition complete (q : dict) : bool :=
  forallb (fun f => negb (is_missing_translation q f)) FIELDS.

(** [1] when the field is missing on the quote. *)
Definition missing (q : dict) (field : string) : Z :=
  if is_missing_translation q field then 1 else 0.

(** The calls of [p'] that [p] did not have yet. *)
Definition new_calls (p p' : progress) : Z :=
  Z.of_nat (length (calls p')) - Z.of_nat (length (calls p)).

(** What one step of the completion pass may add to the statistics of [p]:
    at most [ko], [zh] and [es] additions, each addition with its call. *)
Record adds (ko zh es : Z) (p p' : progress) : Prop := {
  adds_checked :
    quotes_checked (run_stats p') = quotes_checked (run_stats p);
  adds_needed :
    translations_needed (run_stats p') = translations_needed (run_stats p);
  adds_ko :
    text_ko_added (run_stats p) <= text_ko_added (run_stats p')
    <= text_ko_added (run_stats p) + ko;
  adds_zh :
    text_zh_added (run_stats p) <= text_zh_added (run_stats p')
    <= text_zh_added (run_stats p) + zh;
  adds_es :
    text_es_added (run_stats p) <= text_es_added (run_stats p')
    <= text_es_added (run_stats p) + es;
  adds_calls :
    api_calls (run_stats p') - api_calls (run_stats p)
    = (text_ko_added (run_stats p') - text_ko_added (run_stats p))
      + (text_zh_added (run_stats p') - text_zh_added (run_stats p))
      + (text_es_added (run_stats p') - text_es_added (run_stats p));
  adds_issued :
    api_calls (run_stats p') - api_calls (run_stats p) <= new_calls p p'
    <= ko + zh + es
}.

End MoreFill.

(** ** The progress bar of the pipeline *)

Module ProgressBar.

(** The two characters of the bar, the full block and the light shade. *)
Inductive cell := Full | Light.

(** [c * n] for a one-character string: empty when [n] is not positive. *)
Definition times (c : cell) (n : Z) : list cell := repeat c (Z.to_nat n).

(** The local [filled] of [print_progress_bar]:
    [int(length * current // total) if total > 0 else 0]. *)
Definition filled (current total length : Z) : Z :=
  if 0 <? total then (length * current) / total else 0.

(** The local [bar] of [print_progress_bar]; the line printed around it
    (prefix, counts, percentage, suffix) is left out. *)
Definition bar (current total length : Z) : list cell :=
  times Full (filled current total length)
  ++ times Light (length - filled current total length).

End ProgressBar.

(** ** The timestamp pass with its transcript lookup *)

Module FixTimestampsFiles.
Import Py FixTimestamps.

Definition TRANSCRIPTS_DIR : string := "transcripts".

(** The files the pass reads: which paths exist, and what reading a path
    gives ([inl] when the read raises). *)
Record files := Files {
  path_exists : string -> bool;
  read_text : string -> string + text
}.

(** [os.path.join(TRANSCRIPTS_DIR, name)]: a [name] that starts with a
    slash stands alone. *)
Definition join_transcripts (name : string) : string :=
  if startswith (of_string "/") (of_string name) then name
  else TRANSCRIPTS_DIR +:+ "/" +:+ name.

(** [re.sub(pattern, EMPTY, t)] for the pattern of [find_transcript_file],
    which matches a single quote, a double quote or a parenthesis. *)
Definition drop_special (t : text) : text :=
  List.filter
    (fun c => negb (Ascii.eqb c "'" || Ascii.eqb c double_quote
                    || Ascii.eqb c "(" || Ascii.eqb c ")")) t.

(** [speaker_name.replace(" ", "_") + ".txt"] *)
Definition speaker_file (speaker_name : text) : string :=
  to_string (replace_char " " "_" speaker_name) +:+ ".txt".

(** [find_transcript_file]: the path found, [None] when no candidate
    exists; [inl] is the exception [speaker_name.replace] raises on a
    speaker that is not a string, once the file named after the quote file
    was not found. *)
Definition find_transcript_file (fs : files) (speaker_name : json)
    (quote_filename : string) : string + option string :=
  let base_name := replace "_quotes.json" "" quote_filename in
  let filepath := join_transcripts (base_name +:+ ".txt") in
  if path_exists fs filepath then inr (Some filepath)
  else
    match speaker_name with
    | JStr name =>
        let filepath := join_transcripts (speaker_file (of_string name)) in
        if path_exists fs filepath then inr (Some filepath)
        else
          let clean_name := drop_special (of_string name) in
          let filepath := join_transcripts (speaker_file clean_name) in
          if path_exists fs filepath then inr (Some filepath)
          else inr None
    | JNull => inl "'NoneType' object has no attribute 'replace'"
    | JBool _ => inl "'bool' object has no attribute 'replace'"
    | JInt _ => inl "'int' object has no attribute 'replace'"
    | JFloat _ => inl "'float' object has no attribute 'replace'"
    | JArr _ => inl "'list' object has no attribute 'replace'"
    | JObj _ => inl "'dict' object has no attribute 'replace'"
    end.

(** [process_quote_file] with its lookup and its read, on the quotes loaded
    from the file [filename]: the content of the quote file afterwards and
    the statistics; [None] when the call raises, which leaves the file as
    it was. *)
Definition process_quote_file (fs : files) (filename : string)
    (quotes : list dict) : option (list dict * stats) :=
  match quotes with
  | [] => FixTimestamps.process_quote_file filename quotes None
  | q0 :: _ =>
      let first_speaker := dict_get_default "speaker" (JStr "") q0 in
      match find_transcript_file fs first_speaker filename with
      | inl _ => None
      | inr None => FixTimestamps.process_quote_file filename quotes None
      | inr (Some transcript_path) =>
          match read_text fs transcript_path with
          | inl _ => None
          | inr transcript =>
              FixTimestamps.process_quote_file filename quotes
                (Some transcript)
          end
      end
  end.

End FixTimestampsFiles.

Module MoreFiles.
Import Py FixTimestamps FixTimestampsFiles MoreAlign.

(** The value is a string. *)
Definition is_string (v : json) : bool :=
  match v with
  | JStr _ => true
  | _ => false
  end.

(** The path of the transcript named after the quote file. *)
Definition named_transcript (filename : string) : string :=
  join_transcripts (replace "_quotes.json" "" filename +:+ ".txt").

(** The three ways the pass over the quotes [q0 :: rest] raises before it
    writes: the lookup reaches the speaker of the first quote, which is not
    a string; the transcript found cannot be read; the transcript was read
    and some quote has a text that is not a string. *)
Definition pass_raises (fs : files) (filename : string) (q0 : dict)
    (rest : list dict) : Prop :=
  let first_speaker := dict_get_default "speaker" (JStr "") q0 in
  (path_exists fs (named_transcript filename) = false
   /\ is_string first_speaker = false)
  \/ exists transcript_path,
       find_transcript_file fs first_speaker filename
       = inr (Some transcript_path)
       /\ match read_text fs transcript_path with
          | inl _ => True
          | inr _ => existsb bad_text (q0 :: rest) = true
          end.

(** The lookup found a transcript and the read gave it. *)
Definition transcript_read (fs : files) (filename : string)
    (quotes : list dict) : Prop :=
  match quotes with
  | [] => False
  | q0 :: _ =>
      exists transcript_path transcript,
        find_transcript_file fs (dict_get_default "speaker" (JStr "") q0)
          filename = inr (Some transcript_path)
        /\ read_text fs transcript_path = inr transcript
  end.

(** Files with one transcript, named after the speaker. *)
Definition one_transcript (path : string) (transcript : text) : files :=
  Files (String.eqb path) (fun _ => inr transcript).

End MoreFiles.

(** * Properties *)

(** ** The checkpoint *)

Section CheckpointFacts.
Import Checkpoint Spec.

Lemma py_in_spec (x : string) (l : list string) :
  py_in x l = true <-> x ∈ l.
Proof.
  unfold py_in. rewrite existsb_exists. split.
  - intros (y & Hy & Heq). apply String.eqb_eq in Heq. subst y.
    by apply list_elem_of_In.
  - intros Hx. exists x. split; [by apply list_elem_of_In|apply String.eqb_refl].
Qed.

Lemma py_in_app_self (x : string) (l : list string) :
  py_in x (l ++ [x]) = true.
Proof. apply py_in_spec. set_solver. Qed.

Lemma py_in_false (x : string) (l : list string) :
  py_in x l = false <-> x ∉ l.
Proof.
  rewrite <- py_in_spec. destruct (py_in x l); split; congruence.
Qed.

(** C2. Marking a file twice is marking it once: the second
    [mark_extracted] (resp. [mark_translated]) of a file name, whatever quote
    count and cost it passes, leaves the manager (the file lists, the three
    counters and the checkpoint file) as the first call left it; and the
    first call appends the name and adds to the counters exactly when the
    name was not listed yet. *)
Theorem mark_twice_is_mark_once (m : manager) (filename : string)
    (n n' : Z) (c c' : float) :
  mark_extracted filename n' c' (mark_extracted filename n c m)
    = mark_extracted filename n c m
  /\ mark_translated filename n' c' (mark_translated filename n c m)
    = mark_translated filename n c m
  /\ data (mark_extracted filename n c m)
     = (if is_extracted filename m then data m
        else CheckpointData (extracted_files (data m) ++ [filename])
               (translated_files (data m)) (errors (data m))
               (start_time (data m)) (total_cost_usd (data m) + c)%float
               (total_quotes_extracted (data m) + n)
               (total_quotes_translated (data m)))
  /\ data (mark_translated filename n c m)
     = (if is_translated filename m then data m
        else CheckpointData (extracted_files (data m))
               (translated_files (data m) ++ [filename]) (errors (data m))
               (start_time (data m)) (total_cost_usd (data m) + c)%float
               (total_quotes_extracted (data m))
               (total_quotes_translated (data m) + n)).
Proof.
  unfold mark_extracted, mark_translated, is_extracted, is_translated, save.
  destruct m as [d file]; simpl.
  repeat split.
  - destruct (py_in filename (extracted_files d)) eqn:Hin; simpl.
    + by rewrite Hin.
    + by rewrite py_in_app_self.
  - destruct (py_in filename (translated_files d)) eqn:Hin; simpl.
    + by rewrite Hin.
    + by rewrite py_in_app_self.
  - by destruct (py_in filename (extracted_files d)).
  - by destruct (py_in filename (translated_files d)).
Qed.

Lemma step_in_sync (m : manager) (o : op) : in_sync m -> in_sync (step m o).
Proof.
  unfold in_sync. destruct o; simpl; try done.
Qed.

Lemma credited_app (ops : list op) (o : op) (f : string) :
  credited (ops ++ [o]) f =
    match credited ops f with
    | Some n => Some n
    | None => credited [o] f
    end.
Proof.
  induction ops as [|o' ops IH]; simpl; [by destruct (credited [o] f)|].
  destruct o'; try done. by destruct (String.eqb f filename).
Qed.

Lemma credited_sum_app (ops : list op) (l1 l2 : list string) :
  credited_sum ops (l1 ++ l2) = credited_sum ops l1 + credited_sum ops l2.
Proof.
  unfold credited_sum. induction l1 as [|f l1 IH]; simpl; [lia|].
  rewrite IH. lia.
Qed.

Lemma credited_sum_ext (ops ops' : list op) (l : list string) :
  (forall f, f ∈ l -> credited ops' f = credited ops f) ->
  credited_sum ops' l = credited_sum ops l.
Proof.
  unfold credited_sum. induction l as [|f l IH]; intros H; simpl; [done|].
  rewrite H by set_solver. rewrite IH; [done|]. intros; apply H; set_solver.
Qed.

Lemma counted_step (ops : list op) (m : manager) (o : op) :
  counted ops m -> counted (ops ++ [o]) (step m o).
Proof.
  intros [Hsync Hnd Hl Ht].
  assert (Hext : forall l, (forall f, f ∈ l -> is_Some (credited ops f)) ->
            credited_sum (ops ++ [o]) l = credited_sum ops l).
  { intros l Hl'. apply credited_sum_ext. intros f Hf.
    rewrite credited_app. by destruct (Hl' f Hf) as [n ->]. }
  assert (Hkeep : forall f, (is_Some (credited ops f) \/ is_Some (credited [o] f))
            <-> is_Some (credited (ops ++ [o]) f)).
  { intros f. rewrite credited_app. destruct (credited ops f); simpl.
    - split; [by eauto|]. intros _. left. by eauto.
    - split; [by intros [[? [=]]|?]|by right]. }
  destruct o as [f n c|f n c|now msg|].
  - (* mark_extracted *)
    simpl. unfold mark_extracted, save; simpl.
    destruct (py_in f (extracted_files (data m))) eqn:Hin; simpl.
    + apply py_in_spec in Hin.
      split; simpl; try done.
      * intros g. rewrite Hl, <- Hkeep. split; [by left|].
        intros [?|Hg]; [done|]. simpl in Hg.
        destruct (String.eqb_spec g f) as [Heq|Hne]; [subst g; by apply Hl|].
        by destruct Hg.
      * rewrite Hext; [done|]. intros g Hg. by apply Hl.
    + apply py_in_false in Hin.
      split; simpl; try done.
      * apply NoDup_app. split; [done|]. split; [|apply NoDup_singleton].
        intros g Hg ->%list_elem_of_singleton. done.
      * intros g. rewrite elem_of_app, list_elem_of_singleton, Hl, <- Hkeep.
        simpl. destruct (String.eqb_spec g f) as [Heq|Hne].
        -- split; [by right; eauto|by right].
        -- split; [by intros [?|?]; [left|]|].
           intros [?|[? [=]]]. by left.
      * rewrite credited_sum_app, Hext by (intros g Hg; by apply Hl).
        rewrite Ht.
        change (credited_sum (ops ++ [OpMarkExtracted f n c]) [f])
          with (default 0 (credited (ops ++ [OpMarkExtracted f n c]) f) + 0).
        rewrite credited_app.
        destruct (credited ops f) eqn:Hc.
        { exfalso. apply Hin, Hl. rewrite Hc. by eexists. }
        simpl. rewrite String.eqb_refl. simpl. lia.
  - (* mark_translated *)
    simpl. unfold mark_translated, save; simpl.
    assert (Hnone : forall g, credited [OpMarkTranslated f n c] g = None) by done.
    destruct (py_in f (translated_files (data m))); simpl;
      (split; simpl; try done;
       [ intros g; rewrite Hl, <- Hkeep, Hnone; split; [by left|];
         by intros [?|[? [=]]]
       | rewrite Hext; [done|]; intros g Hg; by apply Hl ]).
  - (* add_error *)
    simpl. unfold add_error, save; simpl.
    split; simpl; try done.
    + intros g; rewrite Hl, <- Hkeep; split; [by left|]. by intros [?|[? [=]]].
    + rewrite Hext; [done|]; intros g Hg; by apply Hl.
  - (* load *)
    simpl. unfold init; simpl. unfold in_sync in Hsync. rewrite Hsync.
    split; simpl; try done.
    + intros g; rewrite Hl, <- Hkeep; split; [by left|]. by intros [?|[? [=]]].
    + rewrite Hext; [done|]; intros g Hg; by apply Hl.
Qed.

Lemma counted_run (ops : list op) : counted ops (run ops (init None)).
Proof.
  induction ops as [|o ops IH] using rev_ind.
  - split; simpl; try done.
    + apply NoDup_nil_2.
    + intros f. split; [by intros ?%elem_of_nil|by intros [? [=]]].
  - unfold run. rewrite fold_left_app. simpl. by apply counted_step.
Qed.

End CheckpointFacts.

(** ** The pipeline: what a stage operation may touch *)

Section PipelineFrames.
Import Py Checkpoint Pipeline Spec.
Context (w : world).

Lemma requests_only_refl (st : state) : requests_only st st.
Proof. repeat split; try done. exists []. by rewrite app_nil_r. Qed.

Lemma requests_only_trans (a b c : state) :
  requests_only a b -> requests_only b c -> requests_only a c.
Proof.
  intros (? & ? & ? & ? & n1 & ?) (? & ? & ? & ? & n2 & ?).
  repeat split; try congruence.
  exists (n1 ++ n2). rewrite app_assoc. congruence.
Qed.

Lemma requests_only_issue (r : request) (st : state) :
  requests_only st (issue r st).
Proof. repeat split; try done. by exists [r]. Qed.

Lemma translate_quote_frame (q : dict) (st : state) :
  requests_only st (translate_quote w q st).1.
Proof.
  unfold translate_quote, translate_to_korean, translate_with_claude.
  destruct (dict_get "text" q) as [t|]; [|apply requests_only_refl].
  pose proof (requests_only_issue (ReqKorean t) st) as H1.
  destruct (korean_service _ _ _); simpl; [done|].
  pose proof (requests_only_issue (ReqClaude t "zh") (issue (ReqKorean t) st))
    as H2.
  destruct (claude_service _ _ _ "zh"); simpl;
    [by eapply requests_only_trans|].
  pose proof (requests_only_issue (ReqClaude t "es")
                (issue (ReqClaude t "zh") (issue (ReqKorean t) st))) as H3.
  destruct (claude_service _ _ _ "es"); simpl;
    eapply requests_only_trans; eauto using requests_only_trans.
Qed.

Lemma translate_quotes_frame (qs : list dict) (st : state) :
  requests_only st (translate_quotes w qs st).1.
Proof.
  revert st. induction qs as [|q qs IH]; intros st; simpl.
  - apply requests_only_refl.
  - pose proof (translate_quote_frame q st) as Hq.
    destruct (translate_quote w q st) as [st1 [e|q']]; simpl in *; [done|].
    pose proof (IH st1) as Hqs.
    destruct (translate_quotes w qs st1) as [st2 [e|qs']]; simpl in *;
      by eapply requests_only_trans.
Qed.

(** A failed [translate_single_file] has issued requests and nothing else. *)
Lemma translate_single_file_raises (name : string) (st st' : state)
    (e : string) :
  translate_single_file w name st = (st', inl e) -> requests_only st st'.
Proof.
  unfold translate_single_file.
  destruct (output st !! name) as [qs|].
  - pose proof (translate_quotes_frame qs st) as H.
    destruct (translate_quotes w qs st) as [st1 [e1|qs']]; simpl in *;
      intros [= <- _]; done.
  - intros [= <- _]. apply requests_only_refl.
Qed.

(** A successful one has, besides, written the file once. *)
Lemma translate_single_file_returns (name : string) (st st' : state) (n : Z) :
  translate_single_file w name st = (st', inr n) ->
  exists st1 qs qs',
    output st !! name = Some qs
    /\ translate_quotes w qs st = (st1, inr qs')
    /\ requests_only st st1
    /\ st' = write_quotes name qs' st1
    /\ n = Z.of_nat (length qs').
Proof.
  unfold translate_single_file.
  destruct (output st !! name) as [qs|]; [|done].
  pose proof (translate_quotes_frame qs st) as H.
  destruct (translate_quotes w qs st) as [st1 [e1|qs']] eqn:Htq; simpl in *;
    intros [= <- <-].
  by exists st1, qs, qs'.
Qed.

Lemma extract_single_file_raises (filename : string) (st st' : state)
    (e : string) :
  extract_single_file w filename st = (st', inl e) -> requests_only st st'.
Proof.
  unfold extract_single_file.
  destruct (transcript_of w filename) as [e0|transcript];
    [intros [= <- _]; apply requests_only_refl|].
  destruct (extract_service _ _ _ _) as [e1|qs];
    [intros [= <- _]; apply requests_only_issue|].
  destruct (enrich_quotes_with_speaker_info _ _) as [e1|qs'];
    intros [= <- _]; apply requests_only_issue.
Qed.

Lemma extract_single_file_checkpoint (filename : string) (st : state) :
  checkpoint (extract_single_file w filename st).1 = checkpoint st
  /\ error_log (extract_single_file w filename st).1 = error_log st
  /\ clock_reads (extract_single_file w filename st).1 = clock_reads st.
Proof.
  unfold extract_single_file.
  destruct (transcript_of w filename) as [e0|transcript]; [done|].
  destruct (extract_service _ _ _ _) as [e1|qs]; [done|].
  by destruct (enrich_quotes_with_speaker_info _ _) as [e1|qs'].
Qed.

Lemma translate_single_file_checkpoint (name : string) (st : state) :
  checkpoint (translate_single_file w name st).1 = checkpoint st
  /\ error_log (translate_single_file w name st).1 = error_log st
  /\ clock_reads (translate_single_file w name st).1 = clock_reads st.
Proof.
  destruct (translate_single_file w name st) as [st' [e|n]] eqn:H; simpl.
  - apply translate_single_file_raises in H.
    destruct H as (? & ? & ? & ? & _). done.
  - apply translate_single_file_returns in H.
    destruct H as (st1 & qs & qs' & _ & _ & (? & ? & ? & ? & _) & -> & _).
    done.
Qed.

End PipelineFrames.

(** ** Translation of a file *)

Section TranslationFacts.
Import Py Checkpoint Pipeline Spec.
Context (w : world).

Lemma dict_get_set_eq (k : string) (v : json) (d : dict) :
  dict_get k (dict_set k v d) = Some v.
Proof.
  induction d as [|[k' v'] d IH]; simpl.
  - by rewrite String.eqb_refl.
  - destruct (String.eqb_spec k k') as [->|Hne]; simpl.
    + by rewrite String.eqb_refl.
    + by destruct (String.eqb_spec k k').
Qed.

Lemma dict_get_set_ne (k k' : string) (v : json) (d : dict) :
  k <> k' -> dict_get k (dict_set k' v d) = dict_get k d.
Proof.
  intros Hne. induction d as [|[k0 v0] d IH]; simpl.
  - by destruct (String.eqb_spec k k').
  - destruct (String.eqb_spec k' k0) as [->|Hne0]; simpl.
    + by destruct (String.eqb_spec k k0).
    + destruct (String.eqb_spec k k0); [done|apply IH].
Qed.

Lemma translate_quote_returns (q q' : dict) (st st' : state) :
  translate_quote w q st = (st', inr q') -> has_translations q' = true.
Proof.
  unfold translate_quote, translate_to_korean, translate_with_claude.
  destruct (dict_get "text" q) as [t|]; [|done].
  destruct (korean_service _ _ _) as [|ko]; [done|].
  destruct (claude_service _ _ _ "zh") as [|zh]; [done|].
  destruct (claude_service _ _ _ "es") as [|es]; [done|].
  intros [= _ <-].
  unfold has_translations, is_string_field; simpl.
  repeat (rewrite dict_get_set_eq || rewrite dict_get_set_ne by done).
  done.
Qed.

Lemma translate_quotes_returns (qs qs' : list dict) (st st' : state) :
  translate_quotes w qs st = (st', inr qs') ->
  length qs' = length qs /\ forallb has_translations qs' = true.
Proof.
  revert qs' st st'. induction qs as [|q qs IH]; intros qs' st st'; simpl.
  - by intros [= _ <-].
  - destruct (translate_quote w q st) as [st1 [e|q']] eqn:Hq; [done|].
    destruct (translate_quotes w qs st1) as [st2 [e|qs2]] eqn:Hqs; [done|].
    intros [= _ <-]. simpl.
    apply translate_quote_returns in Hq. apply IH in Hqs as [-> ->].
    by rewrite Hq.
Qed.


End TranslationFacts.

(** A file of two quotes whose second Korean request raises: four requests
    have been issued, the file still holds the two untranslated quotes. *)
Example translate_single_file_raises_midway :
  let quotes := [[("text", Py.JStr "one")]; [("text", Py.JStr "two")]] in
  let st := Spec.one_unit "a.txt" quotes in
  let r := Pipeline.translate_single_file (Spec.failing_after 3)
             "a_quotes.json" st in
  r.2 = inl "rate limit"
  /\ length (Pipeline.requests r.1) = 4%nat
  /\ Pipeline.output r.1 !! "a_quotes.json" = Some quotes.
Proof. vm_compute. done. Qed.

(** ** The bounded retry *)

Section RetryFacts.
Import Py Checkpoint Pipeline Spec.
Context (w : world).
Variable attempt : state -> state * (string + Z).
Variable mark : Z -> manager -> manager.
Variable describe : string.

(** What both stage operations satisfy: an attempt never touches the
    checkpoint, the error log or the clock, and one that raises has written
    no file. *)
Hypothesis attempt_keeps :
  forall s, checkpoint (attempt s).1 = checkpoint s
            /\ error_log (attempt s).1 = error_log s
            /\ clock_reads (attempt s).1 = clock_reads s.
Hypothesis attempt_raises :
  forall s s' e, attempt s = (s', inl e) -> requests_only s s'.

(** The outcome of the loop entered with [retry_count] failures behind and
    [remaining] attempts left. *)
Lemma retry_loop_outcome (remaining retry_count : nat) (st : state) :
  (retry_count + remaining = MAX_RETRIES)%nat ->
  let r := retry_loop w attempt mark describe remaining retry_count st in
  (r.2 <= MAX_RETRIES)%nat
  /\ (length (error_log st) <= length (error_log r.1.1)
      <= length (error_log st) + remaining)%nat
  /\ if r.1.2 then
       exists s s1 n,
         checkpoint s = checkpoint st /\ output s = output st
         /\ attempt s = (s1, inr n)
         /\ r.1.1 = with_checkpoint (mark n) s1
         /\ error_log r.1.1 = error_log s
         /\ (error_log s = error_log st -> s = st)
     else
       output r.1.1 = output st
       /\ (length (error_log r.1.1)
           = length (error_log st) + remaining)%nat
       /\ match remaining with
          | O => r.1.1 = st
          | S _ =>
              r.2 = MAX_RETRIES
              /\ exists msg,
                   checkpoint r.1.1
                   = add_error (clock w (clock_reads st)) msg (checkpoint st)
          end.
Proof.
  revert retry_count st.
  induction remaining as [|remaining IH]; intros rc st Hsum; simpl.
  { repeat split; lia || done. }
  destruct (attempt_keeps st) as (Hck & Hlog & Hclk).
  destruct (attempt st) as [st1 [e|n]] eqn:Hat; simpl in *.
  - (* the attempt raises *)
    apply attempt_raises in Hat as (_ & Hout & _).
    set (msg := (describe +:+ " (attempt " +:+ str_of_nat (S rc) +:+ "): "
                   +:+ e)%string).
    destruct (S rc <? MAX_RETRIES)%nat eqn:Hlt.
    + apply Nat.ltb_lt in Hlt.
      specialize (IH (S rc) (logger_error msg st1) ltac:(lia)).
      simpl in IH.
      destruct (retry_loop w attempt mark describe remaining (S rc)
                  (logger_error msg st1)) as [[st' done] k]; simpl in *.
      destruct IH as (Hk & Hlen & IH).
      rewrite length_app, Hlog in Hlen; simpl in Hlen.
      split; [done|]. split; [lia|].
      destruct done.
      * destruct IH as (s & s1 & m & Hc & Ho & Ha & Hst' & Hl' & Hsame).
        exists s, s1, m. repeat split; try congruence.
        intros Heq. exfalso.
        assert (length (error_log st') = length (error_log st)) by congruence.
        lia.
      * destruct IH as (Ho & Hl' & IH).
        rewrite length_app, Hlog in Hl'; simpl in Hl'.
        split; [congruence|]. split; [lia|].
        destruct remaining as [|remaining']; [unfold MAX_RETRIES in *; lia|].
        destruct IH as (-> & msg' & Hc).
        split; [done|]. exists msg'. rewrite Hc. simpl. congruence.
    + apply Nat.ltb_ge in Hlt.
      assert (remaining = 0)%nat as -> by lia. simpl.
      rewrite length_app, Hlog, Hck, Hclk; simpl.
      unfold MAX_RETRIES in *.
      split; [lia|]. split; [lia|]. split; [done|]. split; [lia|].
      split; [lia|]. by eexists.
  - (* the attempt returns *)
    unfold MAX_RETRIES in *. split; [lia|]. rewrite Hlog. split; [lia|].
    by exists st, st1, n.
Qed.

Lemma after_attempts_cons (st : state) (o : state * (string + Z))
    (l : list (state * (string + Z))) :
  after_attempts st (o :: l) = after_attempts o.1 l.
Proof.
  unfold after_attempts. destruct l as [|o' l]; [done|].
  rewrite last_cons_cons.
  destruct (last (o' :: l)) eqn:Hl; [done|]. by apply last_None in Hl.
Qed.

Lemma after_attempts_logged (msg : string) (st : state)
    (l : list (state * (string + Z))) :
  requests (after_attempts (logger_error msg st) l)
  = requests (after_attempts st l)
  /\ output (after_attempts (logger_error msg st) l)
     = output (after_attempts st l).
Proof. unfold after_attempts. by destruct (last l). Qed.

(** The loop runs the stage operation for the attempts of the unit and for
    no other: its counter is their number, it reports a success exactly when
    one of them returned, and the requests issued and the quote files
    written when it ends are those the last attempt left. *)
Lemma retry_loop_chain (remaining retry_count : nat) (st : state) :
  (retry_count + remaining = MAX_RETRIES)%nat ->
  let r := retry_loop w attempt mark describe remaining retry_count st in
  let l := attempts attempt describe remaining retry_count st in
  (r.2 = retry_count + length l)%nat
  /\ (length l <= remaining)%nat
  /\ r.1.2 = negb (forallb raised l)
  /\ requests r.1.1 = requests (after_attempts st l)
  /\ output r.1.1 = output (after_attempts st l).
Proof.
  revert retry_count st.
  induction remaining as [|remaining IH]; intros rc st Hsum.
  { simpl. repeat split; lia || done. }
  cbn [retry_loop attempts].
  destruct (attempt st) as [st1 [e|n]] eqn:Hat; cbn [fst snd].
  - set (msg := (describe +:+ " (attempt " +:+ str_of_nat (S rc) +:+ "): "
                   +:+ e)%string).
    rewrite after_attempts_cons. cbn [fst forallb length].
    unfold raised at 1. cbn [snd andb].
    destruct (after_attempts_logged msg st1
                (attempts attempt describe remaining (S rc)
                   (logger_error msg st1))) as [Hreq Hout].
    destruct (S rc <? MAX_RETRIES)%nat eqn:Hlt.
    + specialize (IH (S rc) (logger_error msg st1) ltac:(lia)).
      cbv zeta in IH. destruct IH as (Hk & Hlen & Hdone & Hr & Ho).
      rewrite Hk, Hdone, Hr, Ho, Hreq, Hout.
      repeat split; lia || done.
    + apply Nat.ltb_ge in Hlt.
      assert (remaining = 0)%nat as -> by lia.
      cbn. repeat split; lia || done.
  - rewrite after_attempts_cons. cbn. repeat split; lia || done.
Qed.

(** The requests the attempts add, when one attempt adds at most [k]. *)
Lemma attempts_requests (k budget made : nat) (st : state) :
  (forall s, exists new, requests (attempt s).1 = requests s ++ new
                         /\ (length new <= k)%nat) ->
  let l := attempts attempt describe budget made st in
  (length (requests (after_attempts st l))
   <= length (requests st) + k * length l)%nat.
Proof.
  intros Hk. revert made st.
  induction budget as [|budget IH]; intros made st.
  { unfold after_attempts. cbn. lia. }
  cbn [attempts]. cbv zeta. rewrite after_attempts_cons.
  destruct (Hk st) as (new & Hnew & Hlen).
  destruct (attempt st) as [st1 [e|n]]; cbn [fst snd length] in *.
  - set (msg := (describe +:+ " (attempt " +:+ str_of_nat (S made) +:+ "): "
                   +:+ e)%string).
    specialize (IH (S made) (logger_error msg st1)). cbv zeta in IH.
    destruct (after_attempts_logged msg st1
                (attempts attempt describe budget (S made)
                   (logger_error msg st1))) as [Hreq _].
    rewrite Hreq in IH. cbn [requests logger_error] in IH.
    rewrite Hnew, length_app in IH. nia.
  - unfold after_attempts. cbn. rewrite Hnew, length_app. nia.
Qed.

End RetryFacts.

(** ** The two batch loops *)

Section BatchFacts.
Import Py Checkpoint Pipeline Spec.
Context (w : world).

Lemma extract_loop_outcome (filename : string) (st : state) :
  let r := extract_loop w filename st in
  (r.2 <= MAX_RETRIES)%nat
  /\ (length (error_log st) <= length (error_log r.1.1)
      <= length (error_log st) + MAX_RETRIES)%nat
  /\ if r.1.2 then
       exists s s1 n,
         checkpoint s = checkpoint st /\ output s = output st
         /\ extract_single_file w filename s = (s1, inr n)
         /\ r.1.1 = with_checkpoint
                      (mark_extracted filename n COST_PER_FILE_EXTRACT_USD) s1
         /\ error_log r.1.1 = error_log s
         /\ (error_log s = error_log st -> s = st)
     else
       output r.1.1 = output st
       /\ (length (error_log r.1.1)
           = length (error_log st) + MAX_RETRIES)%nat
       /\ r.2 = MAX_RETRIES
       /\ exists msg,
            checkpoint r.1.1
            = add_error (clock w (clock_reads st)) msg (checkpoint st).
Proof.
  unfold extract_loop.
  apply (retry_loop_outcome w (extract_single_file w filename)); try done.
  - apply extract_single_file_checkpoint.
  - apply extract_single_file_raises.
Qed.

Lemma translate_loop_outcome (filename : string) (st : state) :
  let r := translate_loop w filename st in
  (r.2 <= MAX_RETRIES)%nat
  /\ (length (error_log st) <= length (error_log r.1.1)
      <= length (error_log st) + MAX_RETRIES)%nat
  /\ if r.1.2 then
       exists s s1 n,
         checkpoint s = checkpoint st /\ output s = output st
         /\ translate_single_file w (quotes_filename filename) s = (s1, inr n)
         /\ r.1.1 = with_checkpoint
                      (mark_translated filename n COST_PER_FILE_TRANSLATE_USD)
                      s1
         /\ error_log r.1.1 = error_log s
         /\ (error_log s = error_log st -> s = st)
     else
       output r.1.1 = output st
       /\ (length (error_log r.1.1)
           = length (error_log st) + MAX_RETRIES)%nat
       /\ r.2 = MAX_RETRIES
       /\ exists msg,
            checkpoint r.1.1
            = add_error (clock w (clock_reads st)) msg (checkpoint st).
Proof.
  unfold translate_loop.
  apply (retry_loop_outcome w
           (translate_single_file w (quotes_filename filename))); try done.
  - apply translate_single_file_checkpoint.
  - apply translate_single_file_raises.
Qed.

Lemma add_error_skips (now msg : string) (st st' : state) :
  checkpoint st' = add_error now msg (checkpoint st) ->
  output st' = output st -> skipped_with_one_error st st'.
Proof.
  intros Hc Ho. unfold skipped_with_one_error. rewrite Hc. simpl.
  repeat split; try done. by eexists.
Qed.

Lemma process_batch_cons (unit : string -> state -> state * bool)
    (filename : string) (rest : list string) (st : state) :
  (process_batch unit (filename :: rest) st).1
  = (process_batch unit rest (unit filename st).1).1.
Proof.
  simpl. destruct (unit filename st) as [st1 done]; simpl.
  by destruct (process_batch unit rest st1).
Qed.

Lemma extract_single_file_requests (filename : string) (s : state) :
  exists new,
    requests (extract_single_file w filename s).1 = requests s ++ new
    /\ (length new <= 1)%nat.
Proof.
  unfold extract_single_file.
  destruct (transcript_of w filename) as [e0|transcript].
  { exists []. simpl. rewrite app_nil_r. split; [done|lia]. }
  exists [ReqExtract (extraction_prompt w) transcript].
  destruct (extract_service _ _ _ _) as [e|answer]; [by split|].
  by destruct (enrich_quotes_with_speaker_info _ _); split.
Qed.

Lemma extract_loop_chain (filename : string) (st : state) :
  let r := extract_loop w filename st in
  let l := attempts (extract_single_file w filename)
             ("Extract " +:+ filename) MAX_RETRIES 0 st in
  r.2 = length l
  /\ r.1.2 = negb (forallb raised l)
  /\ requests r.1.1 = requests (after_attempts st l)
  /\ (length (requests r.1.1) <= length (requests st) + MAX_RETRIES)%nat.
Proof.
  intros r l.
  pose proof (retry_loop_chain w (extract_single_file w filename)
                (fun n => mark_extracted filename n COST_PER_FILE_EXTRACT_USD)
                ("Extract " +:+ filename) MAX_RETRIES 0 st eq_refl)
    as (Hk & Hlen & Hdone & Hreq & _).
  pose proof (attempts_requests (extract_single_file w filename)
                ("Extract " +:+ filename) 1 MAX_RETRIES 0 st
                (extract_single_file_requests filename)) as Hbound.
  cbv zeta in Hk, Hlen, Hdone, Hreq, Hbound.
  fold (extract_loop w filename st) in Hk, Hdone, Hreq.
  fold r in Hk, Hdone, Hreq. fold l in Hk, Hlen, Hdone, Hreq, Hbound.
  rewrite Hreq. repeat split; try done. lia.
Qed.

Lemma translate_loop_chain (filename : string) (st : state) :
  let r := translate_loop w filename st in
  let l := attempts (translate_single_file w (quotes_filename filename))
             ("Translate " +:+ quotes_filename filename) MAX_RETRIES 0 st in
  r.2 = length l
  /\ r.1.2 = negb (forallb raised l)
  /\ requests r.1.1 = requests (after_attempts st l).
Proof.
  intros r l.
  pose proof (retry_loop_chain w
                (translate_single_file w (quotes_filename filename))
                (fun n => mark_translated filename n
                            COST_PER_FILE_TRANSLATE_USD)
                ("Translate " +:+ quotes_filename filename) MAX_RETRIES 0 st
                eq_refl) as (Hk & _ & Hdone & Hreq & _).
  done.
Qed.

(** C6. Bounded retry with skip.  For a unit of either stage the stage
    operation is run for the attempts of the unit and for no other: there
    are at most [MAX_RETRIES] of them, at most as many failures are logged,
    and the requests issued when the loop ends are those the last attempt
    left (for extraction, at most [MAX_RETRIES] requests).  When every
    attempt raises, the unit is not counted as processed, all [MAX_RETRIES]
    attempts were made, the checkpoint gains exactly one error entry and
    nothing else (no file name, no counter), no quote file changes, and the
    batch loop goes on with the following units from that state. *)
Theorem bounded_retry_with_skip (filename : string) (rest : list string)
    (st : state) :
  let ex := extract_loop w filename st in
  let tr := translate_loop w filename st in
  let ex_attempts :=
    attempts (extract_single_file w filename) ("Extract " +:+ filename)
      MAX_RETRIES 0 st in
  let tr_attempts :=
    attempts (translate_single_file w (quotes_filename filename))
      ("Translate " +:+ quotes_filename filename) MAX_RETRIES 0 st in
  ((ex.2 <= MAX_RETRIES)%nat
   /\ (length (error_log ex.1.1) <= length (error_log st) + MAX_RETRIES)%nat
   /\ ex.2 = length ex_attempts
   /\ requests ex.1.1 = requests (after_attempts st ex_attempts)
   /\ (length (requests ex.1.1) <= length (requests st) + MAX_RETRIES)%nat)
  /\ ((tr.2 <= MAX_RETRIES)%nat
      /\ (length (error_log tr.1.1)
          <= length (error_log st) + MAX_RETRIES)%nat
      /\ tr.2 = length tr_attempts
      /\ requests tr.1.1 = requests (after_attempts st tr_attempts))
  /\ (forallb raised ex_attempts = true ->
      is_extracted filename (checkpoint st) = false ->
      (extract_unit w filename st).2 = false
      /\ ex.2 = MAX_RETRIES
      /\ skipped_with_one_error st (extract_unit w filename st).1
      /\ is_extracted filename (checkpoint (extract_unit w filename st).1)
         = false)
  /\ (forallb raised tr_attempts = true ->
      is_translated filename (checkpoint st) = false ->
      is_Some (output st !! quotes_filename filename) ->
      (translate_unit w filename st).2 = false
      /\ tr.2 = MAX_RETRIES
      /\ skipped_with_one_error st (translate_unit w filename st).1
      /\ is_translated filename (checkpoint (translate_unit w filename st).1)
         = false)
  /\ (process_batch_extract w (filename :: rest) st).1
     = (process_batch_extract w rest (extract_unit w filename st).1).1
  /\ (process_batch_translate w (filename :: rest) st).1
     = (process_batch_translate w rest (translate_unit w filename st).1).1.
Proof.
  intros ex tr ex_attempts tr_attempts.
  pose proof (extract_loop_outcome filename st) as Hex.
  pose proof (translate_loop_outcome filename st) as Htr.
  pose proof (extract_loop_chain filename st) as Hexc.
  pose proof (translate_loop_chain filename st) as Htrc.
  fold ex in Hex, Hexc. fold tr in Htr, Htrc.
  fold ex_attempts in Hexc. fold tr_attempts in Htrc.
  cbv zeta in Hex, Htr, Hexc, Htrc.
  destruct Hex as (Hex1 & Hex2 & Hex3), Htr as (Htr1 & Htr2 & Htr3).
  destruct Hexc as (Hexk & Hexd & Hexr & Hexb), Htrc as (Htrk & Htrd & Htrr).
  split; [repeat split; done || lia|]. split; [repeat split; done || lia|].
  split; [|split; [|split; apply process_batch_cons]].
  - intros Hall Hnot. unfold extract_unit. rewrite Hnot.
    fold ex. rewrite Hall in Hexd.
    destruct ex as [[st' done] k]; simpl in *. subst done.
    destruct Hex3 as (Ho & _ & -> & msg & Hc).
    split; [done|]. split; [done|].
    split; [by eapply add_error_skips|].
    unfold is_extracted in *. by rewrite Hc.
  - intros Hall Hnot Hfile. unfold translate_unit. rewrite Hnot.
    rewrite bool_decide_eq_true_2 by done. cbv beta iota delta [negb].
    fold tr. rewrite Hall in Htrd.
    destruct tr as [[st' done] k]; simpl in *. subst done.
    destruct Htr3 as (Ho & _ & -> & msg & Hc).
    split; [done|]. split; [done|].
    split; [by eapply add_error_skips|].
    unfold is_translated in *. by rewrite Hc.
Qed.

End BatchFacts.

(** The extraction service raises at the first three requests and would
    answer the fourth: the three attempts of the unit raise, three requests
    were issued and the unit is skipped with one error entry.  The
    translation services raise at every request: the same for a unit to
    translate. *)
Lemma bounded_retry_with_skip_witness :
  let st := Spec.one_unit "a.txt" [[("text", Py.JStr "one")]] in
  let st0 := Pipeline.initial_state in
  (Spec.skipped_with_one_error st0
     (Pipeline.extract_unit (MorePipeline.flaky 3) "a.txt" st0).1
   /\ length (Pipeline.requests
                (Pipeline.extract_unit (MorePipeline.flaky 3) "a.txt" st0).1)
      = 3%nat)
  /\ Spec.skipped_with_one_error st
       (Pipeline.translate_unit Spec.failing "a.txt" st).1.
Proof.
  intros st st0.
  split; [split|].
  - refine (proj1 (proj2 (proj2
      (proj1 (proj2 (proj2 (bounded_retry_with_skip (MorePipeline.flaky 3)
                               "a.txt" [] st0))) _ _)))).
    + vm_compute. reflexivity.
    + reflexivity.
  - vm_compute. reflexivity.
  - refine (proj1 (proj2 (proj2
      (proj1 (proj2 (proj2 (proj2 (bounded_retry_with_skip Spec.failing
                               "a.txt" [] st)))) _ _ _)))).
    + vm_compute. reflexivity.
    + reflexivity.
    + vm_compute. eexists. reflexivity.
Defined.

(** ** Completion of a translation phase *)

Section CompletionFacts.
Import Py Checkpoint Pipeline Spec.
Context (w : world).

Lemma is_translated_mark (f g : string) (n : Z) (c : float) (m : manager) :
  is_translated g (mark_translated f n c m) = true ->
  is_translated g m = true \/ g = f.
Proof.
  unfold is_translated, mark_translated; simpl.
  destruct (py_in f (translated_files (data m))); simpl; [by left|].
  rewrite !py_in_spec, elem_of_app, list_elem_of_singleton. tauto.
Qed.

(** One unit of the translation phase: a file it changes ends up
    translated, and the only unit it may mark is its own, whose file it has
    then written. *)
Lemma translate_unit_effect (f : string) (st : state) :
  let st' := (translate_unit w f st).1 in
  (forall name,
     output st' !! name = output st !! name \/ translated_file st' name)
  /\ (forall g,
        is_translated g (checkpoint st') = true ->
        is_translated g (checkpoint st) = true
        \/ (g = f /\ translated_file st' (quotes_filename f))).
Proof.
  unfold translate_unit.
  destruct (is_translated f (checkpoint st)) eqn:Hf; [by split; auto|].
  destruct (negb _); [by split; auto|].
  pose proof (translate_loop_outcome w f st) as (_ & _ & H).
  destruct (translate_loop w f st) as [[st' done] k]; simpl in *.
  destruct done.
  - destruct H as (s & s1 & n & Hc & Ho & Hat & -> & _).
    apply translate_single_file_returns in Hat
      as (s2 & qs & qs' & Hfile & Htq & (Hc2 & Ho2 & _) & -> & ->).
    apply translate_quotes_returns in Htq as [_ Hall].
    simpl. rewrite Ho2, Ho, Hc2, Hc.
    assert (Hdone : translated_file
              (with_checkpoint
                 (mark_translated f (Z.of_nat (length qs'))
                    COST_PER_FILE_TRANSLATE_USD)
                 (write_quotes (quotes_filename f) qs' s2))
              (quotes_filename f)).
    { exists qs'. simpl. by rewrite lookup_insert_eq. }
    split.
    + intros name. destruct (decide (name = quotes_filename f)) as [->|Hne].
      * by right.
      * left. by rewrite lookup_insert_ne.
    + intros g Hg. apply is_translated_mark in Hg as [Hg| ->]; [by left|].
      by right.
  - destruct H as (Ho & _ & _ & msg & Hc). rewrite Ho, Hc.
    split; [by left|]. intros g Hg. by left.
Qed.

Lemma translated_file_kept (st st' : state) (name : string) :
  (output st' !! name = output st !! name \/ translated_file st' name) ->
  translated_file st name -> translated_file st' name.
Proof.
  intros [Heq|?] (qs & Hqs & Hall); [|done].
  exists qs. by rewrite Heq.
Qed.

Lemma process_batch_translate_effect (batch : list string) (st : state) :
  let st' := (process_batch_translate w batch st).1 in
  (forall name,
     output st' !! name = output st !! name \/ translated_file st' name)
  /\ (forall g,
        is_translated g (checkpoint st') = true ->
        is_translated g (checkpoint st) = true
        \/ translated_file st' (quotes_filename g)).
Proof.
  unfold process_batch_translate.
  revert st. induction batch as [|f batch IH]; intros st.
  { simpl. split; auto. }
  rewrite process_batch_cons.
  pose proof (translate_unit_effect f st) as [Hu1 Hu2].
  specialize (IH (translate_unit w f st).1) as [IH1 IH2].
  set (st1 := (translate_unit w f st).1) in *.
  set (st' := (process_batch (translate_unit w) batch st1).1) in *.
  simpl in *. split.
  - intros name. destruct (IH1 name) as [Heq|?]; [|by right].
    destruct (Hu1 name) as [Heq1|Ht]; [left; congruence|].
    right. eapply translated_file_kept; [|done]. by left.
  - intros g Hg. destruct (IH2 g Hg) as [Hg1|?]; [|by right].
    destruct (Hu2 g Hg1) as [?|[-> Ht]]; [by left|].
    right. eapply translated_file_kept; [|done]. apply IH1.
Qed.

(** C4 (as the code has it). A translation phase marks a unit translated
    only after [translate_single_file] has returned for the unit's quote
    file.  For every unit whose quote file the translation stage looks up
    under the name extraction wrote it to, and which the phase adds to
    [translated_files], that file holds, at the end of the phase, quotes that
    all carry a string in each of [text_ko], [text_zh] and [text_es] (the
    stripped answers of the services; a string may be empty). *)
Theorem translated_units_carry_translations (batch : list string)
    (st : state) (filename : string) :
  let st' := (process_batch_translate w batch st).1 in
  output_filename filename = quotes_filename filename ->
  is_translated filename (checkpoint st) = false ->
  is_translated filename (checkpoint st') = true ->
  exists quotes,
    output st' !! output_filename filename = Some quotes
    /\ forallb has_translations quotes = true.
Proof.
  intros st' Hname Hbefore Hafter. rewrite Hname.
  destruct (process_batch_translate_effect batch st) as [_ H].
  destruct (H filename Hafter) as [?|?]; [congruence|done].
Qed.

End CompletionFacts.

(** The Korean service answers with blanks: the unit is marked translated
    and its quote holds three strings, the Korean one empty. *)
Lemma translated_units_carry_translations_witness :
  let st := Spec.one_unit "a.txt" [[("text", Py.JStr "one")]] in
  let st' := (Pipeline.process_batch_translate (Spec.answering "  ")
                ["a.txt"] st).1 in
  exists quotes,
    Pipeline.output st' !! Pipeline.output_filename "a.txt" = Some quotes
    /\ forallb Spec.has_translations quotes = true.
Proof.
  intros st st'.
  apply (translated_units_carry_translations (Spec.answering "  ")
           ["a.txt"] st "a.txt"); vm_compute; reflexivity.
Defined.

(** C4 as stated fails, on a unit whose quote file both stages name alike:
    the unit is marked translated although the [text_ko] of its only quote
    is the empty string. *)
Lemma translated_with_empty_field :
  let st := Spec.one_unit "a.txt" [[("text", Py.JStr "one")]] in
  let st' := (Pipeline.process_batch_translate (Spec.answering "  ")
                ["a.txt"] st).1 in
  Pipeline.output_filename "a.txt" = Pipeline.quotes_filename "a.txt"
  /\ Checkpoint.is_translated "a.txt" (Pipeline.checkpoint st) = false
  /\ Checkpoint.is_translated "a.txt" (Pipeline.checkpoint st') = true
  /\ Pipeline.output st' !! "a_quotes.json"
     = Some [[("text", Py.JStr "one"); ("text_ko", Py.JStr "");
              ("text_zh", Py.JStr "zh"); ("text_es", Py.JStr "es")]]
  /\ ~ (forall quotes,
          Pipeline.output st' !! "a_quotes.json" = Some quotes ->
          forallb Spec.fully_translated quotes = true).
Proof.
  intros st st'.
  assert (Hfile : Pipeline.output st' !! "a_quotes.json"
     = Some [[("text", Py.JStr "one"); ("text_ko", Py.JStr "");
              ("text_zh", Py.JStr "zh"); ("text_es", Py.JStr "es")]])
    by (vm_compute; reflexivity).
  split; [vm_compute; reflexivity|].
  split; [vm_compute; reflexivity|]. split; [vm_compute; reflexivity|].
  split; [exact Hfile|].
  intros H. specialize (H _ Hfile). vm_compute in H. discriminate.
Qed.

(** ** Field-by-field completion *)

Section FillMissingFacts.
Import Py FillMissing Spec.
Context (svc : service).

Lemma is_missing_translation_ext (q q' : dict) (field : string) :
  dict_get field q' = dict_get field q ->
  is_missing_translation q' field = is_missing_translation q field.
Proof. unfold is_missing_translation. by intros ->. Qed.

(** One field: a call exactly when the field is missing, and no other key
    touched. *)
Lemma fill_field_effect (english_text : json) (quote : dict) (p : progress)
    (field : string) :
  let r := fill_field svc english_text (quote, p) field in
  calls r.2
  = calls p ++ (if is_missing_translation quote field
                then [Call english_text field] else [])
  /\ (forall key, key <> field -> dict_get key r.1 = dict_get key quote)
  /\ (is_missing_translation quote field = false -> r.1 = quote).
Proof.
  unfold fill_field, translate_text.
  destruct (is_missing_translation quote field).
  - destruct (svc (calls p) english_text field) as [e|[[content i] o]]; simpl;
      repeat split; try done.
    intros key Hne. by apply dict_get_set_ne.
  - simpl. by rewrite app_nil_r.
Qed.

Lemma fill_quote_effect (quote : dict) (p : progress) :
  let r := fill_quote svc quote p in
  calls r.2 = calls p ++ missing_calls quote
  /\ keeps_populated quote r.1.
Proof.
  unfold fill_quote, missing_calls, keeps_populated.
  set (t := dict_get_default "text" (JStr "") quote).
  destruct (truthy t); [|by simpl; rewrite app_nil_r].
  unfold FIELDS. cbn [foldl map List.filter].
  pose proof (fill_field_effect t quote p "text_ko") as (Hc1 & Hk1 & Hs1).
  destruct (fill_field svc t (quote, p) "text_ko") as [q1 p1];
    simpl in Hc1, Hk1, Hs1.
  pose proof (fill_field_effect t q1 p1 "text_zh") as (Hc2 & Hk2 & Hs2).
  destruct (fill_field svc t (q1, p1) "text_zh") as [q2 p2];
    simpl in Hc2, Hk2, Hs2.
  pose proof (fill_field_effect t q2 p2 "text_es") as (Hc3 & Hk3 & Hs3).
  destruct (fill_field svc t (q2, p2) "text_es") as [q3 p3];
    simpl in Hc3, Hk3, Hs3. cbn [fst snd negb].
  assert (Hzh : is_missing_translation q1 "text_zh"
                = is_missing_translation quote "text_zh")
    by (apply is_missing_translation_ext, Hk1; done).
  assert (Hes : is_missing_translation q2 "text_es"
                = is_missing_translation quote "text_es").
  { apply is_missing_translation_ext. rewrite Hk2, Hk1; done. }
  rewrite Hzh in *. rewrite Hes in *.
  split.
  - rewrite Hc3, Hc2, Hc1, <- !app_assoc. f_equal.
    clear.
    destruct (is_missing_translation quote "text_ko"),
      (is_missing_translation quote "text_zh"),
      (is_missing_translation quote "text_es"); done.
  - intros key Hkey.
    assert (Hq3 : dict_get key q3 = dict_get key q2).
    { destruct (decide (key = "text_es")) as [->|?]; [|by apply Hk3].
      rewrite Hs3; [done|]. apply Hkey. simpl; tauto. }
    assert (Hq2 : dict_get key q2 = dict_get key q1).
    { destruct (decide (key = "text_zh")) as [->|?]; [|by apply Hk2].
      rewrite Hs2; [done|]. apply Hkey. simpl; tauto. }
    assert (Hq1 : dict_get key q1 = dict_get key quote).
    { destruct (decide (key = "text_ko")) as [->|?]; [|by apply Hk1].
      rewrite Hs1; [done|]. apply Hkey. simpl; tauto. }
    congruence.
Qed.

Lemma fill_quotes_effect (quotes : list dict) (p : progress) :
  let r := fill_quotes svc quotes p in
  calls r.2 = calls p ++ concat (map missing_calls quotes)
  /\ Forall2 keeps_populated quotes r.1.
Proof.
  revert p. induction quotes as [|q quotes IH]; intros p; simpl.
  { by rewrite app_nil_r. }
  pose proof (fill_quote_effect q p) as [Hc Hk].
  destruct (fill_quote svc q p) as [q' p1]; simpl in *.
  specialize (IH p1) as [IHc IHk].
  destruct (fill_quotes svc quotes p1) as [rest' p2]; simpl in *.
  split; [|by constructor].
  by rewrite IHc, Hc, app_assoc.
Qed.

(** C5 (as the code has it). The completion pass
    [fill_missing_translations_openai.process_quote_file] is
    field-incremental: on any quote file it issues exactly one call for each
    (quote, field) pair whose field is missing, [None] or blank, in file
    order, for the quotes that have a text, and no other call; the file it
    writes has as many quotes, and every key of a quote that is not one of
    its missing target-language fields keeps its value. *)
Theorem fill_missing_is_field_incremental (quotes : list dict)
    (issued : list call) :
  let r := process_quote_file svc quotes issued in
  calls r.1.2 = issued ++ concat (map missing_calls quotes)
  /\ Forall2 keeps_populated quotes r.1.1.
Proof.
  unfold process_quote_file. simpl.
  apply (fill_quotes_effect quotes).
Qed.

End FillMissingFacts.

(** A quote whose Korean text is there and whose Chinese text is blank:
    two calls, for the Chinese and the Spanish fields; the Korean text
    stays. *)
Example fill_missing_partial_quote :
  let q := [("text", Py.JStr "one"); ("text_ko", Py.JStr "hana");
            ("text_zh", Py.JStr " ")] in
  let r := FillMissing.process_quote_file Spec.echo_service [q] [] in
  FillMissing.calls r.1.2
  = [FillMissing.Call (Py.JStr "one") "text_zh";
     FillMissing.Call (Py.JStr "one") "text_es"]
  /\ r.1.1 = [[("text", Py.JStr "one"); ("text_ko", Py.JStr "hana");
               ("text_zh", Py.JStr "<text_zh>");
               ("text_es", Py.JStr "<text_es>")]].
Proof. vm_compute. done. Qed.

(** C5 as stated fails on the pipeline's own translation run: a unit that
    is extracted and not translated, whose quote already carries a Korean
    text, is translated again as a whole; the Korean request is issued and
    the Korean text replaced. *)
Lemma pipeline_retranslates_populated_field :
  let q := [("text", Py.JStr "one"); ("text_ko", Py.JStr "hana")] in
  let st := Spec.one_unit "a.txt" [q] in
  let st' := (Pipeline.process_batch_translate (Spec.answering "ko")
                ["a.txt"] st).1 in
  Spec.is_populated_field q "text_ko" = true
  /\ Checkpoint.is_extracted "a.txt" (Pipeline.checkpoint st) = true
  /\ Checkpoint.is_translated "a.txt" (Pipeline.checkpoint st) = false
  /\ Pipeline.requests st'
     = [Pipeline.ReqKorean (Py.JStr "one");
        Pipeline.ReqClaude (Py.JStr "one") "zh";
        Pipeline.ReqClaude (Py.JStr "one") "es"]
  /\ Pipeline.output st' !! "a_quotes.json"
     = Some [[("text", Py.JStr "one"); ("text_ko", Py.JStr "ko");
              ("text_zh", Py.JStr "zh"); ("text_es", Py.JStr "es")]].
Proof. vm_compute. done. Qed.

(** ** Resuming a run *)

Section ResumeFacts.
Import Py Checkpoint Pipeline Spec.

(** Reduces the state updates and projections and nothing else. *)
Ltac state_simpl :=
  cbn [with_checkpoint write_quotes issue logger_error checkpoint output
       requests error_log clock_reads fst snd] in *.

Lemma extends_refl (st : state) : extends st st.
Proof. by split. Qed.

Lemma extends_trans (a b c : state) : extends a b -> extends b c -> extends a c.
Proof.
  intros [] []. split; auto. lia.
Qed.

Lemma is_extracted_mark (f g : string) (n : Z) (c : float) (m : manager) :
  is_extracted g (mark_extracted f n c m) = true <->
  is_extracted g m = true \/ g = f.
Proof.
  unfold is_extracted, mark_extracted; simpl.
  destruct (py_in f (extracted_files (data m))) eqn:Hf; simpl.
  - split; [by left|]. intros [?| ->]; done.
  - rewrite !py_in_spec, elem_of_app, list_elem_of_singleton. tauto.
Qed.

Lemma is_translated_mark_iff (f g : string) (n : Z) (c : float) (m : manager) :
  is_translated g (mark_translated f n c m) = true <->
  is_translated g m = true \/ g = f.
Proof.
  unfold is_translated, mark_translated; simpl.
  destruct (py_in f (translated_files (data m))) eqn:Hf; simpl.
  - split; [by left|]. intros [?| ->]; done.
  - rewrite !py_in_spec, elem_of_app, list_elem_of_singleton. tauto.
Qed.

Lemma mark_extracted_keeps (f : string) (n : Z) (c : float) (m : manager) :
  translated_files (data (mark_extracted f n c m)) = translated_files (data m)
  /\ start_time (data (mark_extracted f n c m)) = start_time (data m)
  /\ checkpoint_file (mark_extracted f n c m)
     = Some (data (mark_extracted f n c m)).
Proof.
  unfold mark_extracted; simpl.
  by destruct (py_in f (extracted_files (data m))).
Qed.

Lemma mark_translated_keeps (f : string) (n : Z) (c : float) (m : manager) :
  extracted_files (data (mark_translated f n c m)) = extracted_files (data m)
  /\ start_time (data (mark_translated f n c m)) = start_time (data m)
  /\ checkpoint_file (mark_translated f n c m)
     = Some (data (mark_translated f n c m)).
Proof.
  unfold mark_translated; simpl.
  by destruct (py_in f (translated_files (data m))).
Qed.

Context (w : world).

Lemma extract_single_file_returns (f : string) (st st' : state) (n : Z) :
  extract_single_file w f st = (st', inr n) ->
  checkpoint st' = checkpoint st /\ error_log st' = error_log st
  /\ exists qs, output st' = <[output_filename f := qs]> (output st).
Proof.
  unfold extract_single_file.
  destruct (transcript_of w f) as [e0|transcript]; [done|].
  destruct (extract_service _ _ _ _) as [e|qs]; [done|].
  destruct (enrich_quotes_with_speaker_info _ _) as [e|qs']; [done|].
  intros [= <- _]. simpl. by eauto.
Qed.

(** A skipped unit after exhaustion: what [add_error] leaves. *)
Lemma extends_add_error (now msg : string) (st st' : state) :
  checkpoint st' = add_error now msg (checkpoint st) ->
  output st' = output st ->
  (length (error_log st) <= length (error_log st'))%nat ->
  extends st st'.
Proof.
  intros Hc Ho Hl. split; try done; unfold is_extracted, is_translated;
    rewrite ?Hc, ?Ho; simpl; try done.
Qed.

Lemma extract_unit_extends (f : string) (st : state) :
  extends st (extract_unit w f st).1.
Proof.
  unfold extract_unit.
  destruct (is_extracted f (checkpoint st)) eqn:Hf; [apply extends_refl|].
  pose proof (extract_loop_outcome w f st) as (_ & [Hl _] & H).
  destruct (extract_loop w f st) as [[st' done] k]; state_simpl.
  destruct done.
  - destruct H as (s & s1 & n & Hc & Ho & Hat & -> & _).
    apply extract_single_file_returns in Hat as (Hc1 & _ & qs & Ho1).
    state_simpl.
    destruct (mark_extracted_keeps f n COST_PER_FILE_EXTRACT_USD
                (checkpoint s1)) as (Ht & Hs & Hsv).
    split; state_simpl; try done.
    + intros g Hg. apply is_extracted_mark. left. congruence.
    + unfold is_translated. rewrite Ht, Hc1, Hc. done.
    + intros name Hn. rewrite Ho1, Ho.
      destruct (decide (name = output_filename f)) as [->|?].
      * rewrite lookup_insert_eq. by eexists.
      * by rewrite lookup_insert_ne.
    + rewrite Hs, Hc1, Hc. done.
    + intros Hw g Hg. rewrite Ho1, Ho.
      destruct (decide (output_filename g = output_filename f)) as [->|?].
      * rewrite lookup_insert_eq. by eexists.
      * rewrite lookup_insert_ne by done.
        apply is_extracted_mark in Hg as [Hg| ->]; [|done].
        apply Hw. congruence.
  - destruct H as (Ho & _ & _ & msg & Hc). by eapply extends_add_error.
Qed.

Lemma translate_unit_extends (f : string) (st : state) :
  extends st (translate_unit w f st).1.
Proof.
  unfold translate_unit.
  destruct (is_translated f (checkpoint st)) eqn:Hf; [apply extends_refl|].
  destruct (negb _); [apply extends_refl|].
  pose proof (translate_loop_outcome w f st) as (_ & [Hl _] & H).
  destruct (translate_loop w f st) as [[st' done] k]; state_simpl.
  destruct done.
  - destruct H as (s & s1 & n & Hc & Ho & Hat & -> & _).
    apply translate_single_file_returns in Hat
      as (s2 & qs & qs' & Hfile & _ & (Hc2 & Ho2 & _) & -> & _).
    state_simpl.
    destruct (mark_translated_keeps f n COST_PER_FILE_TRANSLATE_USD
                (checkpoint s2)) as (He & Hs & Hsv).
    assert (Hkeep : forall name, is_Some (output st !! name) ->
              is_Some (<[quotes_filename f := qs']> (output s2) !! name)).
    { intros name Hn. rewrite Ho2, Ho.
      destruct (decide (name = quotes_filename f)) as [->|?].
      - rewrite lookup_insert_eq. by eexists.
      - by rewrite lookup_insert_ne. }
    split; state_simpl; try done.
    + unfold is_extracted. rewrite He, Hc2, Hc. done.
    + intros g Hg. apply is_translated_mark_iff. left. congruence.
    + rewrite Hs, Hc2, Hc. done.
    + intros Hw g Hg. apply Hkeep, Hw.
      unfold is_extracted in *. by rewrite He, Hc2, Hc in Hg.
  - destruct H as (Ho & _ & _ & msg & Hc). by eapply extends_add_error.
Qed.

Lemma process_batch_extends (unit : string -> state -> state * bool)
    (batch : list string) (st : state) :
  (forall f s, extends s (unit f s).1) ->
  extends st (process_batch unit batch st).1.
Proof.
  intros Hu. revert st. induction batch as [|f batch IH]; intros st.
  - apply extends_refl.
  - rewrite process_batch_cons. eapply extends_trans; [apply Hu|apply IH].
Qed.

(** No failure was logged during the unit, so the unit is listed. *)
Lemma extract_unit_quiet (f : string) (st : state) :
  error_log (extract_unit w f st).1 = [] ->
  is_extracted f (checkpoint (extract_unit w f st).1) = true.
Proof.
  unfold extract_unit.
  destruct (is_extracted f (checkpoint st)) eqn:Hf; [done|].
  pose proof (extract_loop_outcome w f st) as (_ & _ & H).
  destruct (extract_loop w f st) as [[st' done] k]; simpl in *.
  destruct done.
  - destruct H as (s & s1 & n & _ & _ & _ & -> & _). intros _. simpl.
    apply is_extracted_mark. by right.
  - destruct H as (_ & Hlen & _). intros Hq. rewrite Hq in Hlen.
    simpl in Hlen. unfold MAX_RETRIES in Hlen. lia.
Qed.

Lemma translate_unit_quiet (f : string) (st : state) :
  error_log (translate_unit w f st).1 = [] ->
  is_Some (output st !! quotes_filename f) ->
  is_translated f (checkpoint (translate_unit w f st).1) = true.
Proof.
  unfold translate_unit. intros Hq Hfile.
  destruct (is_translated f (checkpoint st)) eqn:Hf; [done|].
  rewrite bool_decide_eq_true_2 in * by done.
  cbv beta iota delta [negb] in *.
  pose proof (translate_loop_outcome w f st) as (_ & _ & H).
  destruct (translate_loop w f st) as [[st' done] k]; simpl in *.
  destruct done.
  - destruct H as (s & s1 & n & _ & _ & _ & -> & _). simpl.
    apply is_translated_mark_iff. by right.
  - destruct H as (_ & Hlen & _). rewrite Hq in Hlen.
    simpl in Hlen. unfold MAX_RETRIES in Hlen. lia.
Qed.

Lemma quiet_before (st st' : state) :
  extends st st' -> error_log st' = [] -> error_log st = [].
Proof.
  intros [Hl _ _ _ _ _ _] Hq. rewrite Hq in Hl. simpl in Hl.
  by destruct (error_log st); [|simpl in Hl; lia].
Qed.

Lemma process_batch_extract_quiet (batch : list string) (st : state) :
  let st' := (process_batch_extract w batch st).1 in
  error_log st' = [] ->
  forall f, f ∈ batch -> is_extracted f (checkpoint st') = true.
Proof.
  unfold process_batch_extract. revert st.
  induction batch as [|g batch IH]; intros st; [by intros _ ? ?%elem_of_nil|].
  rewrite process_batch_cons. intros Hq f Hf.
  set (st1 := (extract_unit w g st).1) in *.
  pose proof (process_batch_extends (extract_unit w) batch st1
                (extract_unit_extends)) as Hext.
  apply elem_of_cons in Hf as [->|Hf]; [|by apply IH].
  apply (ext_extracted _ _ Hext), extract_unit_quiet.
  by eapply quiet_before.
Qed.

Lemma process_batch_translate_quiet (batch : list string) (st : state) :
  let st' := (process_batch_translate w batch st).1 in
  error_log st' = [] ->
  forall f, f ∈ batch -> is_Some (output st !! quotes_filename f) ->
            is_translated f (checkpoint st') = true.
Proof.
  unfold process_batch_translate. revert st.
  induction batch as [|g batch IH]; intros st;
    [by intros _ ? ?%elem_of_nil|].
  rewrite process_batch_cons. intros Hq f Hf Hfile.
  set (st1 := (translate_unit w g st).1) in *.
  pose proof (process_batch_extends (translate_unit w) batch st1
                (translate_unit_extends)) as Hext.
  pose proof (translate_unit_extends g st) as Hext1. fold st1 in Hext1.
  apply elem_of_cons in Hf as [->|Hf].
  - apply (ext_translated _ _ Hext), translate_unit_quiet; [|done].
    by eapply quiet_before.
  - apply IH; [done..|]. by apply (ext_files _ _ Hext1).
Qed.

End ResumeFacts.

Section RunFacts.
Import Py Checkpoint Pipeline Spec.
Context (w : world).

Lemma run_batch_extends (files : list string) (st : state) (k : nat) :
  extends st (run_batch w files st k).
Proof.
  unfold run_batch, process_batch_extract, process_batch_translate.
  eapply extends_trans; apply process_batch_extends.
  - apply extract_unit_extends.
  - apply translate_unit_extends.
Qed.

(** A batch during which no failure is logged leaves its units extracted
    and translated, provided both stages agree on the name of each unit's
    quote file. *)
Lemma run_batch_quiet (files : list string) (st : state) (k : nat) :
  let st' := run_batch w files st k in
  written st ->
  error_log st' = [] ->
  (forall f, f ∈ batch_of files k -> output_filename f = quotes_filename f) ->
  forall f, f ∈ batch_of files k ->
    is_extracted f (checkpoint st') = true
    /\ is_translated f (checkpoint st') = true.
Proof.
  unfold run_batch. intros Hw Hq Hnames f Hf.
  set (batch := batch_of files k) in *.
  set (st1 := (process_batch_extract w batch st).1) in *.
  pose proof (process_batch_extends (extract_unit w) batch st
                (extract_unit_extends w)) as He.
  pose proof (process_batch_extends (translate_unit w) batch st1
                (translate_unit_extends w)) as Ht.
  fold (process_batch_extract w batch st) in He. fold st1 in He.
  fold (process_batch_translate w batch st1) in Ht.
  assert (Hq1 : error_log st1 = []) by (by eapply quiet_before).
  assert (Hx : is_extracted f (checkpoint st1) = true)
    by (by apply process_batch_extract_quiet).
  split; [by apply (ext_extracted _ _ Ht)|].
  apply process_batch_translate_quiet; [done..|].
  rewrite <- Hnames by done. exact (ext_written _ _ He Hw f Hx).
Qed.

Lemma run_batches_quiet (files : list string) (ks : list nat) (st : state) :
  let st' := foldl (run_batch w files) st ks in
  written st ->
  error_log st' = [] ->
  (forall f, f ∈ files -> output_filename f = quotes_filename f) ->
  extends st st'
  /\ forall k f, k ∈ ks -> f ∈ batch_of files k ->
       is_extracted f (checkpoint st') = true
       /\ is_translated f (checkpoint st') = true.
Proof.
  revert st. induction ks as [|k ks IH]; intros st; simpl.
  { intros _ _ _. split; [apply extends_refl|]. by intros ? ? ?%elem_of_nil. }
  intros Hw Hq Hnames.
  pose proof (run_batch_extends files st k) as Hk.
  destruct (IH (run_batch w files st k)) as [Hext Hall]; try done.
  { exact (ext_written _ _ Hk Hw). }
  split; [by eapply extends_trans|].
  intros k' f [->|Hk']%elem_of_cons Hf; [|by eapply Hall].
  assert (Hin : forall g, g ∈ batch_of files k -> g ∈ files).
  { intros g Hg. unfold batch_of in Hg.
    by eapply subseteq_drop, subseteq_take. }
  destruct (run_batch_quiet files st k Hw) with (f := f) as [? ?];
    try done.
  - by eapply quiet_before.
  - intros g Hg. by apply Hnames, Hin.
  - split; [by apply (ext_extracted _ _ Hext)|by apply (ext_translated _ _ Hext)].
Qed.

(** Every file of the corpus is in one of the batches. *)
Lemma batch_of_covers (files : list string) (f : string) :
  f ∈ files ->
  exists k,
    k ∈ seq 1 ((length files + BATCH_SIZE - 1) / BATCH_SIZE)
    /\ f ∈ batch_of files k.
Proof.
  intros [i Hi]%list_elem_of_lookup_1.
  assert (Hlt : (i < length files)%nat) by (by eapply lookup_lt_Some).
  unfold batch_of; unfold BATCH_SIZE in *.
  pose proof (Nat.div_mod_eq i 50) as Hdm.
  pose proof (Nat.mod_upper_bound i 50 ltac:(lia)) as Hmod.
  exists (S (i / 50)). split.
  - apply elem_of_seq. split; [lia|].
    assert (i / 50 + 1 <= (length files + 50 - 1) / 50)%nat; [|lia].
    replace (i / 50 + 1)%nat with ((i + 1 * 50) / 50)%nat
      by (rewrite Nat.div_add; lia).
    apply Nat.Div0.div_le_mono. lia.
  - apply list_elem_of_lookup. exists (i - 50 * (i / 50))%nat.
    replace (S (i / 50) - 1)%nat with (i / 50)%nat by lia.
    rewrite lookup_take_lt by lia.
    rewrite lookup_drop. rewrite <- Hi. f_equal. lia.
Qed.

End RunFacts.

Section SkipFacts.
Import Py Checkpoint Pipeline Spec.
Context (w : world).

Lemma process_batch_extract_skips (batch : list string) (st : state) :
  (forall f, f ∈ batch -> is_extracted f (checkpoint st) = true) ->
  (process_batch_extract w batch st).1 = st.
Proof.
  unfold process_batch_extract. induction batch as [|f batch IH]; [done|].
  intros H. rewrite process_batch_cons. unfold extract_unit at 2.
  rewrite H by set_solver. simpl. apply IH. intros; apply H; set_solver.
Qed.

Lemma process_batch_translate_skips (batch : list string) (st : state) :
  (forall f, f ∈ batch -> is_translated f (checkpoint st) = true) ->
  (process_batch_translate w batch st).1 = st.
Proof.
  unfold process_batch_translate. induction batch as [|f batch IH]; [done|].
  intros H. rewrite process_batch_cons. unfold translate_unit at 2.
  rewrite H by set_solver. simpl. apply IH. intros; apply H; set_solver.
Qed.

(** A run over a corpus whose units are all listed as extracted and
    translated, on a saved checkpoint with a start time, changes nothing:
    every unit is skipped before any request. *)
Lemma run_skips (files : list string) (st : state) :
  checkpoint_file (checkpoint st) = Some (data (checkpoint st)) ->
  is_Some (start_time (data (checkpoint st))) ->
  (forall f, f ∈ files ->
     is_extracted f (checkpoint st) = true
     /\ is_translated f (checkpoint st) = true) ->
  run w files st = st.
Proof.
  intros Hsaved [t Hstart] Hall. unfold run.
  assert (H0 : with_checkpoint (fun m => init (checkpoint_file m)) st = st).
  { destruct st as [[d file] o r e c]; simpl in *. by subst file. }
  rewrite H0. destruct files as [|f0 files']; [done|].
  set (files := f0 :: files') in *.
  unfold checkpoint_set_start_time. rewrite Hstart.
  generalize (seq 1 ((length files + BATCH_SIZE - 1) / BATCH_SIZE)).
  intros ks. induction ks as [|k ks IH]; [done|]. simpl.
  assert (Hk : run_batch w files st k = st); [|by rewrite Hk].
  assert (Hin : forall g, g ∈ batch_of files k -> g ∈ files).
  { intros g Hg. unfold batch_of in Hg.
    by eapply subseteq_drop, subseteq_take. }
  unfold run_batch.
  rewrite process_batch_extract_skips by (intros; by apply Hall, Hin).
  apply process_batch_translate_skips. intros; by apply Hall, Hin.
Qed.

End SkipFacts.

(** X1. Idempotent resume, where both stages agree on the names of the quote
    files: after a first run from scratch during which no failure was
    logged, every unit is extracted and translated, and a second run, with
    whatever services, leaves the whole state as it is: checkpoint, quote
    files, requests issued, error log. *)
Theorem resume_is_idempotent (w w' : Pipeline.world) (files : list string) :
  let st1 := Pipeline.run w files Pipeline.initial_state in
  (forall f, f ∈ files ->
     Pipeline.output_filename f = Pipeline.quotes_filename f) ->
  Pipeline.error_log st1 = [] ->
  (forall f, f ∈ files ->
     Checkpoint.is_extracted f (Pipeline.checkpoint st1) = true
     /\ Checkpoint.is_translated f (Pipeline.checkpoint st1) = true)
  /\ Pipeline.run w' files st1 = st1.
Proof.
  intros st1 Hnames Hq.
  destruct files as [|f0 files'].
  { split; [by intros ? ?%elem_of_nil|done]. }
  set (files := f0 :: files') in *.
  set (st0 := Pipeline.checkpoint_set_start_time w
                (Pipeline.with_checkpoint
                   (fun m => Checkpoint.init (Checkpoint.checkpoint_file m))
                   Pipeline.initial_state)).
  assert (Hrun : st1 = foldl (Pipeline.run_batch w files) st0
            (seq 1 ((length files + Pipeline.BATCH_SIZE - 1)
                      / Pipeline.BATCH_SIZE))) by done.
  destruct (run_batches_quiet w files
              (seq 1 ((length files + Pipeline.BATCH_SIZE - 1)
                        / Pipeline.BATCH_SIZE)) st0) as [Hext Hall].
  { intros f Hf. done. }
  { by rewrite <- Hrun. }
  { done. }
  rewrite <- Hrun in *.
  assert (Hdone : forall f, f ∈ files ->
     Checkpoint.is_extracted f (Pipeline.checkpoint st1) = true
     /\ Checkpoint.is_translated f (Pipeline.checkpoint st1) = true).
  { intros f Hf. destruct (batch_of_covers files f Hf) as (k & Hk & Hfk).
    by eapply Hall. }
  split; [done|].
  apply run_skips; [| |done].
  - by apply (Spec.ext_saved _ _ Hext).
  - apply (Spec.ext_start _ _ Hext). by eexists.
Qed.

(** A corpus of two ordinary names, from scratch, with services that
    answer. *)
Lemma resume_is_idempotent_witness :
  let files := ["a.txt"; "b.txt"] in
  let st1 := Pipeline.run (Spec.answering "ko") files Pipeline.initial_state in
  (forall f, f ∈ files ->
     Checkpoint.is_extracted f (Pipeline.checkpoint st1) = true
     /\ Checkpoint.is_translated f (Pipeline.checkpoint st1) = true)
  /\ Pipeline.run Spec.failing files st1 = st1.
Proof.
  intros files st1.
  apply (resume_is_idempotent (Spec.answering "ko") Spec.failing files).
  - intros f Hf. repeat (apply elem_of_cons in Hf as [->|Hf]; [reflexivity|]).
    by apply elem_of_nil in Hf.
  - vm_compute. reflexivity.
Defined.

(** C1 on the colliding corpus.  The first run logs no failure and ends
    with the first file extracted but not translated, its translation having
    been skipped for want of the quote file; the second run translates it
    from the quote file of the last unit: three requests are issued, the
    file name joins [translated_files] and the counters move. *)
Theorem resume_translates_on_colliding_names :
  let w := Spec.answering "ko" in
  let st1 := Pipeline.run w Spec.colliding_corpus Pipeline.initial_state in
  let st2 := Pipeline.run w Spec.colliding_corpus st1 in
  let d1 := Checkpoint.data (Pipeline.checkpoint st1) in
  let d2 := Checkpoint.data (Pipeline.checkpoint st2) in
  Spec.ascending Spec.colliding_corpus = true
  /\ Pipeline.output_filename "a.txt.txt" = "a.txt_quotes.json"
  /\ Pipeline.quotes_filename "a.txt.txt" = "a_quotes.json_quotes.json"
  /\ Pipeline.output_filename "a_quotes.json.txt" = "a_quotes.json_quotes.json"
  /\ Pipeline.error_log st1 = [] /\ Checkpoint.errors d1 = []
  /\ length (Checkpoint.extracted_files d1) = 51%nat
  /\ Checkpoint.is_translated "a.txt.txt" (Pipeline.checkpoint st1) = false
  /\ Checkpoint.is_translated "a.txt.txt" (Pipeline.checkpoint st2) = true
  /\ length (Pipeline.requests st2) = (length (Pipeline.requests st1) + 3)%nat
  /\ Checkpoint.total_quotes_translated d1 = 50
  /\ Checkpoint.total_quotes_translated d2 = 51
  /\ st2 <> st1.
Proof.
  intros w st1 st2 d1 d2.
  assert (H1 : Spec.ascending Spec.colliding_corpus = true)
    by (vm_compute; reflexivity).
  assert (H : (Pipeline.error_log st1, Checkpoint.errors d1,
               length (Checkpoint.extracted_files d1),
               Checkpoint.is_translated "a.txt.txt" (Pipeline.checkpoint st1),
               Checkpoint.is_translated "a.txt.txt" (Pipeline.checkpoint st2),
               length (Pipeline.requests st1), length (Pipeline.requests st2),
               Checkpoint.total_quotes_translated d1,
               Checkpoint.total_quotes_translated d2)
              = ([], [], 51%nat, false, true, 201%nat, 204%nat, 50, 51))
    by (vm_compute; reflexivity).
  assert (N1 : Pipeline.output_filename "a.txt.txt" = "a.txt_quotes.json")
    by (vm_compute; reflexivity).
  assert (N2 : Pipeline.quotes_filename "a.txt.txt"
               = "a_quotes.json_quotes.json") by (vm_compute; reflexivity).
  assert (N3 : Pipeline.output_filename "a_quotes.json.txt"
               = "a_quotes.json_quotes.json") by (vm_compute; reflexivity).
  clearbody st1 st2 w.
  injection H as H2 H3 H4 H5 H6 H7 H8 H9 H10.
  split; [exact H1|]. split; [exact N1|]. split; [exact N2|].
  split; [exact N3|]. split; [exact H2|]. split; [exact H3|].
  split; [exact H4|]. split; [exact H5|]. split; [exact H6|].
  split; [rewrite H8, H7; reflexivity|].
  split; [exact H9|]. split; [exact H10|].
  intros Heq. subst st2. unfold d1, d2 in *. rewrite H9 in H10.
  discriminate H10.
Qed.

(** ** The timestamp pattern *)

Section PatternFacts.
Import Py FixTimestamps AlignSpec.

Lemma digit_not_open (c : ascii) : is_digit c = true -> not_open c.
Proof.
  unfold not_open. destruct (Ascii.eqb_spec c "(") as [->|]; [|done].
  by vm_compute.
Qed.

Lemma colon_not_open (c : ascii) : Ascii.eqb c ":" = true -> not_open c.
Proof. intros ->%Ascii.eqb_eq. done. Qed.

Lemma match_tail_shape (t tl : text) :
  match_tail t = Some tl ->
  exists rest, t = tl ++ ")"%char :: rest /\ length tl = 6%nat
               /\ Forall not_open tl.
Proof.
  unfold match_tail.
  destruct t as [|c1 [|m1 [|m2 [|c2 [|s1 [|s2 [|p rest]]]]]]]; try done.
  destruct (Ascii.eqb c1 ":") eqn:H1; [|done].
  destruct (is_digit m1) eqn:H2; [|done].
  destruct (is_digit m2) eqn:H3; [|done].
  destruct (Ascii.eqb c2 ":") eqn:H4; [|done].
  destruct (is_digit s1) eqn:H5; [|done].
  destruct (is_digit s2) eqn:H6; [|done].
  destruct (Ascii.eqb_spec p ")") as [->|]; [|done].
  simpl. intros [= <-]. exists rest. split; [done|]. split; [done|].
  repeat constructor; auto using digit_not_open, colon_not_open.
Qed.

Lemma match_marker_shape (t ts : text) :
  match_marker t = Some ts ->
  exists rest, t = "("%char :: ts ++ ")"%char :: rest
               /\ (7 <= length ts <= 8)%nat /\ Forall not_open ts.
Proof.
  unfold match_marker. destruct t as [|p [|d1 r1]]; try done.
  destruct (Ascii.eqb_spec p "(") as [->|]; [|done].
  destruct (is_digit d1) eqn:Hd1; [|done]. simpl.
  assert (Hone : option_map (cons d1) (match_tail r1) = Some ts ->
            exists rest, "("%char :: d1 :: r1 = "("%char :: ts ++ ")"%char :: rest
               /\ (7 <= length ts <= 8)%nat /\ Forall not_open ts).
  { destruct (match_tail r1) as [tl|] eqn:Ht; [|done]. intros [= <-].
    apply match_tail_shape in Ht as (rest & -> & Hl & Hf).
    exists rest. split; [done|]. simpl. split; [lia|].
    constructor; auto using digit_not_open. }
  destruct r1 as [|d2 r2]; [done|].
  destruct (is_digit d2) eqn:Hd2; [|done].
  destruct (match_tail r2) as [tl|] eqn:Ht; [|done]. intros [= <-].
  apply match_tail_shape in Ht as (rest & -> & Hl & Hf).
  exists rest. split; [done|]. simpl. split; [lia|].
  repeat constructor; auto using digit_not_open.
Qed.

Lemma match_marker_not_open (c : ascii) (r : text) :
  not_open c -> match_marker (c :: r) = None.
Proof.
  unfold not_open, match_marker. intros ->. by destruct r.
Qed.

Lemma match_marker_nil : match_marker [] = None.
Proof. done. Qed.

(** No marker starts inside another one. *)
Lemma match_marker_inside (t ts : text) (j : nat) :
  match_marker t = Some ts -> (1 <= j <= length ts + 1)%nat ->
  match_marker (drop j t) = None.
Proof.
  intros Hm Hj. apply match_marker_shape in Hm as (rest & -> & _ & Hf).
  destruct j as [|j]; [lia|]. simpl.
  destruct (decide (j < length ts)%nat) as [Hlt|Hge].
  - rewrite drop_app_le by lia.
    destruct (drop j ts) as [|c r] eqn:Hd.
    { apply (f_equal length) in Hd. rewrite length_drop in Hd.
      simpl in Hd. lia. }
    simpl. apply match_marker_not_open.
    assert (Hc : c ∈ ts).
    { eapply (subseteq_drop j). rewrite Hd. by left. }
    by eapply Forall_forall in Hf.
  - assert (j = length ts) as -> by lia.
    rewrite drop_app_length. by apply match_marker_not_open.
Qed.

(** The scan that jumps over a match finds what the scan of every position
    finds. *)
Lemma finditer_all (t : text) (skip pos : nat) :
  (forall j, (j < skip)%nat -> match_marker (drop j t) = None) ->
  finditer skip pos t = all_markers pos t.
Proof.
  revert skip pos. induction t as [|c r IH]; intros skip pos Hskip; [done|].
  cbn [finditer all_markers]. destruct skip as [|k].
  - destruct (match_marker (c :: r)) as [ts|] eqn:Hm.
    + f_equal. apply IH. intros j Hj.
      apply (match_marker_inside _ _ (S j) Hm). lia.
    + apply IH. intros; lia.
  - pose proof (Hskip 0%nat ltac:(lia)) as H0. cbn [drop] in H0. rewrite H0.
    apply IH. intros j Hj. apply (Hskip (S j)). lia.
Qed.

Lemma all_markers_spec (t : text) (pos p : nat) (ts : text) :
  (p, ts) ∈ all_markers pos t <->
  exists i, p = (pos + i)%nat /\ marker_at t i ts.
Proof.
  unfold marker_at. revert pos. induction t as [|c r IH]; intros pos.
  - cbn [all_markers]. split; [by intros ?%elem_of_nil|].
    intros (i & _ & H). by rewrite drop_nil in H.
  - cbn [all_markers].
    assert (Hrest : (p, ts) ∈ all_markers (S pos) r \/
                    (p = pos /\ match_marker (c :: r) = Some ts) <->
              exists i, p = (pos + i)%nat
                        /\ match_marker (drop i (c :: r)) = Some ts).
    { rewrite IH. split.
      - intros [(i & -> & H)|[-> H]].
        + exists (S i). split; [lia|done].
        + exists 0%nat. split; [lia|done].
      - intros ([|i] & -> & H).
        + right. split; [lia|done].
        + left. exists i. split; [lia|done]. }
    rewrite <- Hrest.
    destruct (match_marker (c :: r)) as [ts0|] eqn:Hm.
    + rewrite elem_of_cons. split.
      * intros [[= -> ->]|?]; [by right|by left].
      * intros [?|[-> [= ->]]]; [by right|by left].
    + split; [by left|]. by intros [?|[_ ?]].
Qed.

Lemma all_markers_lower (t : text) (pos p : nat) (ts : text) :
  (p, ts) ∈ all_markers pos t -> (pos <= p)%nat.
Proof. intros (i & -> & _)%all_markers_spec. lia. Qed.

(** The scan lists the markers by increasing position. *)
Lemma all_markers_sorted (t : text) (pos : nat) :
  StronglySorted (fun a b => (a.1 < b.1)%nat) (all_markers pos t).
Proof.
  revert pos. induction t as [|c r IH]; intros pos; cbn [all_markers];
    [constructor|].
  destruct (match_marker (c :: r)); [|apply IH].
  constructor; [apply IH|].
  apply Forall_forall. intros [p ts] Hp%all_markers_lower. simpl. lia.
Qed.

End PatternFacts.

(** ** The window search *)

Section WindowFacts.
Import Py FixTimestamps AlignSpec.

Lemma sorted_before (acc l : list (nat * text)) (x : nat * text) :
  StronglySorted by_pos (acc ++ x :: l) ->
  Forall (fun y => (y.1 < x.1)%nat) acc.
Proof.
  induction acc as [|a acc IH]; simpl; [constructor|].
  intros H. apply StronglySorted_inv in H as [Hs Hf].
  constructor; [|by apply IH].
  rewrite Forall_app, Forall_cons in Hf. tauto.
Qed.

Lemma insert_by_pos_last (x : nat * text) (l : list (nat * text)) :
  Forall (fun y => (y.1 < x.1)%nat) l -> insert_by_pos x l = l ++ [x].
Proof.
  induction l as [|y l IH]; [done|]. intros [Hy Hl]%Forall_cons. simpl.
  destruct (Nat.ltb_spec x.1 y.1); [lia|]. by rewrite IH.
Qed.

(** Sorting positions that are already increasing changes nothing. *)
Lemma sort_by_pos_sorted (l : list (nat * text)) :
  StronglySorted by_pos l -> sort_by_pos l = l.
Proof.
  unfold sort_by_pos.
  assert (H : forall acc, StronglySorted by_pos (acc ++ l) ->
            foldl (fun acc x => insert_by_pos x acc) acc l = acc ++ l).
  { induction l as [|x l IH]; intros acc Hs; simpl; [by rewrite app_nil_r|].
    rewrite insert_by_pos_last by (by eapply sorted_before).
    rewrite IH; rewrite <- app_assoc; done. }
  intros Hs. by apply (H []).
Qed.

Lemma last_sorted_max (l : list (nat * text)) (x y : nat * text) :
  StronglySorted by_pos l -> last l = Some x -> y ∈ l -> (y.1 <= x.1)%nat.
Proof.
  intros Hs [l' ->]%last_Some Hy.
  apply elem_of_app in Hy as [Hy|Hy%list_elem_of_singleton]; [|subst; lia].
  apply sorted_before in Hs. eapply Forall_forall in Hs; [|done]. lia.
Qed.

Lemma slice_prefix (t : text) (a q : nat) :
  slice t a q = drop a (take q t).
Proof.
  unfold slice. destruct (decide (a <= q)%nat).
  - rewrite take_drop_commute. f_equal. f_equal. lia.
  - replace (q - a)%nat with 0%nat by lia. simpl.
    symmetry. apply drop_ge. rewrite length_take. lia.
Qed.

(** What [search_in_window] computes: the last marker the plain scan finds
    in the slice. *)
Lemma search_in_window_scan (t : text) (q w : nat) :
  search_in_window t q w
  = option_map snd (last (all_markers 0 (drop (q - w) (take q t)))).
Proof.
  unfold search_in_window. rewrite slice_prefix.
  rewrite finditer_all by (intros; lia).
  rewrite sort_by_pos_sorted by apply all_markers_sorted.
  by destruct (last _) as [[p ts]|].
Qed.

Lemma marker_in_slice (t : text) (q w p : nat) (ts : text) :
  (p, ts) ∈ all_markers 0 (drop (q - w) (take q t)) <->
  marker_in_window t q w (q - w + p) ts.
Proof.
  rewrite all_markers_spec. unfold marker_in_window, marker_at.
  setoid_rewrite drop_drop. split.
  - intros (i & -> & H). split; [lia|done].
  - intros [_ H]. by exists p.
Qed.

(** A window search returns the marker with the largest offset in its
    window, and nothing exactly when the window holds no marker. *)
Lemma search_in_window_spec (t : text) (q w : nat) :
  match search_in_window t q w with
  | Some ts => exists i, last_in_window t q w i ts
  | None => forall i ts, ~ marker_in_window t q w i ts
  end.
Proof.
  rewrite search_in_window_scan.
  destruct (last _) as [[p ts]|] eqn:Hlast; simpl.
  - exists (q - w + p)%nat. split.
    + apply marker_in_slice. by eapply last_Some_elem_of.
    + intros j ts' Hj. pose proof Hj as [Hge _].
      replace j with (q - w + (j - (q - w)))%nat in Hj by lia.
      apply marker_in_slice in Hj.
      pose proof (last_sorted_max _ _ _ (all_markers_sorted _ _) Hlast Hj).
      simpl in *. lia.
  - apply last_None in Hlast. intros i ts Hi. pose proof Hi as [Hge _].
    replace i with (q - w + (i - (q - w)))%nat in Hi by lia.
    apply marker_in_slice in Hi. rewrite Hlast in Hi.
    by apply elem_of_nil in Hi.
Qed.

Lemma marker_at_inj (t : text) (i : nat) (ts ts' : text) :
  marker_at t i ts -> marker_at t i ts' -> ts = ts'.
Proof. unfold marker_at. congruence. Qed.

(** A marker of the prefix ends before the offset. *)
Lemma marker_at_prefix_ends (t : text) (q i : nat) (ts : text) :
  marker_at (take q t) i ts -> (i + length ts + 2 <= q)%nat.
Proof.
  intros (rest & H & _)%match_marker_shape.
  apply (f_equal length) in H.
  rewrite length_drop, length_take in H. simpl in H.
  rewrite length_app in H. simpl in H. lia.
Qed.

Lemma found_search (t : text) (q w : nat) :
  found (search_in_window t q w) = bool_decide (is_Some (search_in_window t q w)).
Proof.
  pose proof (search_in_window_spec t q w) as H.
  destruct (search_in_window t q w) as [ts|]; [|done].
  destruct H as (i & [[_ H] _]).
  apply match_marker_shape in H as (_ & _ & Hl & _).
  destruct ts; [simpl in Hl; lia|done].
Qed.

(** The cascade of the code is the cascade of the windows. *)
Lemma find_timestamp_cascade (t : text) (q : nat) :
  find_timestamp_before_position t q
  = option_map normalize_timestamp (first_window t q).
Proof.
  unfold find_timestamp_before_position, first_window.
  rewrite !found_search.
  destruct (search_in_window t q 200); [done|].
  destruct (search_in_window t q 500); [done|].
  destruct (search_in_window t q 1000); [done|].
  by destruct (search_in_window t q q).
Qed.

(** Whatever window decides, the marker returned is the last one that lies
    before the offset. *)
Lemma first_window_spec (t : text) (q : nat) :
  match first_window t q with
  | Some ts =>
      exists i, marker_at (take q t) i ts
                /\ forall j ts', marker_at (take q t) j ts' -> (j <= i)%nat
  | None => forall i ts, ~ marker_at (take q t) i ts
  end.
Proof.
  assert (Hlast : forall w i ts, last_in_window t q w i ts ->
            marker_at (take q t) i ts
            /\ forall j ts', marker_at (take q t) j ts' -> (j <= i)%nat).
  { intros w i ts [[Hge Hm] Hmax]. split; [done|]. intros j ts' Hj.
    destruct (decide (q - w <= j)%nat) as [Hin|Hout]; [|lia].
    by apply (Hmax j ts'). }
  unfold first_window.
  pose proof (search_in_window_spec t q 200) as H200.
  pose proof (search_in_window_spec t q 500) as H500.
  pose proof (search_in_window_spec t q 1000) as H1000.
  pose proof (search_in_window_spec t q q) as Hall.
  destruct (search_in_window t q 200) as [ts|];
    [destruct H200 as [i Hi]; exists i; by eapply Hlast|].
  destruct (search_in_window t q 500) as [ts|];
    [destruct H500 as [i Hi]; exists i; by eapply Hlast|].
  destruct (search_in_window t q 1000) as [ts|];
    [destruct H1000 as [i Hi]; exists i; by eapply Hlast|].
  destruct (search_in_window t q q) as [ts|];
    [destruct Hall as [i Hi]; exists i; by eapply Hlast|].
  intros i ts Hm. apply (Hall i ts). split; [lia|done].
Qed.

Lemma search_in_window_prefix (t : text) (q w : nat) :
  search_in_window (take q t) q w = search_in_window t q w.
Proof. by rewrite !search_in_window_scan, take_idemp. Qed.

End WindowFacts.

(** C7. The timestamp search reads the transcript before the quote only;
    each window search returns the marker with the largest offset among the
    markers lying inside its window [q - w, q), and nothing exactly when
    there is none; the windows of 200, 500 and 1000 characters and then the
    whole prefix are tried in this order and the first that holds a marker
    decides; the marker returned ends before [q] and no marker of the prefix
    starts after it; and when the nearest marker before the quote starts 300
    characters before it, the 200 window finds nothing and the 500 window
    returns that marker. *)
Theorem timestamp_search_windows (t : Py.text) (q : nat) :
  FixTimestamps.find_timestamp_before_position (take q t) q
  = FixTimestamps.find_timestamp_before_position t q
  /\ (forall w,
        match FixTimestamps.search_in_window t q w with
        | Some ts => exists i, AlignSpec.last_in_window t q w i ts
        | None => forall i ts, ~ AlignSpec.marker_in_window t q w i ts
        end)
  /\ FixTimestamps.find_timestamp_before_position t q
     = option_map FixTimestamps.normalize_timestamp (AlignSpec.first_window t q)
  /\ match FixTimestamps.find_timestamp_before_position t q with
     | Some r =>
         exists i ts,
           r = FixTimestamps.normalize_timestamp ts
           /\ AlignSpec.marker_at (take q t) i ts
           /\ (i + length ts + 2 <= q)%nat
           /\ forall j ts', AlignSpec.marker_at (take q t) j ts' -> (j <= i)%nat
     | None => forall i ts, ~ AlignSpec.marker_at (take q t) i ts
     end
  /\ (forall ts,
        (300 <= q)%nat ->
        AlignSpec.marker_at (take q t) (q - 300) ts ->
        (forall j ts', AlignSpec.marker_at (take q t) j ts' ->
                       (j <= q - 300)%nat) ->
        FixTimestamps.search_in_window t q 200 = None
        /\ FixTimestamps.search_in_window t q 500 = Some ts
        /\ FixTimestamps.find_timestamp_before_position t q
           = Some (FixTimestamps.normalize_timestamp ts)).
Proof.
  split.
  { unfold FixTimestamps.find_timestamp_before_position.
    by rewrite !search_in_window_prefix. }
  split; [intros w; apply search_in_window_spec|].
  split; [apply find_timestamp_cascade|].
  split.
  - rewrite find_timestamp_cascade.
    pose proof (first_window_spec t q) as H.
    destruct (AlignSpec.first_window t q) as [ts|]; simpl; [|done].
    destruct H as (i & Hm & Hmax). exists i, ts.
    split; [done|]. split; [done|].
    split; [by apply (marker_at_prefix_ends t)|done].
  - intros ts Hq Hm Hmax.
    assert (H200 : FixTimestamps.search_in_window t q 200 = None).
    { pose proof (search_in_window_spec t q 200) as H.
      destruct (FixTimestamps.search_in_window t q 200) as [ts'|]; [|done].
      destruct H as (i & [Hge Hi] & _). apply Hmax in Hi. lia. }
    assert (H500 : FixTimestamps.search_in_window t q 500 = Some ts).
    { pose proof (search_in_window_spec t q 500) as H.
      destruct (FixTimestamps.search_in_window t q 500) as [ts'|].
      - destruct H as (i & [Hge Hi] & Hlast).
        assert (q - 300 <= i)%nat.
        { apply (Hlast _ ts). split; [lia|done]. }
        pose proof (Hmax _ _ Hi).
        assert (i = q - 300)%nat as -> by lia.
        f_equal. by eapply marker_at_inj.
      - exfalso. apply (H (q - 300)%nat ts). split; [lia|done]. }
    split; [done|]. split; [done|].
    rewrite find_timestamp_cascade. unfold AlignSpec.first_window.
    by rewrite H200, H500.
Qed.

(** The only marker before offset 300 starts at offset 0: it is returned,
    through the 500 window. *)
Lemma timestamp_search_windows_witness :
  FixTimestamps.search_in_window AlignSpec.far_marker 300 200 = None
  /\ FixTimestamps.search_in_window AlignSpec.far_marker 300 500
     = Some (Py.of_string "1:02:03")
  /\ FixTimestamps.find_timestamp_before_position AlignSpec.far_marker 300
     = Some (FixTimestamps.normalize_timestamp (Py.of_string "1:02:03")).
Proof.
  refine (proj2 (proj2 (proj2 (proj2
            (timestamp_search_windows AlignSpec.far_marker 300))))
            (Py.of_string "1:02:03") _ _ _).
  - lia.
  - vm_compute. reflexivity.
  - intros j ts' Hj.
    assert (Hin : (0 + j, ts')%nat
                  ∈ AlignSpec.all_markers 0 (take 300 AlignSpec.far_marker)).
    { apply all_markers_spec. by exists j. }
    vm_compute in Hin. apply list_elem_of_singleton in Hin.
    injection Hin as -> _. lia.
Defined.

(** The scenario of the specification: the quote is found at offset 24 of
    the transcript and the marker before it gives its timestamp. *)
Example scenario_timestamp :
  FixTimestamps.find_quote_position AlignSpec.scenario
    (Py.of_string "Growth is about retention.") = 24
  /\ FixTimestamps.find_timestamp_before_position AlignSpec.scenario 24
     = Some (Py.of_string "00:01:15").
Proof. by vm_compute. Qed.

(** ** The location of a quote *)

Section FindFacts.
Import Py FixTimestamps AlignSpec.

(** [find] returns the lowest offset of an occurrence, [-1] when there is
    none. *)
Lemma find_from_spec (sub t : text) (k : Z) :
  (find_from sub t k = -1 /\ absent t sub)
  \/ exists i, find_from sub t k = k + Z.of_nat i /\ occurs_first t sub i.
Proof.
  revert k. induction t as [|c r IH]; intros k.
  - cbn [find_from]. destruct (startswith sub []) eqn:Hs.
    + right. exists 0%nat. split; [lia|]. split; [done|].
      split; [done|]. intros; lia.
    + left. split; [done|]. intros i. by rewrite drop_nil.
  - cbn [find_from]. destruct (startswith sub (c :: r)) eqn:Hs.
    + right. exists 0%nat. split; [lia|]. split; [done|].
      split; [simpl; lia|]. intros; lia.
    + destruct (IH (k + 1)) as [[Hf Ha]|(i & Hf & Ho & Hl & Hmin)].
      * left. split; [done|]. intros [|i]; [done|apply Ha].
      * right. exists (S i). split; [lia|]. split; [done|].
        split; [simpl; lia|].
        intros [|j] Hj; [done|]. apply Hmin. lia.
Qed.

Lemma occurs_first_present (t sub : text) (i : nat) :
  occurs_first t sub i -> ~ absent t sub.
Proof. intros [Hs _] Ha. by rewrite Ha in Hs. Qed.

Lemma occurs_first_inj (t sub : text) (i j : nat) :
  occurs_first t sub i -> occurs_first t sub j -> i = j.
Proof.
  intros (Hi & _ & Hmi) (Hj & _ & Hmj).
  destruct (Nat.lt_trichotomy i j) as [Hlt|[?|Hlt]]; [|done|].
  - rewrite (Hmj i Hlt) in Hi. done.
  - rewrite (Hmi j Hlt) in Hj. done.
Qed.

Lemma find_absent (t sub : text) : find t sub = -1 <-> absent t sub.
Proof.
  unfold find. destruct (find_from_spec sub t 0) as [[Hf Ha]|(i & Hf & Ho)].
  - by split.
  - split; [lia|]. intros Ha. by apply occurs_first_present in Ho.
Qed.

Lemma find_occurs (t sub : text) (i : nat) :
  find t sub = Z.of_nat i <-> occurs_first t sub i.
Proof.
  unfold find. destruct (find_from_spec sub t 0) as [[Hf Ha]|(j & Hf & Ho)].
  - split; [lia|]. intros Ho. by apply occurs_first_present in Ho.
  - split.
    + intros Hi. assert (i = j) as -> by lia. done.
    + intros Hi. rewrite (occurs_first_inj _ _ _ _ Hi Ho). lia.
Qed.

Lemma first_success_fails (l : list (bool * text * text)) :
  first_success l = -1 <-> Forall fails l.
Proof.
  induction l as [|[[g h] n] l IH]; [by split|]. cbn [first_success].
  rewrite Forall_cons. unfold fails at 1. simpl.
  destruct g; simpl.
  - destruct (Z.eqb_spec (find h n) (-1)) as [He|Hne]; simpl.
    + rewrite IH. apply find_absent in He. tauto.
    + split; [done|]. intros [Ha _]. exfalso. apply Hne, find_absent. auto.
  - rewrite IH. split; [by split|tauto].
Qed.

Lemma first_success_stops (l1 l2 : list (bool * text * text))
    (h n : text) (i : nat) :
  Forall fails l1 -> occurs_first h n i ->
  first_success (l1 ++ (true, h, n) :: l2) = Z.of_nat i.
Proof.
  intros Hl1 Ho. induction l1 as [|[[g h'] n'] l1 IH]; cbn [first_success app].
  - apply find_occurs in Ho. rewrite Ho. simpl.
    by destruct (Z.eqb_spec (Z.of_nat i) (-1)); [lia|].
  - apply Forall_cons in Hl1 as [Hf Hl1]. unfold fails in Hf. simpl in Hf.
    destruct g; simpl; [|by apply IH].
    rewrite (proj2 (find_absent h' n') (Hf eq_refl)). simpl. by apply IH.
Qed.

End FindFacts.

Section NormalizedFacts.
Import Py FixTimestamps AlignSpec.

Lemma collapse_true_no_leading (t : text) (c : ascii) (r : text) :
  collapse_ws true t = c :: r -> is_space c = false.
Proof.
  induction t as [|x t IH]; [done|]. simpl.
  destruct (is_space x) eqn:Hx; [done|]. by intros [= <- _].
Qed.

Lemma lstrip_collapse (b : bool) (t : text) :
  lstrip (collapse_ws b t) = collapse_ws true t.
Proof.
  assert (Hfix : forall u, lstrip (collapse_ws true u) = collapse_ws true u).
  { intros u. destruct (collapse_ws true u) as [|c r] eqn:Hu; [done|].
    simpl. by rewrite (collapse_true_no_leading u c r Hu). }
  destruct t as [|c r]; [done|]. simpl.
  destruct (is_space c) eqn:Hc.
  - destruct b; [apply Hfix|]. simpl. apply Hfix.
  - simpl. by rewrite Hc.
Qed.

Lemma lstrip_snoc (y : text) (a : ascii) :
  lstrip (y ++ [a])
  = match lstrip y with
    | [] => lstrip [a]
    | c :: l => c :: l ++ [a]
    end.
Proof.
  induction y as [|x y IH]; [done|]. simpl.
  destruct (is_space x); [done|]. done.
Qed.

Lemma rstrip_cons (a : ascii) (x : text) :
  rstrip (a :: x)
  = match rstrip x with
    | [] => if is_space a then [] else [a]
    | c :: l => a :: c :: l
    end.
Proof.
  unfold rstrip. simpl rev. rewrite lstrip_snoc.
  destruct (lstrip (rev x)) as [|c l] eqn:Hl.
  - simpl. by destruct (is_space a).
  - change (c :: l ++ [a]) with ((c :: l) ++ [a]).
    rewrite rev_app_distr. cbn [rev app].
    destruct (rev l ++ [c]) as [|c' l'] eqn:Hr; [|done].
    by destruct (rev l).
Qed.

Lemma words_nonempty (t : text) : Forall (fun w => w <> []) (words t).
Proof.
  induction t as [|c r IH]; [constructor|]. cbn [words].
  destruct (is_space c); [done|].
  destruct r as [|d r']; [by repeat constructor|].
  destruct (is_space d); [by constructor|].
  destruct (words (d :: r')) as [|w ws]; [by repeat constructor|].
  apply Forall_cons in IH as [_ IH]. by constructor.
Qed.

Lemma join_words_nil (ws : list text) :
  Forall (fun w => w <> []) ws -> join_words ws = [] -> ws = [].
Proof.
  intros Hall. destruct ws as [|w rest]; [done|].
  apply Forall_cons in Hall as [Hw _]. cbn [join_words].
  destruct rest; [done|]. by destruct w.
Qed.

(** The normalization of the code gives the words of the text with one
    space between each two. *)
Lemma clean_text_is_normalized (t : text) :
  clean_text_for_search t = whitespace_normalized t.
Proof.
  unfold clean_text_for_search, whitespace_normalized.
  assert (Hsame : forall c u, replace_char c c u = u).
  { intros c u. unfold replace_char. induction u as [|x u IH]; [done|].
    simpl. rewrite IH. by destruct (Ascii.eqb_spec x c) as [->|]. }
  rewrite !Hsame. unfold strip. rewrite lstrip_collapse.
  induction t as [|c r IH]; [done|]. cbn [collapse_ws words].
  destruct (is_space c) eqn:Hc; [done|].
  rewrite rstrip_cons, Hc.
  destruct r as [|d r']; [by cbn|].
  pose proof (words_nonempty (d :: r')) as Hne.
  cbn [collapse_ws] in IH |- *.
  destruct (is_space d) eqn:Hd.
  - rewrite rstrip_cons. cbn [is_space]. rewrite IH.
    destruct (join_words (words (d :: r'))) as [|y l] eqn:Hj.
    + apply join_words_nil in Hj; [|done]. rewrite Hj.
      by vm_compute.
    + cbn [join_words]. destruct (words (d :: r')) as [|w ws]; [done|].
      by rewrite Hj.
  - rewrite IH.
    destruct (words (d :: r')) as [|w ws] eqn:Hw; [done|].
    apply Forall_cons in Hne as [Hw0 _].
    destruct (join_words (w :: ws)) as [|y l] eqn:Hj.
    + cbn [join_words] in Hj. destruct ws; [done|]. by destruct w.
    + rewrite <- Hj. cbn [join_words]. by destruct ws.
Qed.

End NormalizedFacts.

Section OccurrenceFacts.
Import Py FixTimestamps AlignSpec.

Lemma startswith_same_text (sub u : text) :
  startswith sub u = same_text Exact sub (take (length sub) u).
Proof.
  revert u. induction sub as [|a p IH]; intros [|b u]; simpl; try done.
  by rewrite IH.
Qed.

Lemma all_chars_spec (a : ascii) : In a all_chars.
Proof.
  unfold all_chars. rewrite <- (ascii_nat_embedding a).
  apply in_map, in_seq. pose proof (nat_ascii_bounded a). lia.
Qed.

(** Two characters have the same lower-case form exactly when they are the
    same up to the case of a letter. *)
Lemma lower_same_char (a b : ascii) :
  Ascii.eqb (lower_char a) (lower_char b) = same_char IgnoringCase a b.
Proof.
  assert (Hall : forallb (fun x =>
            forallb (fun y =>
              Bool.eqb (Ascii.eqb (lower_char x) (lower_char y))
                (same_char IgnoringCase x y)) all_chars) all_chars = true)
    by (vm_compute; reflexivity).
  rewrite forallb_forall in Hall.
  specialize (Hall a (all_chars_spec a)). rewrite forallb_forall in Hall.
  specialize (Hall b (all_chars_spec b)). by apply Bool.eqb_prop in Hall.
Qed.

Lemma startswith_lower (sub u : text) :
  startswith (lower sub) (lower u)
  = same_text IgnoringCase sub (take (length sub) u).
Proof.
  unfold lower.
  revert u. induction sub as [|a p IH]; intros [|b u]; simpl; try done.
  by rewrite IH, lower_same_char.
Qed.

Lemma same_text_nil (m : matching) (sub : text) :
  same_text m sub [] = true -> sub = [].
Proof. by destruct sub. Qed.

Lemma first_occurrence_bound (m : matching) (t sub : text) (i : nat) :
  first_occurrence m t sub i -> (i <= length t)%nat.
Proof.
  intros [Hi Hmin]. destruct (Nat.le_gt_cases i (length t)) as [?|Hgt]; [done|].
  unfold occurs_at in Hi. rewrite drop_ge in Hi by lia.
  rewrite take_nil in Hi. apply same_text_nil in Hi. subst sub.
  specialize (Hmin 0%nat ltac:(lia)). by unfold occurs_at in Hmin.
Qed.

(** A test of the code that agrees with [occurs_at] at every offset finds
    what the specification looks for. *)
Lemma occurrence_transfer (m : matching) (t sub t' sub' : text) :
  length t' = length t ->
  (forall j, startswith sub' (drop j t') = occurs_at m t sub j) ->
  (forall i, occurs_first t' sub' i <-> first_occurrence m t sub i)
  /\ (absent t' sub' <-> no_occurrence m t sub).
Proof.
  intros Hlen Hj. split.
  - intros i. split.
    + intros (Hi & _ & Hmin). split; [by rewrite <- Hj|].
      intros j Hlt. rewrite <- Hj. by apply Hmin.
    + intros H. pose proof (first_occurrence_bound _ _ _ _ H) as Hb.
      destruct H as [Hi Hmin]. split; [by rewrite Hj|].
      split; [lia|]. intros j Hlt. rewrite Hj. by apply Hmin.
  - unfold absent, no_occurrence. split; intros H i.
    + by rewrite <- Hj.
    + by rewrite Hj.
Qed.

Lemma exact_transfer (t sub : text) :
  (forall i, occurs_first t sub i <-> first_occurrence Exact t sub i)
  /\ (absent t sub <-> no_occurrence Exact t sub).
Proof.
  apply occurrence_transfer; [done|].
  intros j. apply startswith_same_text.
Qed.

Lemma ignoring_case_transfer (t sub : text) (k : nat) :
  (forall i, occurs_first (lower t) (take k (lower sub)) i
             <-> first_occurrence IgnoringCase t (take k sub) i)
  /\ (absent (lower t) (take k (lower sub))
      <-> no_occurrence IgnoringCase t (take k sub)).
Proof.
  apply occurrence_transfer; [apply length_map|].
  intros j. unfold lower. rewrite firstn_map, skipn_map.
  apply startswith_lower.
Qed.

Lemma quote_attempts_steps (transcript quote_text : text) :
  Forall2 (same_step (whitespace_normalized transcript))
    (quote_attempts transcript quote_text)
    (fallback_steps (whitespace_normalized quote_text)).
Proof.
  unfold quote_attempts, fallback_steps. rewrite !clean_text_is_normalized.
  set (nt := whitespace_normalized transcript).
  set (nq := whitespace_normalized quote_text).
  repeat (apply List.Forall2_cons;
    [unfold same_step; cbn [fst snd]; split; [reflexivity|];
     first [apply exact_transfer|apply ignoring_case_transfer]|]).
  constructor.
Qed.

Lemma same_step_fails (nt : text) (l : list (bool * text * text))
    (k : list (bool * matching * text)) :
  Forall2 (same_step nt) l k -> (Forall fails l <-> Forall (step_fails nt) k).
Proof.
  induction 1 as [|a s l k (Hg & _ & Habs) _ IH]; [by split|].
  rewrite !Forall_cons, IH. unfold fails, step_fails.
  rewrite Hg, Habs. done.
Qed.

(** The decision of an occurrence by scanning the offsets of the text. *)
Lemma no_occurrence_scan (m : matching) (t sub : text) :
  forallb (fun i => negb (occurs_at m t sub i)) (seq 0 (S (length t))) = true ->
  no_occurrence m t sub.
Proof.
  rewrite forallb_forall. intros H i.
  destruct (Nat.le_gt_cases i (length t)) as [Hle|Hgt].
  - apply negb_true_iff, H, in_seq. lia.
  - specialize (H (length t)). rewrite in_seq in H.
    specialize (H ltac:(lia)). apply negb_true_iff in H.
    unfold occurs_at in *. rewrite drop_ge in H by lia.
    by rewrite drop_ge by lia.
Qed.

Lemma first_occurrence_scan (m : matching) (t sub : text) (i : nat) :
  occurs_at m t sub i
  && forallb (fun j => negb (occurs_at m t sub j)) (seq 0 i) = true ->
  first_occurrence m t sub i.
Proof.
  rewrite andb_true_iff, forallb_forall. intros [Hi H]. split; [done|].
  intros j Hj. apply negb_true_iff, H, in_seq. lia.
Qed.

End OccurrenceFacts.

(** C8. The location of a quote follows the graduated fallback.  The texts
    the code searches are the whitespace-normalized copies of the transcript
    and of the quote (their words, single spaces between).  The steps are:
    the whole normalized quote; its first 100, 50 and 30 characters, each
    step only for a longer quote; its first 50 characters compared without
    regard to case.  The result is the lowest offset of the normalized
    transcript at which the first step that applies and succeeds finds what
    it looks for, and it is [-1] exactly when every step that applies finds
    nothing. *)
Theorem quote_position_fallback (transcript quote_text : Py.text) :
  let nt := AlignSpec.whitespace_normalized transcript in
  let nq := AlignSpec.whitespace_normalized quote_text in
  FixTimestamps.clean_text_for_search transcript = nt
  /\ FixTimestamps.clean_text_for_search quote_text = nq
  /\ (FixTimestamps.find_quote_position transcript quote_text = -1 <->
      Forall (AlignSpec.step_fails nt) (AlignSpec.fallback_steps nq))
  /\ (forall l1 l2 m needle i,
        AlignSpec.fallback_steps nq = l1 ++ (true, m, needle) :: l2 ->
        Forall (AlignSpec.step_fails nt) l1 ->
        AlignSpec.first_occurrence m nt needle i ->
        FixTimestamps.find_quote_position transcript quote_text
        = Z.of_nat i).
Proof.
  intros nt nq.
  assert (Heq : FixTimestamps.find_quote_position transcript quote_text
                = AlignSpec.find_quote_position_spec transcript quote_text).
  { unfold FixTimestamps.find_quote_position,
      AlignSpec.find_quote_position_spec, AlignSpec.quote_attempts.
    cbn [AlignSpec.first_success andb].
    set (cq := FixTimestamps.clean_text_for_search quote_text).
    set (ct := FixTimestamps.clean_text_for_search transcript).
    destruct (negb (Py.find ct cq =? -1)); [done|].
    destruct ((100 <? length cq)%nat && negb (Py.find ct (take 100 cq) =? -1));
      [done|].
    destruct ((50 <? length cq)%nat && negb (Py.find ct (take 50 cq) =? -1));
      [done|].
    destruct ((30 <? length cq)%nat && negb (Py.find ct (take 30 cq) =? -1));
      [done|].
    done. }
  pose proof (quote_attempts_steps transcript quote_text) as Hsteps.
  fold nt nq in Hsteps.
  split; [apply clean_text_is_normalized|].
  split; [apply clean_text_is_normalized|].
  rewrite Heq. unfold AlignSpec.find_quote_position_spec. split.
  - rewrite first_success_fails. by apply same_step_fails.
  - intros l1 l2 m needle i Hdec Hl1 Ho. rewrite Hdec in Hsteps.
    apply Forall2_app_inv_r in Hsteps as (a1 & a2 & Ha1 & Ha2 & ->).
    apply Forall2_cons_inv_r in Ha2 as ([[g h] n] & a2' & (Hg & Hocc & _)
                                         & _ & ->).
    simpl in Hg, Hocc. rewrite Hg.
    apply first_success_stops.
    + by apply (same_step_fails nt a1 l1).
    + by apply Hocc.
Qed.

(** A quote that differs from the transcript in its spacing and in the case
    of its letters: the whole quote is not found, the prefix steps do not
    apply to its 26 characters, and the last step finds it at offset 7 of
    the normalized transcript. *)
Lemma quote_position_fallback_witness :
  let transcript := Py.of_string "Intro.   GROWTH  is about retention. " in
  let quote_text := Py.of_string " growth is  about Retention." in
  AlignSpec.whitespace_normalized transcript
  = Py.of_string "Intro. GROWTH is about retention."
  /\ AlignSpec.whitespace_normalized quote_text
     = Py.of_string "growth is about Retention."
  /\ FixTimestamps.find_quote_position transcript quote_text = 7.
Proof.
  intros transcript quote_text.
  split; [vm_compute; reflexivity|]. split; [vm_compute; reflexivity|].
  refine (proj2 (proj2 (proj2 (quote_position_fallback transcript
            quote_text)))
            [(true, AlignSpec.Exact, _); (false, AlignSpec.Exact, _);
             (false, AlignSpec.Exact, _); (false, AlignSpec.Exact, _)]
            [] AlignSpec.IgnoringCase _ 7%nat _ _ _).
  - vm_compute. reflexivity.
  - apply List.Forall_cons.
    { intros _. apply no_occurrence_scan. vm_compute. reflexivity. }
    repeat (apply List.Forall_cons; [intros [=]|]). apply List.Forall_nil.
  - apply first_occurrence_scan. vm_compute. reflexivity.
Defined.

(** A quote of 120 characters of which the transcript holds the first 60:
    the whole quote and its first 100 characters are not found, its first
    50 characters are. *)
Example quote_position_third_step :
  let quote := replicate 60 "a"%char ++ replicate 60 "b"%char in
  let transcript := Py.of_string "xyz " ++ replicate 60 "a"%char in
  Py.find transcript quote = -1
  /\ Py.find transcript (take 100 quote) = -1
  /\ FixTimestamps.find_quote_position transcript quote = 4.
Proof. by vm_compute. Qed.

(** ** The fallback when no marker precedes the quote *)

Section FallbackFacts.
Import Py FixTimestamps AlignSpec.

Lemma no_marker_no_timestamp (t : text) (q : nat) :
  (forall i ts, ~ marker_at (take q t) i ts) ->
  find_timestamp_before_position t q = None.
Proof.
  intros Hno. rewrite find_timestamp_cascade.
  pose proof (first_window_spec t q) as H.
  destruct (first_window t q) as [ts|]; [|done].
  destruct H as (i & Hm & _). by apply Hno in Hm.
Qed.

Lemma truthy_string (s : string) : truthy (JStr s) = true <-> s <> "".
Proof.
  simpl. destruct (String.eqb_spec s ""); simpl; split; congruence.
Qed.

End FallbackFacts.

(** C9. When the quote is found at an offset before which the transcript
    holds no marker, the quote keeps its record if its timestamp is a
    non-empty value and otherwise (the timestamp absent, empty or null) gets
    the timestamp ["00:00:00"] and nothing else; one warning is recorded;
    whatever markers stand at or after the offset play no part. *)
Theorem no_marker_fallback (transcript : Py.text) (quote : Py.dict)
    (st : FixTimestamps.stats) (qs : string) (pos : nat) :
  Py.dict_get_default "text" (Py.JStr "") quote = Py.JStr qs ->
  qs <> "" ->
  FixTimestamps.find_quote_position transcript (Py.of_string qs)
  = Z.of_nat pos ->
  (forall i ts, ~ AlignSpec.marker_at (take pos transcript) i ts) ->
  let old := Py.dict_get_default "timestamp" (Py.JStr "") quote in
  exists quote' st',
    FixTimestamps.process_quote transcript quote st = Some (quote', st')
    /\ quote' = (if Py.truthy old then quote
                 else Py.dict_set "timestamp" (Py.JStr "00:00:00") quote)
    /\ Py.dict_get "timestamp" quote'
       = (if Py.truthy old then Py.dict_get "timestamp" quote
          else Some (Py.JStr "00:00:00"))
    /\ (forall key, key <> "timestamp" ->
          Py.dict_get key quote' = Py.dict_get key quote)
    /\ length (FixTimestamps.warnings st')
       = S (length (FixTimestamps.warnings st))
    /\ FixTimestamps.timestamps_updated st'
       = FixTimestamps.timestamps_updated st
         + (if Py.truthy old then 0 else 1)
    /\ FixTimestamps.timestamps_unchanged st'
       = FixTimestamps.timestamps_unchanged st
         + (if Py.truthy old then 1 else 0).
Proof.
  intros Htext Hqs Hpos Hno old.
  unfold FixTimestamps.process_quote. rewrite Htext.
  rewrite (proj2 (truthy_string qs) Hqs). cbn [negb].
  rewrite Hpos.
  destruct (Z.eqb_spec (Z.of_nat pos) (-1)) as [?|_]; [lia|].
  rewrite Nat2Z.id, (no_marker_no_timestamp _ _ Hno).
  fold old. destruct (Py.truthy old) eqn:Hold.
  - eexists. eexists. split; [reflexivity|]. simpl.
    rewrite length_app. simpl. repeat split; try done; lia.
  - eexists. eexists. split; [reflexivity|]. simpl.
    rewrite length_app. simpl.
    split; [done|]. split; [apply dict_get_set_eq|].
    split; [intros key Hk; by apply dict_get_set_ne|].
    repeat split; lia.
Qed.

(** No marker before the quote, one after it, no timestamp yet: the quote
    gets the zero timestamp. *)
Lemma no_marker_fallback_witness :
  let quote := [("text", Py.JStr "Growth is about retention.")] in
  exists quote' st',
    FixTimestamps.process_quote AlignSpec.no_marker_before quote
      (FixTimestamps.Stats 1 0 0 []) = Some (quote', st')
    /\ quote' = Py.dict_set "timestamp" (Py.JStr "00:00:00") quote.
Proof.
  intros quote.
  destruct (no_marker_fallback AlignSpec.no_marker_before quote
              (FixTimestamps.Stats 1 0 0 []) "Growth is about retention."
              7%nat) as (quote' & st' & H1 & H2 & _).
  - reflexivity.
  - discriminate.
  - vm_compute. reflexivity.
  - intros i ts Hi.
    assert (Hin : (0 + i, ts)%nat
              ∈ AlignSpec.all_markers 0 (take 7 AlignSpec.no_marker_before)).
    { apply all_markers_spec. by exists i. }
    vm_compute in Hin. by apply elem_of_nil in Hin.
  - exists quote', st'. split; [exact H1|exact H2].
Defined.

(** The same quote with a timestamp already there keeps it. *)
Example no_marker_keeps_timestamp :
  let quote := [("text", Py.JStr "Growth is about retention.");
                ("timestamp", Py.JStr "00:09:59")] in
  option_map fst
    (FixTimestamps.process_quote AlignSpec.no_marker_before quote
       (FixTimestamps.Stats 1 0 0 [])) = Some quote.
Proof. by vm_compute. Qed.

(** ** More on the checkpoint *)

Section CheckpointMore.
Import Checkpoint Spec More.

Lemma logged_app (ops : list op) (o : op) :
  logged (ops ++ [o]) = logged ops ++ logged [o].
Proof.
  induction ops as [|o' ops IH]; simpl; [done|].
  destruct o'; simpl; by rewrite IH.
Qed.

Lemma errors_step (m : manager) (o : op) :
  in_sync m -> errors (data (step m o)) = errors (data m) ++ logged [o].
Proof.
  intros Hs. destruct o as [f n c|f n c|now msg|]; simpl.
  - unfold mark_extracted; simpl.
    destruct (py_in f (extracted_files (data m))); simpl;
      symmetry; apply app_nil_r.
  - unfold mark_translated; simpl.
    destruct (py_in f (translated_files (data m))); simpl;
      symmetry; apply app_nil_r.
  - done.
  - rewrite Hs. symmetry; apply app_nil_r.
Qed.

Lemma run_in_sync (ops : list op) (m : manager) :
  in_sync m -> in_sync (run ops m).
Proof.
  revert m. induction ops as [|o ops IH]; intros m Hs; [done|].
  simpl. by apply IH, step_in_sync.
Qed.

(** X2. The error log of the checkpoint is exactly the sequence of the
    entries passed to [add_error], each stamped with the clock value of its
    call, in call order: marking a file never touches it and a restart from
    the persisted file loses none of it. *)
Theorem error_log_is_append_only (ops : list op) :
  errors (data (run ops (init None))) = logged ops.
Proof.
  induction ops as [|o ops IH] using rev_ind; [done|].
  unfold run. rewrite fold_left_app. simpl.
  rewrite errors_step by (by apply run_in_sync).
  fold (run ops (init None)). by rewrite IH, logged_app.
Qed.

Lemma credited_translated_app (ops : list op) (o : op) (f : string) :
  credited_translated (ops ++ [o]) f =
    match credited_translated ops f with
    | Some n => Some n
    | None => credited_translated [o] f
    end.
Proof.
  induction ops as [|o' ops IH]; simpl;
    [by destruct (credited_translated [o] f)|].
  destruct o'; try done. by destruct (String.eqb f filename).
Qed.

Lemma translated_sum_app (ops : list op) (l1 l2 : list string) :
  translated_sum ops (l1 ++ l2) = translated_sum ops l1 + translated_sum ops l2.
Proof.
  unfold translated_sum. induction l1 as [|f l1 IH]; simpl; [lia|].
  rewrite IH. lia.
Qed.

Lemma translated_sum_ext (ops ops' : list op) (l : list string) :
  (forall f, f ∈ l -> credited_translated ops' f = credited_translated ops f) ->
  translated_sum ops' l = translated_sum ops l.
Proof.
  unfold translated_sum. induction l as [|f l IH]; intros H; simpl; [done|].
  rewrite H by (by left). rewrite IH; [done|]. intros; apply H; by right.
Qed.

Lemma counted_translated_step (ops : list op) (m : manager) (o : op) :
  counted_translated ops m -> counted_translated (ops ++ [o]) (step m o).
Proof.
  intros [Hsync Hnd Hl Ht].
  assert (Hext : forall l,
            (forall f, f ∈ l -> is_Some (credited_translated ops f)) ->
            translated_sum (ops ++ [o]) l = translated_sum ops l).
  { intros l Hl'. apply translated_sum_ext. intros f Hf.
    rewrite credited_translated_app. by destruct (Hl' f Hf) as [n ->]. }
  assert (Hkeep : forall f,
            (is_Some (credited_translated ops f)
             \/ is_Some (credited_translated [o] f))
            <-> is_Some (credited_translated (ops ++ [o]) f)).
  { intros f. rewrite credited_translated_app.
    destruct (credited_translated ops f); simpl.
    - split; [by eauto|]. intros _. left. by eauto.
    - split; [by intros [[? [=]]|?]|by right]. }
  assert (Hsame : credited_translated [o] = (fun _ => None) ->
            data (step m o) = data m \/
            (translated_files (data (step m o)) = translated_files (data m)
             /\ total_quotes_translated (data (step m o))
                = total_quotes_translated (data m)) ->
            in_sync (step m o) ->
            counted_translated (ops ++ [o]) (step m o)).
  { intros Hnone Hd Hs.
    assert (Hf : translated_files (data (step m o)) = translated_files (data m))
      by (destruct Hd as [->|[? _]]; done).
    assert (Hq : total_quotes_translated (data (step m o))
                 = total_quotes_translated (data m))
      by (destruct Hd as [->|[_ ?]]; done).
    split; rewrite ?Hf, ?Hq; try done.
    - intros g. rewrite Hl, <- Hkeep, Hnone. split; [by left|].
      by intros [?|[? [=]]].
    - rewrite Hext; [done|]. intros g Hg. by apply Hl. }
  destruct o as [f n c|f n c|now msg|].
  - apply Hsame; [done| |by apply step_in_sync].
    right. simpl. unfold mark_extracted; simpl.
    by destruct (py_in f (extracted_files (data m))).
  - simpl. unfold mark_translated, save; simpl.
    destruct (py_in f (translated_files (data m))) eqn:Hin; simpl.
    + apply py_in_spec in Hin.
      split; simpl; try done.
      * intros g. rewrite Hl, <- Hkeep. split; [by left|].
        intros [?|Hg]; [done|]. simpl in Hg.
        destruct (String.eqb_spec g f) as [Heq|Hne]; [subst g; by apply Hl|].
        by destruct Hg.
      * rewrite Hext; [done|]. intros g Hg. by apply Hl.
    + apply py_in_false in Hin.
      split; simpl; try done.
      * apply NoDup_app. split; [done|]. split; [|apply NoDup_singleton].
        intros g Hg ->%list_elem_of_singleton. done.
      * intros g. rewrite elem_of_app, list_elem_of_singleton, Hl, <- Hkeep.
        simpl. destruct (String.eqb_spec g f) as [Heq|Hne].
        -- split; [by right; eauto|by right].
        -- split; [by intros [?|?]; [left|]|].
           intros [?|[? [=]]]. by left.
      * rewrite translated_sum_app, Hext by (intros g Hg; by apply Hl).
        rewrite Ht.
        change (translated_sum (ops ++ [OpMarkTranslated f n c]) [f])
          with (default 0 (credited_translated
                             (ops ++ [OpMarkTranslated f n c]) f) + 0).
        rewrite credited_translated_app.
        destruct (credited_translated ops f) eqn:Hc.
        { exfalso. apply Hin, Hl. rewrite Hc. by eexists. }
        simpl. rewrite String.eqb_refl. simpl. lia.
  - apply Hsame; [done|by right|by apply step_in_sync].
  - apply Hsame; [done| |by apply step_in_sync].
    left. simpl. apply Hsync.
Qed.

Lemma counted_translated_run (ops : list op) :
  counted_translated ops (run ops (init None)).
Proof.
  induction ops as [|o ops IH] using rev_ind.
  - split; simpl; try done.
    + apply NoDup_nil_2.
    + intros f. split; [by intros ?%elem_of_nil|by intros [? [=]]].
  - unfold run. rewrite fold_left_app. simpl.
    by apply counted_translated_step.
Qed.

(** X3. The translated counter is consistent too: after any sequence of
    [mark_extracted], [mark_translated], [add_error] and restarts, started
    without a checkpoint file, [translated_files] has no duplicate and
    [total_quotes_translated] is the sum, over its names, of the quote count
    passed when the name was first marked translated. *)
Theorem translated_counter_consistency (ops : list op) :
  let m := run ops (init None) in
  NoDup (translated_files (data m))
  /\ total_quotes_translated (data m)
     = translated_sum ops (translated_files (data m)).
Proof.
  destruct (counted_translated_run ops) as [_ Hn _ Ht]. by split.
Qed.

(** *** The extracted counter and the status of the units *)

Lemma advanced_units_spec (m : manager) (f : string) :
  f ∈ advanced_units m <-> stage_status_of m f <> Pending.
Proof.
  unfold advanced_units, stage_status_of, is_translated, is_extracted.
  rewrite elem_of_app. split.
  - intros [He|Hf].
    + apply py_in_spec in He. rewrite He.
      destruct (py_in f (translated_files (data m))); intros [=].
    + apply list_elem_of_In, filter_In in Hf as [Hf _].
      apply list_elem_of_In, py_in_spec in Hf. rewrite Hf. intros [=].
  - intros H. destruct (py_in f (extracted_files (data m))) eqn:He.
    { left. by apply py_in_spec. }
    destruct (py_in f (translated_files (data m))) eqn:Ht;
      [|by destruct H].
    right. apply list_elem_of_In, filter_In. split.
    + by apply list_elem_of_In, py_in_spec.
    + unfold is_extracted. by rewrite He.
Qed.

Lemma advanced_units_nodup (m : manager) :
  NoDup (extracted_files (data m)) -> NoDup (translated_files (data m)) ->
  NoDup (advanced_units m).
Proof.
  intros He Ht. unfold advanced_units. apply NoDup_app.
  split; [done|]. split.
  - intros f Hf Hin. apply list_elem_of_In, filter_In in Hin as [_ Hn].
    apply py_in_spec in Hf. unfold is_extracted in Hn. by rewrite Hf in Hn.
  - apply NoDup_ListNoDup, List.NoDup_filter, NoDup_ListNoDup. done.
Qed.

Lemma filter_none (P : string -> bool) (l : list string) :
  (forall x, x ∈ l -> P x = false) -> List.filter P l = [].
Proof.
  induction l as [|x l IH]; intros H; simpl; [done|].
  rewrite H by (by left). apply IH. intros; apply H; by right.
Qed.

Lemma credited_sum_unlisted (ops : list op) (l : list string) :
  (forall f, f ∈ l -> credited ops f = None) -> credited_sum ops l = 0.
Proof.
  unfold credited_sum. induction l as [|f l IH]; intros H; simpl; [done|].
  rewrite H by (by left). rewrite IH; [done|]. intros; apply H; by right.
Qed.

Lemma quote_count_sum_listed (ops : list op) (l : list string) :
  (forall f, f ∈ l -> is_Some (credited ops f)) ->
  quote_count_sum ops l = credited_sum ops l.
Proof.
  unfold quote_count_sum, credited_sum, quote_count.
  induction l as [|f l IH]; intros H; simpl; [done|].
  destruct (H f) as [n ->]; [by left|]. simpl.
  rewrite IH; [done|]. intros; apply H; by right.
Qed.

(** C3 (as the code has it). Counter consistency: after any sequence of
    [mark_extracted], [mark_translated], [add_error] and reloads of the
    persisted checkpoint, started without a checkpoint file, the file names
    in [extracted_files] are distinct and [total_quotes_extracted] is the
    sum, over these names, of the quote count passed when the name was first
    marked extracted.  Over the units whose status is extracted or
    translated, it is the sum of those counts with nothing counted for a
    unit that was marked translated without being marked extracted; so it is
    the sum of the quote counts of all the units whose status is extracted
    or translated whenever every translated unit is listed as extracted. *)
Theorem counter_consistency (ops : list op) :
  let m := run ops (init None) in
  NoDup (extracted_files (data m))
  /\ total_quotes_extracted (data m)
     = credited_sum ops (extracted_files (data m))
  /\ _load (checkpoint_file m) = data m
  /\ NoDup (advanced_units m)
  /\ (forall f, f ∈ advanced_units m <-> stage_status_of m f <> Pending)
  /\ total_quotes_extracted (data m) = credited_sum ops (advanced_units m)
  /\ ((forall f, is_translated f m = true -> is_extracted f m = true) ->
      total_quotes_extracted (data m)
      = quote_count_sum ops (advanced_units m)).
Proof.
  intros m.
  destruct (counted_run ops) as [Hs Hn Hl Ht].
  destruct (counted_translated_run ops) as [_ Hnt _ _].
  fold m in Hs, Hn, Hl, Ht, Hnt.
  assert (Hrest : forall f,
            f ∈ List.filter (fun f => negb (is_extracted f m))
                  (translated_files (data m)) ->
            credited ops f = None).
  { intros f Hf. apply list_elem_of_In, filter_In in Hf as [_ Hf].
    apply negb_true_iff, py_in_false in Hf.
    destruct (credited ops f) eqn:Hc; [|done].
    exfalso. apply Hf, Hl. rewrite Hc. by eexists. }
  split; [done|]. split; [done|]. split; [done|].
  split; [by apply advanced_units_nodup|].
  split; [apply advanced_units_spec|]. split.
  - unfold advanced_units. rewrite credited_sum_app.
    rewrite (credited_sum_unlisted _ _ Hrest). lia.
  - intros Hsub. unfold advanced_units.
    assert (Hnil : List.filter (fun f => negb (is_extracted f m))
                     (translated_files (data m)) = []).
    { apply filter_none. intros f Hf.
      apply negb_false_iff, Hsub, py_in_spec, Hf. }
    rewrite Hnil, app_nil_r.
    rewrite quote_count_sum_listed; [done|]. intros f Hf. by apply Hl.
Qed.

End CheckpointMore.

(** Two units, one of them translated, with a failure and a restart in
    between: every translated unit is listed as extracted and the counter
    is the sum of the two quote counts. *)
Lemma counter_consistency_witness :
  let ops := [Checkpoint.OpMarkExtracted "a.txt" 3 Pipeline.COST_PER_FILE_EXTRACT_USD;
              Checkpoint.OpMarkTranslated "a.txt" 3 Pipeline.COST_PER_FILE_TRANSLATE_USD;
              Checkpoint.OpAddError "T0" "FAILED";
              Checkpoint.OpLoad;
              Checkpoint.OpMarkExtracted "b.txt" 2 Pipeline.COST_PER_FILE_EXTRACT_USD;
              Checkpoint.OpMarkExtracted "a.txt" 7 Pipeline.COST_PER_FILE_EXTRACT_USD] in
  let m := Checkpoint.run ops (Checkpoint.init None) in
  More.advanced_units m = ["a.txt"; "b.txt"]
  /\ More.quote_count_sum ops (More.advanced_units m) = 5
  /\ Checkpoint.total_quotes_extracted (Checkpoint.data m)
     = More.quote_count_sum ops (More.advanced_units m).
Proof.
  intros ops m.
  split; [by vm_compute|]. split; [by vm_compute|].
  refine (proj2 (proj2 (proj2 (proj2 (proj2 (proj2
            (counter_consistency ops)))))) _).
  intros f.
  change (Checkpoint.py_in f ["a.txt"] = true
          -> Checkpoint.py_in f ["a.txt"; "b.txt"] = true).
  unfold Checkpoint.py_in. cbn [existsb].
  destruct (String.eqb f "a.txt"); [done|]. intros [=].
Defined.

(** C3 as stated fails: a unit marked translated that was never marked
    extracted has status translated and a quote count, and the extracted
    counter does not hold it.  The pipeline reaches such a state: the
    translation phase is gated by the existence of the quote file, not by
    [is_extracted]. *)
Lemma translated_without_extraction :
  let ops := [Checkpoint.OpMarkTranslated "a.txt" 5 Pipeline.COST_PER_FILE_TRANSLATE_USD] in
  let m := Checkpoint.run ops (Checkpoint.init None) in
  let st := Pipeline.State (Checkpoint.init None)
              {[ "a_quotes.json" := [[("text", Py.JStr "one")]] ]} [] [] 0 in
  let st' := (Pipeline.process_batch_translate (Spec.answering "ko")
                ["a.txt"] st).1 in
  More.stage_status_of m "a.txt" = More.Translated
  /\ More.advanced_units m = ["a.txt"]
  /\ Checkpoint.total_quotes_extracted (Checkpoint.data m) = 0
  /\ More.quote_count_sum ops (More.advanced_units m) = 5
  /\ ~ (forall ops,
          let m := Checkpoint.run ops (Checkpoint.init None) in
          Checkpoint.total_quotes_extracted (Checkpoint.data m)
          = More.quote_count_sum ops (More.advanced_units m))
  /\ More.stage_status_of (Pipeline.checkpoint st') "a.txt" = More.Translated
  /\ Checkpoint.is_extracted "a.txt" (Pipeline.checkpoint st') = false
  /\ Checkpoint.total_quotes_extracted
       (Checkpoint.data (Pipeline.checkpoint st')) = 0
  /\ Checkpoint.total_quotes_translated
       (Checkpoint.data (Pipeline.checkpoint st')) = 1.
Proof.
  intros ops m st st'.
  split; [by vm_compute|]. split; [by vm_compute|].
  split; [by vm_compute|]. split; [by vm_compute|]. split.
  - intros H. specialize (H ops). by vm_compute in H.
  - by vm_compute.
Qed.

(** ** More on the pipeline *)

Section BatchPartition.
Import Py Checkpoint Pipeline MorePipeline.

Lemma take_clamped (l : list string) (n m : nat) :
  Nat.min n (length l) = Nat.min m (length l) -> take n l = take m l.
Proof.
  intros H.
  assert (Hn : take n l = take (Nat.min n (length l)) l).
  { destruct (Nat.min_spec n (length l)) as [[_ ->]|[? ->]]; [done|].
    by rewrite !take_ge by lia. }
  assert (Hm : take m l = take (Nat.min m (length l)) l).
  { destruct (Nat.min_spec m (length l)) as [[_ ->]|[? ->]]; [done|].
    by rewrite !take_ge by lia. }
  by rewrite Hn, Hm, H.
Qed.

(** The batch the model cuts is the slice of the source.  In [batch_of] the
    product binds after the minimum, [batch_num * min(BATCH_SIZE, total)];
    the slice it takes is nevertheless the same for every batch number. *)
Lemma batch_of_as_source (files : list string) (k : nat) :
  batch_of files k = batch_slice files k.
Proof.
  unfold batch_of, batch_slice, BATCH_SIZE.
  destruct (decide ((k - 1) * 50 < length files)%nat) as [Hin|Hout].
  - apply take_clamped. rewrite length_drop.
    destruct (Nat.min_spec 50 (length files)) as [[? ->]|[? ->]].
    + lia.
    + assert (k <= 1)%nat by lia.
      destruct k as [|[|k]]; [lia|lia|lia].
  - rewrite !(drop_ge files) by lia. by rewrite !take_nil.
Qed.

Lemma batches_upto (files : list string) (m : nat) :
  concat (map (batch_slice files) (seq 1 m)) = take (m * BATCH_SIZE) files.
Proof.
  induction m as [|m IH]; [done|].
  rewrite seq_S, map_app, concat_app, IH. cbn [map concat].
  change (1 + m)%nat with (S m).
  rewrite app_nil_r. unfold batch_slice.
  replace (S m - 1)%nat with m by lia.
  rewrite take_take_drop. unfold BATCH_SIZE.
  destruct (decide (S m * 50 <= length files)%nat).
  - f_equal. lia.
  - rewrite (take_ge files (S m * 50)) by lia.
    apply take_ge. lia.
Qed.

(** X4. The batches partition the corpus: each batch is the slice
    [transcript_files[start_idx:end_idx]] of [main]; put end to end, the
    batches are the list of transcript files, in order; no batch is empty,
    none is longer than [BATCH_SIZE] and all but the last have exactly
    [BATCH_SIZE] files. *)
Theorem batches_partition (files : list string) :
  (forall k, batch_of files k = batch_slice files k)
  /\ concat (map (batch_of files) (seq 1 (batch_count files))) = files
  /\ forall k, (1 <= k <= batch_count files)%nat ->
       (0 < length (batch_of files k) <= BATCH_SIZE)%nat
       /\ ((k < batch_count files)%nat ->
           length (batch_of files k) = BATCH_SIZE).
Proof.
  split; [apply batch_of_as_source|].
  unfold batch_count.
  pose proof (Nat.div_mod_eq (length files + BATCH_SIZE - 1) BATCH_SIZE) as Hd.
  pose proof (Nat.mod_upper_bound (length files + BATCH_SIZE - 1) BATCH_SIZE
                ltac:(done)) as Hm.
  set (n := ((length files + BATCH_SIZE - 1) / BATCH_SIZE)%nat) in *.
  unfold BATCH_SIZE in *.
  split.
  - erewrite map_ext by (intros; apply batch_of_as_source).
    rewrite batches_upto. apply take_ge. unfold BATCH_SIZE. lia.
  - intros k Hk. rewrite batch_of_as_source. unfold batch_slice, BATCH_SIZE.
    rewrite length_take, length_drop. lia.
Qed.

End BatchPartition.

Section EnrichFacts.
Import Py Checkpoint Pipeline MorePipeline.

Lemma dict_set_same (k : string) (v : json) (d : dict) :
  dict_get k d = Some v -> dict_set k v d = d.
Proof.
  induction d as [|[k' v'] d IH]; simpl; [done|].
  destruct (String.eqb_spec k k') as [->|Hne].
  - by intros [= ->].
  - intros H. by rewrite IH.
Qed.

(** The value the enrichment gives a quote: its two fields set, in this
    order, to values that depend on the speaker only. *)
Lemma enrich_quote_returns (profiles q q' : dict) :
  enrich_quote profiles q = inr q' ->
  exists f e,
    q' = dict_set "speaker_expertise" e (dict_set "speaker_function" f q)
    /\ forall q0, dict_get "speaker" q0 = dict_get "speaker" q ->
         enrich_quote profiles q0
         = inr (dict_set "speaker_expertise" e
                  (dict_set "speaker_function" f q0)).
Proof.
  unfold enrich_quote, dict_get_default.
  destruct (dict_get "speaker" q) as [v|] eqn:Hs; simpl.
  - destruct v as [|b|n|x|s|l|o]; try done;
      try (intros [= <-]; eexists; eexists; split; [done|];
           by intros q0 ->).
    destruct (dict_get s profiles) as [[|b|n|x|s'|l|o]|] eqn:Hp; try done;
      intros [= <-]; eexists; eexists; (split; [done|]);
      intros q0 ->; simpl; by rewrite Hp.
  - destruct (dict_get "" profiles) as [[|b|n|x|s'|l|o]|] eqn:Hp; try done;
      intros [= <-]; eexists; eexists; (split; [done|]);
      intros q0 ->; simpl; by rewrite Hp.
Qed.

Lemma enrich_quote_effect (profiles q q' : dict) :
  enrich_quote profiles q = inr q' ->
  has_speaker_info q'
  /\ same_outside ["speaker_function"; "speaker_expertise"] q q'
  /\ enrich_quote profiles q' = inr q'.
Proof.
  intros (f & e & -> & Hagain)%enrich_quote_returns.
  split; [|split].
  - split.
    + rewrite dict_get_set_ne, dict_get_set_eq by done. by eexists.
    + rewrite dict_get_set_eq. by eexists.
  - intros key Hkey. rewrite !dict_get_set_ne; [done|..];
      intros ->; apply Hkey; simpl; tauto.
  - rewrite Hagain by (by rewrite !dict_get_set_ne).
    f_equal.
    rewrite (dict_set_same "speaker_function" f)
      by (by rewrite dict_get_set_ne, dict_get_set_eq).
    apply dict_set_same, dict_get_set_eq.
Qed.

Lemma enrich_quotes_returns (profiles : dict) (quotes quotes' : list dict) :
  enrich_quotes_with_speaker_info quotes profiles = inr quotes' ->
  length quotes' = length quotes
  /\ Forall has_speaker_info quotes'
  /\ Forall2 (same_outside ["speaker_function"; "speaker_expertise"])
       quotes quotes'
  /\ enrich_quotes_with_speaker_info quotes' profiles = inr quotes'.
Proof.
  revert quotes'. induction quotes as [|q quotes IH]; intros quotes'; simpl.
  - intros [= <-]. by repeat split; constructor.
  - destruct (enrich_quote profiles q) as [e|q'] eqn:Hq; [done|].
    destruct (enrich_quotes_with_speaker_info quotes profiles)
      as [e|rest'] eqn:Hrest; [done|].
    intros [= <-].
    apply enrich_quote_effect in Hq as (Hinfo & Hsame & Hagain).
    destruct (IH rest' eq_refl) as (Hlen & Hall & Hframe & Hre).
    simpl. rewrite Hagain, Hre, Hlen.
    repeat split; by constructor.
Qed.

(** X5. Enrichment with the speaker profiles, when it returns: as many
    quotes, in the same order; every quote carries [speaker_function] and
    [speaker_expertise]; no other key of any quote has changed; and
    enriching the result again returns it unchanged. *)
Theorem enrichment_is_idempotent (profiles : dict) (quotes quotes' : list dict) :
  enrich_quotes_with_speaker_info quotes profiles = inr quotes' ->
  length quotes' = length quotes
  /\ Forall has_speaker_info quotes'
  /\ Forall2 (same_outside ["speaker_function"; "speaker_expertise"])
       quotes quotes'
  /\ enrich_quotes_with_speaker_info quotes' profiles = inr quotes'.
Proof.
  intros H. destruct (enrich_quotes_returns _ _ _ H) as (? & ? & ? & ?).
  by repeat split.
Qed.

End EnrichFacts.

(** Two quotes, one speaker with a profile and one without. *)
Lemma enrichment_is_idempotent_witness :
  let profiles :=
    [("Ada", Py.JObj [("function", Py.JStr "Product");
                      ("expertise", Py.JArr [Py.JStr "growth"])])] in
  let quotes := [[("speaker", Py.JStr "Ada"); ("text", Py.JStr "one")];
                 [("text", Py.JStr "two")]] in
  let quotes' :=
    [[("speaker", Py.JStr "Ada"); ("text", Py.JStr "one");
      ("speaker_function", Py.JStr "Product");
      ("speaker_expertise", Py.JArr [Py.JStr "growth"])];
     [("text", Py.JStr "two"); ("speaker_function", Py.JStr "Leadership");
      ("speaker_expertise", Py.JArr [])]] in
  Pipeline.enrich_quotes_with_speaker_info quotes' profiles = inr quotes'.
Proof.
  intros profiles quotes quotes'.
  refine (proj2 (proj2 (proj2
            (enrichment_is_idempotent profiles quotes quotes' _)))).
  vm_compute. reflexivity.
Defined.

Section StageOperationFacts.
Import Py Checkpoint Pipeline Spec MorePipeline.
Context (w : world).

(** X6. [extract_single_file] by cause.  It never touches the checkpoint.
    When the transcript cannot be read it raises before any request:
    nothing is requested and nothing has changed.  Otherwise it issues
    exactly one extraction request, for that transcript.  When the service
    or the enrichment raises, it raises with that exception before the quote
    file is opened: no quote file has changed.  When both succeed it writes
    one file, the one named after the transcript's stem, holding the
    enriched answer of the service: the count returned is the number of
    quotes of that file and each of them carries the speaker fields. *)
Theorem extraction_is_atomic (filename : string) (st : state) :
  let r := extract_single_file w filename st in
  checkpoint r.1 = checkpoint st
  /\ match transcript_of w filename with
     | inl e => r = (st, inl e)
     | inr transcript =>
         requests r.1
         = requests st ++ [ReqExtract (extraction_prompt w) transcript]
         /\ match extract_service w (requests st) (extraction_prompt w)
                  transcript with
            | inl e => r.2 = inl e /\ output r.1 = output st
            | inr answer =>
                match enrich_quotes_with_speaker_info answer
                        (speaker_profiles w) with
                | inl e => r.2 = inl e /\ output r.1 = output st
                | inr quotes =>
                    r.2 = inr (Z.of_nat (length quotes))
                    /\ output r.1
                       = <[output_filename filename := quotes]> (output st)
                    /\ length quotes = length answer
                    /\ Forall has_speaker_info quotes
                end
            end
     end.
Proof.
  intros r.
  split; [apply (extract_single_file_checkpoint w filename st)|].
  subst r. unfold extract_single_file.
  destruct (transcript_of w filename) as [e0|transcript]; [done|].
  destruct (extract_service _ _ _ _) as [e|answer] eqn:Hs; [done|].
  destruct (enrich_quotes_with_speaker_info _ _) as [e|quotes] eqn:He;
    [done|].
  destruct (enrich_quotes_returns _ _ _ He) as (Hlen & Hall & _).
  done.
Qed.

Lemma translate_quote_effect (q : dict) (st : state) :
  let r := translate_quote w q st in
  match r.2 with
  | inr q' =>
      requests r.1 = requests st ++ quote_requests q
      /\ same_outside TARGET_FIELDS q q'
  | inl _ =>
      exists new, requests r.1 = requests st ++ new
                  /\ new `prefix_of` quote_requests q
  end.
Proof.
  unfold translate_quote, translate_to_korean, translate_with_claude,
    quote_requests.
  destruct (dict_get "text" q) as [t|]; simpl.
  2:{ exists []. by rewrite app_nil_r. }
  destruct (korean_service _ _ _) as [e|ko]; simpl.
  { exists [ReqKorean t]. split; [done|]. by eexists. }
  destruct (claude_service _ _ _ "zh") as [e|zh]; simpl.
  { exists [ReqKorean t; ReqClaude t "zh"].
    rewrite <- app_assoc. split; [done|]. by eexists. }
  destruct (claude_service _ _ _ "es") as [e|es]; simpl.
  { exists [ReqKorean t; ReqClaude t "zh"; ReqClaude t "es"].
    rewrite <- !app_assoc. split; [done|]. by exists []. }
  rewrite <- !app_assoc. split; [done|].
  intros key Hkey. unfold TARGET_FIELDS in Hkey. simpl in Hkey.
  rewrite !dict_get_set_ne; [done|..]; intros ->; tauto.
Qed.

Lemma translate_quotes_effect (qs : list dict) (st : state) :
  let r := translate_quotes w qs st in
  match r.2 with
  | inr qs' =>
      requests r.1 = requests st ++ concat (map quote_requests qs)
      /\ Forall2 (same_outside TARGET_FIELDS) qs qs'
  | inl _ =>
      exists new, requests r.1 = requests st ++ new
                  /\ new `prefix_of` concat (map quote_requests qs)
  end.
Proof.
  revert st. induction qs as [|q qs IH]; intros st; simpl.
  { rewrite app_nil_r. by split. }
  pose proof (translate_quote_effect q st) as Hq.
  destruct (translate_quote w q st) as [st1 [e|q']]; simpl in *.
  { destruct Hq as (new & Hr & Hp). exists new. split; [done|].
    by apply prefix_app_r. }
  destruct Hq as [Hr Hsame].
  specialize (IH st1).
  destruct (translate_quotes w qs st1) as [st2 [e|qs']]; simpl in *.
  - destruct IH as (new & Hr2 & Hp).
    exists (quote_requests q ++ new). rewrite Hr2, Hr, <- app_assoc.
    split; [done|]. by apply prefix_app.
  - destruct IH as [Hr2 Hall]. rewrite Hr2, Hr, <- app_assoc.
    split; [done|]. by constructor.
Qed.

Lemma translate_quotes_have_text (qs qs' : list dict) (st st' : state) :
  translate_quotes w qs st = (st', inr qs') ->
  length (concat (map quote_requests qs)) = (3 * length qs)%nat.
Proof.
  revert qs' st st'. induction qs as [|q qs IH]; intros qs' st st'; [done|].
  simpl.
  destruct (translate_quote w q st) as [s1 [e|q']] eqn:Hq; [done|].
  destruct (translate_quotes w qs s1) as [s2 [e|rest']] eqn:Hrest; [done|].
  intros _. rewrite length_app, (IH _ _ _ Hrest).
  unfold translate_quote in Hq. unfold quote_requests.
  destruct (dict_get "text" q); [simpl; lia|done].
Qed.

(** X7. What a translation of a file costs and touches.  A call of
    [translate_single_file] that returns has issued, for each quote in file
    order, the Korean, the Chinese and the Spanish request for the quote's
    text, three requests a quote and no other; in the file it writes, every
    key of every quote other than [text_ko], [text_zh] and [text_es] has the
    value it had.  A call that raises has issued a beginning of that
    sequence of requests. *)
Theorem translation_requests (name : string) (quotes : list dict)
    (st : state) :
  output st !! name = Some quotes ->
  let r := translate_single_file w name st in
  match r.2 with
  | inr n =>
      requests r.1 = requests st ++ concat (map quote_requests quotes)
      /\ length (concat (map quote_requests quotes))
         = (3 * length quotes)%nat
      /\ exists quotes',
           output r.1 !! name = Some quotes'
           /\ Forall2 (same_outside TARGET_FIELDS) quotes quotes'
  | inl _ =>
      exists new, requests r.1 = requests st ++ new
                  /\ new `prefix_of` concat (map quote_requests quotes)
  end.
Proof.
  intros Hfile. unfold translate_single_file. rewrite Hfile.
  pose proof (translate_quotes_effect quotes st) as H.
  destruct (translate_quotes w quotes st) as [st1 [e|quotes']] eqn:Htq;
    simpl in *; [done|].
  destruct H as [Hr Hall]. split; [done|].
  split; [by eapply translate_quotes_have_text|].
  exists quotes'. simpl. by rewrite lookup_insert_eq.
Qed.

End StageOperationFacts.

(** Two quotes, services that answer: six requests, the texts untouched. *)
Lemma translation_requests_witness :
  let quotes := [[("text", Py.JStr "one")]; [("text", Py.JStr "two")]] in
  let st := Spec.one_unit "a.txt" quotes in
  let r := Pipeline.translate_single_file (Spec.answering "ko")
             "a_quotes.json" st in
  match r.2 with
  | inr n =>
      Pipeline.requests r.1
      = Pipeline.requests st
        ++ concat (map MorePipeline.quote_requests quotes)
      /\ length (concat (map MorePipeline.quote_requests quotes))
         = (3 * length quotes)%nat
      /\ exists quotes',
           Pipeline.output r.1 !! "a_quotes.json" = Some quotes'
           /\ Forall2 (MorePipeline.same_outside Spec.TARGET_FIELDS)
                quotes quotes'
  | inl _ =>
      exists new, Pipeline.requests r.1 = Pipeline.requests st ++ new
                  /\ new `prefix_of`
                       concat (map MorePipeline.quote_requests quotes)
  end.
Proof.
  intros quotes st.
  apply (translation_requests (Spec.answering "ko") "a_quotes.json" quotes st).
  vm_compute. reflexivity.
Defined.

(** A transcript that cannot be read: three attempts, no request, and the
    unit is skipped with one entry in the checkpoint's error list. *)
Example unreadable_transcript_is_skipped :
  let r := Pipeline.extract_unit MorePipeline.unreadable "a.txt"
             Pipeline.initial_state in
  r.2 = false
  /\ Pipeline.requests r.1 = []
  /\ length (Pipeline.error_log r.1) = 3%nat
  /\ length (Checkpoint.errors (Checkpoint.data (Pipeline.checkpoint r.1)))
     = 1%nat
  /\ Pipeline.output r.1 = Pipeline.output Pipeline.initial_state.
Proof. by vm_compute. Qed.

Section StageFrames.
Import Py Checkpoint Pipeline Spec MorePipeline.
Context (w : world).

Lemma extraction_frame_refl (st : state) : extraction_frame st st.
Proof. by repeat split. Qed.

Lemma extraction_frame_trans (a b c : state) :
  extraction_frame a b -> extraction_frame b c -> extraction_frame a c.
Proof.
  unfold extraction_frame. intros (? & ? & ? & ? & ?) (? & ? & ? & ? & ?).
  repeat split; try congruence; by etrans.
Qed.

Lemma translation_frame_refl (st : state) : translation_frame st st.
Proof. by repeat split. Qed.

Lemma translation_frame_trans (a b c : state) :
  translation_frame a b -> translation_frame b c -> translation_frame a c.
Proof.
  unfold translation_frame.
  intros (? & ? & ? & ? & ? & Hab) (? & ? & ? & ? & ? & Hbc).
  repeat split; try congruence; try (by etrans).
  - intros ?. by apply Hab, Hbc.
  - intros ?. by apply Hbc, Hab.
Qed.

Lemma extract_unit_frame (f : string) (st : state) :
  extraction_frame st (extract_unit w f st).1.
Proof.
  unfold extract_unit.
  destruct (is_extracted f (checkpoint st)); [apply extraction_frame_refl|].
  pose proof (extract_loop_outcome w f st) as (_ & _ & H).
  destruct (extract_loop w f st) as [[st' done] k]; simpl in *.
  destruct done.
  - destruct H as (s & s1 & n & Hc & _ & Hat & -> & _).
    apply extract_single_file_returns in Hat as (Hc1 & _).
    unfold extraction_frame. simpl. rewrite Hc1, Hc.
    unfold mark_extracted; simpl.
    destruct (py_in f (extracted_files (data (checkpoint st)))); simpl;
      repeat split; try done. by eexists.
  - destruct H as (_ & _ & _ & msg & Hc).
    unfold extraction_frame. rewrite Hc. simpl.
    repeat split; try done. by eexists.
Qed.

Lemma translate_unit_frame (f : string) (st : state) :
  translation_frame st (translate_unit w f st).1.
Proof.
  unfold translate_unit.
  destruct (is_translated f (checkpoint st)); [apply translation_frame_refl|].
  destruct (negb _); [apply translation_frame_refl|].
  pose proof (translate_loop_outcome w f st) as (_ & _ & H).
  destruct (translate_loop w f st) as [[st' done] k]; simpl in *.
  destruct done.
  - destruct H as (s & s1 & n & Hc & Ho & Hat & -> & _).
    apply translate_single_file_returns in Hat
      as (s2 & qs & qs' & Hfile & _ & (Hc2 & Ho2 & _) & -> & _).
    unfold translation_frame. simpl. rewrite Hc2, Hc, Ho2, Ho.
    assert (Hdom : forall name,
              is_Some (<[quotes_filename f := qs']> (output st) !! name)
              <-> is_Some (output st !! name)).
    { intros name. destruct (decide (name = quotes_filename f)) as [->|?].
      - rewrite lookup_insert_eq. rewrite <- Ho, Hfile. by split; eexists.
      - by rewrite lookup_insert_ne. }
    unfold mark_translated; simpl.
    destruct (py_in f (translated_files (data (checkpoint st)))); simpl;
      repeat split; try done; try apply Hdom. by eexists.
  - destruct H as (Ho & _ & _ & msg & Hc).
    unfold translation_frame. rewrite Hc, Ho. simpl.
    repeat split; try done. by eexists.
Qed.

(** X8. Each stage keeps to its own side of the checkpoint.  Over a whole
    batch, extraction only appends to [extracted_files] and to the error
    log: the list and the counter of translated files and the start time
    are as before.  Translation only appends to [translated_files] and to
    the error log: the list and the counter of extracted files and the
    start time are as before, and the quote files that exist afterwards are
    those that existed before. *)
Theorem stages_keep_to_their_side (batch : list string) (st : state) :
  extraction_frame st (process_batch_extract w batch st).1
  /\ translation_frame st (process_batch_translate w batch st).1.
Proof.
  unfold process_batch_extract, process_batch_translate. split.
  - revert st. induction batch as [|f batch IH]; intros st;
      [apply extraction_frame_refl|].
    rewrite process_batch_cons.
    eapply extraction_frame_trans; [apply extract_unit_frame|apply IH].
  - revert st. induction batch as [|f batch IH]; intros st;
      [apply translation_frame_refl|].
    rewrite process_batch_cons.
    eapply translation_frame_trans; [apply translate_unit_frame|apply IH].
Qed.

End StageFrames.

Section AttemptCount.
Import Py Checkpoint Pipeline Spec.
Context (w : world).
Variable attempt : state -> state * (string + Z).
Variable mark : Z -> manager -> manager.
Variable describe : string.
Hypothesis attempt_keeps_log :
  forall s, error_log (attempt s).1 = error_log s.

(** The attempts made are the failures logged, plus the one that
    succeeded. *)
Lemma retry_loop_attempts (remaining retry_count : nat) (st : state) :
  let r := retry_loop w attempt mark describe remaining retry_count st in
  (r.2 + length (error_log st)
   = retry_count + length (error_log r.1.1) + (if r.1.2 then 1 else 0))%nat.
Proof.
  revert retry_count st.
  induction remaining as [|remaining IH]; intros rc st; simpl; [lia|].
  pose proof (attempt_keeps_log st) as Hlog.
  destruct (attempt st) as [st1 [e|n]]; simpl in *.
  - destruct (S rc <? MAX_RETRIES)%nat.
    + match goal with |- context [retry_loop _ _ _ _ _ _ ?s] =>
        specialize (IH (S rc) s) end.
      simpl in IH. rewrite length_app, Hlog in IH. simpl in IH. lia.
    + match goal with |- context [retry_loop _ _ _ _ _ _ ?s] =>
        specialize (IH (S rc) s) end.
      simpl in IH. rewrite length_app, Hlog in IH. simpl in IH. lia.
  - rewrite Hlog. lia.
Qed.

End AttemptCount.

Section EventualSuccess.
Import Py Checkpoint Pipeline Spec MorePipeline.
Context (w : world).

(** X9. A unit that ends processed was charged once and left no trace in
    the checkpoint's error list, however many attempts it took.  When the
    extraction loop of a file not yet listed ends with a success, the
    attempts made are the failures written to the log plus one; the error
    list of the checkpoint is as before; the file name is appended to
    [extracted_files]; the quote counter grows by the number of quotes of
    the file written and the cost by [COST_PER_FILE_EXTRACT_USD].  The
    same holds of the translation loop with [translated_files], its
    counter and [COST_PER_FILE_TRANSLATE_USD]. *)
Theorem success_is_charged_once (filename : string) (st : state) :
  let d := data (checkpoint st) in
  (let r := extract_loop w filename st in
   r.1.2 = true -> is_extracted filename (checkpoint st) = false ->
   let d' := data (checkpoint r.1.1) in
   (r.2 = length (error_log r.1.1) - length (error_log st) + 1)%nat
   /\ errors d' = errors d
   /\ extracted_files d' = extracted_files d ++ [filename]
   /\ total_cost_usd d' = (total_cost_usd d + COST_PER_FILE_EXTRACT_USD)%float
   /\ exists quotes,
        output r.1.1 !! output_filename filename = Some quotes
        /\ total_quotes_extracted d'
           = total_quotes_extracted d + Z.of_nat (length quotes))
  /\ (let r := translate_loop w filename st in
      r.1.2 = true -> is_translated filename (checkpoint st) = false ->
      let d' := data (checkpoint r.1.1) in
      (r.2 = length (error_log r.1.1) - length (error_log st) + 1)%nat
      /\ errors d' = errors d
      /\ translated_files d' = translated_files d ++ [filename]
      /\ total_cost_usd d'
         = (total_cost_usd d + COST_PER_FILE_TRANSLATE_USD)%float
      /\ exists quotes,
           output r.1.1 !! quotes_filename filename = Some quotes
           /\ total_quotes_translated d'
              = total_quotes_translated d + Z.of_nat (length quotes)).
Proof.
  intros d. split.
  - intros r Hdone Hnot d'.
    pose proof (extract_loop_outcome w filename st) as (_ & [Hle _] & H).
    pose proof (retry_loop_attempts w (extract_single_file w filename)
                  (fun n => mark_extracted filename n
                              COST_PER_FILE_EXTRACT_USD)
                  ("Extract " +:+ filename)
                  (fun s => proj1 (proj2
                     (extract_single_file_checkpoint w filename s)))
                  MAX_RETRIES 0 st) as Hk.
    fold (extract_loop w filename st) in Hk.
    subst d'. fold r in H, Hk, Hle.
    destruct r as [[st' done] k]; simpl in *. subst done.
    split; [lia|].
    destruct H as (s & s1 & n & Hc & Ho & Hat & -> & _).
    unfold extract_single_file in Hat.
    destruct (transcript_of w filename) as [e0|transcript]; [done|].
    destruct (extract_service _ _ _ _) as [e|answer]; [done|].
    destruct (enrich_quotes_with_speaker_info _ _) as [e|quotes]; [done|].
    injection Hat as <- <-. simpl. rewrite Hc.
    unfold is_extracted in Hnot. unfold mark_extracted; simpl.
    rewrite Hnot. simpl. repeat split; try done.
    exists quotes. by rewrite lookup_insert_eq.
  - intros r Hdone Hnot d'.
    pose proof (translate_loop_outcome w filename st) as (_ & [Hle _] & H).
    pose proof (retry_loop_attempts w
                  (translate_single_file w (quotes_filename filename))
                  (fun n => mark_translated filename n
                              COST_PER_FILE_TRANSLATE_USD)
                  ("Translate " +:+ quotes_filename filename)
                  (fun s => proj1 (proj2
                     (translate_single_file_checkpoint w
                        (quotes_filename filename) s)))
                  MAX_RETRIES 0 st) as Hk.
    fold (translate_loop w filename st) in Hk.
    subst d'. fold r in H, Hk, Hle.
    destruct r as [[st' done] k]; simpl in *. subst done.
    split; [lia|].
    destruct H as (s & s1 & n & Hc & Ho & Hat & -> & _).
    apply translate_single_file_returns in Hat
      as (s2 & qs & qs' & Hfile & _ & (Hc2 & Ho2 & _) & -> & ->).
    simpl. rewrite Hc2, Hc.
    unfold is_translated in Hnot. unfold mark_translated; simpl.
    rewrite Hnot. simpl. repeat split; try done.
    exists qs'. by rewrite lookup_insert_eq.
Qed.

End EventualSuccess.

(** The extraction service raises once and then answers: two attempts, one
    line in the log, no error entry, one file name, one quote. *)
Lemma success_is_charged_once_witness :
  let st := Pipeline.initial_state in
  let r := Pipeline.extract_loop (MorePipeline.flaky 1) "a.txt" st in
  let d := Checkpoint.data (Pipeline.checkpoint st) in
  let d' := Checkpoint.data (Pipeline.checkpoint r.1.1) in
  (r.2 = length (Pipeline.error_log r.1.1) - length (Pipeline.error_log st)
         + 1)%nat
  /\ Checkpoint.errors d' = Checkpoint.errors d
  /\ Checkpoint.extracted_files d' = Checkpoint.extracted_files d ++ ["a.txt"]
  /\ Checkpoint.total_cost_usd d'
     = (Checkpoint.total_cost_usd d
        + Pipeline.COST_PER_FILE_EXTRACT_USD)%float
  /\ exists quotes,
       Pipeline.output r.1.1 !! Pipeline.output_filename "a.txt" = Some quotes
       /\ Checkpoint.total_quotes_extracted d'
          = Checkpoint.total_quotes_extracted d + Z.of_nat (length quotes).
Proof.
  intros st r d d'.
  apply (proj1 (success_is_charged_once (MorePipeline.flaky 1) "a.txt" st));
    reflexivity.
Defined.

Example success_after_one_failure :
  let r := Pipeline.extract_loop (MorePipeline.flaky 1) "a.txt"
             Pipeline.initial_state in
  r.2 = 2%nat
  /\ Pipeline.error_log r.1.1 = ["Extract a.txt (attempt 1): overloaded"]
  /\ Checkpoint.errors (Checkpoint.data (Pipeline.checkpoint r.1.1)) = [].
Proof. by vm_compute. Qed.

Section ProcessedCount.
Import Py Checkpoint Pipeline Spec MorePipeline.
Context (w : world).

(** A unit is counted as processed exactly when it is listed afterwards,
    and no other name gets listed. *)
Lemma extract_unit_counted (f : string) (st : state) :
  let r := extract_unit w f st in
  r.2 = is_extracted f (checkpoint r.1)
  /\ forall g, is_extracted g (checkpoint r.1) = true ->
       is_extracted g (checkpoint st) = true \/ g = f.
Proof.
  unfold extract_unit.
  destruct (is_extracted f (checkpoint st)) eqn:Hf; simpl; [by auto|].
  pose proof (extract_loop_outcome w f st) as (_ & _ & H).
  destruct (extract_loop w f st) as [[st' done] k]; simpl in *.
  destruct done.
  - destruct H as (s & s1 & n & Hc & _ & Hat & -> & _).
    apply extract_single_file_returns in Hat as (Hc1 & _).
    simpl. rewrite Hc1, Hc. split.
    + symmetry. apply is_extracted_mark. by right.
    + intros g Hg. by apply is_extracted_mark in Hg.
  - destruct H as (_ & _ & _ & msg & Hc).
    unfold is_extracted in *. rewrite Hc. simpl. by auto.
Qed.

Lemma translate_unit_counted (f : string) (st : state) :
  let r := translate_unit w f st in
  r.2 = is_translated f (checkpoint r.1)
  /\ forall g, is_translated g (checkpoint r.1) = true ->
       is_translated g (checkpoint st) = true \/ g = f.
Proof.
  unfold translate_unit.
  destruct (is_translated f (checkpoint st)) eqn:Hf; simpl; [by auto|].
  destruct (negb _); simpl; [by auto|].
  pose proof (translate_loop_outcome w f st) as (_ & _ & H).
  destruct (translate_loop w f st) as [[st' done] k]; simpl in *.
  destruct done.
  - destruct H as (s & s1 & n & Hc & _ & Hat & -> & _).
    pose proof (translate_single_file_checkpoint w (quotes_filename f) s)
      as (Hc1 & _).
    rewrite Hat in Hc1. simpl in *. rewrite Hc1, Hc. split.
    + symmetry. apply is_translated_mark_iff. by right.
    + intros g Hg. by apply is_translated_mark_iff in Hg.
  - destruct H as (_ & _ & _ & msg & Hc).
    unfold is_translated in *. rewrite Hc. simpl. by auto.
Qed.

(** The count of a batch loop whose units report whether they are listed
    afterwards. *)
Lemma process_batch_counted (unit : string -> state -> state * bool)
    (listed : string -> state -> bool) (batch : list string) (st : state) :
  (forall f s, (unit f s).2 = listed f (unit f s).1
               /\ (forall g, listed g (unit f s).1 = true ->
                             listed g s = true \/ g = f)
               /\ (forall g, listed g s = true ->
                             listed g (unit f s).1 = true)) ->
  NoDup batch ->
  let r := process_batch unit batch st in
  r.2 = Z.of_nat (length (List.filter (fun f => listed f r.1) batch))
  /\ (forall g, listed g r.1 = true -> listed g st = true \/ g ∈ batch)
  /\ (forall g, listed g st = true -> listed g r.1 = true).
Proof.
  intros Hunit. revert st.
  induction batch as [|f batch IH]; intros st Hnd; [by simpl; auto|].
  apply NoDup_cons in Hnd as [Hf Hnd].
  destruct (Hunit f st) as (Hdone & Honly & Hmono).
  specialize (IH (unit f st).1 Hnd). simpl in IH.
  cbn [process_batch].
  destruct (unit f st) as [st1 done]; simpl in *.
  destruct (process_batch unit batch st1) as [st2 n]; simpl in *.
  destruct IH as (Hn & Honly2 & Hmono2).
  assert (Hsame : listed f st2 = done).
  { subst done. destruct (listed f st1) eqn:H1; [by apply Hmono2|].
    destruct (listed f st2) eqn:H2; [|done].
    destruct (Honly2 f H2) as [?|?]; [congruence|done]. }
  split; [|split].
  - rewrite Hsame, Hn. destruct done; simpl; lia.
  - intros g Hg. destruct (Honly2 g Hg) as [Hg1|?]; [|by right; right].
    destruct (Honly g Hg1) as [?| ->]; [by left|right; by left].
  - intros g Hg. by apply Hmono2, Hmono.
Qed.

(** X10. The value a batch function returns.  For a batch of distinct
    files, [process_batch_extract] returns the number of files of the batch
    that are listed in [extracted_files] when it ends, and
    [process_batch_translate] the number of those listed in
    [translated_files]; the files skipped after exhausting their attempts,
    or for want of a quote file, are the ones not counted.  Neither lists a
    file that is not of the batch. *)
Theorem batch_processed_counts_listed (batch : list string) (st : state) :
  NoDup batch ->
  (let r := process_batch_extract w batch st in
   r.2 = Z.of_nat (length (List.filter
                             (fun f => is_extracted f (checkpoint r.1))
                             batch))
   /\ forall g, is_extracted g (checkpoint r.1) = true ->
        is_extracted g (checkpoint st) = true \/ g ∈ batch)
  /\ (let r := process_batch_translate w batch st in
      r.2 = Z.of_nat (length (List.filter
                                (fun f => is_translated f (checkpoint r.1))
                                batch))
      /\ forall g, is_translated g (checkpoint r.1) = true ->
           is_translated g (checkpoint st) = true \/ g ∈ batch).
Proof.
  intros Hnd. unfold process_batch_extract, process_batch_translate. split.
  - destruct (process_batch_counted (extract_unit w)
                (fun f s => is_extracted f (checkpoint s)) batch st)
      as (? & ? & _); [|done|done].
    intros f s. destruct (extract_unit_counted f s) as [? ?].
    split; [done|]. split; [done|].
    apply (ext_extracted _ _ (extract_unit_extends w f s)).
  - destruct (process_batch_counted (translate_unit w)
                (fun f s => is_translated f (checkpoint s)) batch st)
      as (? & ? & _); [|done|done].
    intros f s. destruct (translate_unit_counted f s) as [? ?].
    split; [done|]. split; [done|].
    apply (ext_translated _ _ (translate_unit_extends w f s)).
Qed.

Lemma set_start_time_extends (st : state) :
  extends st (checkpoint_set_start_time w st).
Proof.
  unfold checkpoint_set_start_time.
  destruct (start_time (data (checkpoint st))) eqn:Hs; [apply extends_refl|].
  split; simpl; try done;
    unfold is_extracted, is_translated, set_start_time; rewrite Hs; simpl;
    auto; try (intros _; by eexists).
Qed.

Lemma set_start_time_saved (st : state) :
  checkpoint st = init (checkpoint_file (checkpoint st)) ->
  let st' := checkpoint_set_start_time w st in
  checkpoint_file (checkpoint st') = Some (data (checkpoint st'))
  /\ is_Some (start_time (data (checkpoint st'))).
Proof.
  intros Hinit. unfold checkpoint_set_start_time.
  destruct (start_time (data (checkpoint st))) as [t|] eqn:Hs.
  - cbv zeta. rewrite Hs. split; [|by eexists].
    rewrite Hinit in Hs |- *.
    by destruct (checkpoint_file (checkpoint st)).
  - cbv zeta. unfold set_start_time. rewrite Hs. simpl.
    split; [done|by eexists].
Qed.

(** X11. A run keeps the progress made.  [run] is [main] for an operator
    who resumes from the checkpoint and confirms, from the creation of the
    checkpoint manager to the end of the batch loop (clearing the checkpoint
    and deleting its file are choices of the operator outside it).  From
    the state a process finds when it starts (its manager is the one read
    from the checkpoint file), over any corpus and with any services, such
    a run removes no file name from [extracted_files] or
    [translated_files], deletes no quote file, does not shorten the error
    log, keeps a recorded start time and a saved checkpoint, and keeps a
    quote file for every extracted file if that held before.  Over a corpus
    that is not empty it ends with a start time recorded and the checkpoint
    file holding the checkpoint. *)
Theorem run_never_loses_progress (files : list string) (st : state) :
  checkpoint st = init (checkpoint_file (checkpoint st)) ->
  let st' := run w files st in
  extends st st'
  /\ (files <> [] ->
      checkpoint_file (checkpoint st') = Some (data (checkpoint st'))
      /\ is_Some (start_time (data (checkpoint st')))).
Proof.
  intros Hinit. unfold run.
  assert (H0 : with_checkpoint (fun m => init (checkpoint_file m)) st = st).
  { destruct st as [m o r e c]; simpl in *. unfold with_checkpoint. simpl.
    by rewrite <- Hinit. }
  rewrite H0. destruct files as [|f0 files'].
  { split; [apply extends_refl|done]. }
  set (fs := f0 :: files').
  pose proof (set_start_time_saved st Hinit) as [Hsaved Hstart].
  assert (Hloop : forall ks s,
            extends s (foldl (run_batch w fs) s ks)).
  { intros ks. induction ks as [|k ks IH]; intros s; [apply extends_refl|].
    simpl. eapply extends_trans; [apply run_batch_extends|apply IH]. }
  specialize (Hloop (seq 1 ((length fs + BATCH_SIZE - 1) / BATCH_SIZE))
                (checkpoint_set_start_time w st)).
  cbv zeta. split.
  - eapply extends_trans; [apply set_start_time_extends|apply Hloop].
  - intros _. split.
    + by apply (ext_saved _ _ Hloop).
    + by apply (ext_start _ _ Hloop).
Qed.

End ProcessedCount.

(** A batch of three files of which the second was already listed and the
    third has no quote file: the translation counts two. *)
Lemma batch_processed_counts_listed_witness :
  let st := Pipeline.with_checkpoint
              (Checkpoint.mark_translated "b.txt" 1
                 Pipeline.COST_PER_FILE_TRANSLATE_USD)
              (Spec.one_unit "a.txt" [[("text", Py.JStr "one")]]) in
  let r := Pipeline.process_batch_translate (Spec.answering "ko")
             ["a.txt"; "b.txt"; "c.txt"] st in
  r.2 = Z.of_nat (length (List.filter
          (fun f => Checkpoint.is_translated f (Pipeline.checkpoint r.1))
          ["a.txt"; "b.txt"; "c.txt"]))
  /\ forall g, Checkpoint.is_translated g (Pipeline.checkpoint r.1) = true ->
       Checkpoint.is_translated g (Pipeline.checkpoint st) = true
       \/ g ∈ ["a.txt"; "b.txt"; "c.txt"].
Proof.
  intros st.
  refine (proj2 (batch_processed_counts_listed (Spec.answering "ko")
                   ["a.txt"; "b.txt"; "c.txt"] st _)).
  apply (bool_decide_unpack (NoDup ["a.txt"; "b.txt"; "c.txt"])).
  vm_compute. exact I.
Defined.

Example batch_processed_two_of_three :
  let st := Pipeline.with_checkpoint
              (Checkpoint.mark_translated "b.txt" 1
                 Pipeline.COST_PER_FILE_TRANSLATE_USD)
              (Spec.one_unit "a.txt" [[("text", Py.JStr "one")]]) in
  (Pipeline.process_batch_translate (Spec.answering "ko")
     ["a.txt"; "b.txt"; "c.txt"] st).2 = 2.
Proof. by vm_compute. Qed.

(** A second run that fails throughout, after a first run that extracted
    and translated one file at its second attempt: the file stays listed,
    its quote file stays, the log keeps its entry and grows, and the
    checkpoint is saved. *)
Lemma run_never_loses_progress_witness :
  let st1 := Pipeline.run (MorePipeline.flaky 1) ["a.txt"]
               Pipeline.initial_state in
  let st2 := Pipeline.run Spec.failing ["a.txt"; "b.txt"] st1 in
  (Checkpoint.is_extracted "a.txt" (Pipeline.checkpoint st1) = true
   /\ Checkpoint.is_translated "a.txt" (Pipeline.checkpoint st1) = true
   /\ is_Some (Pipeline.output st1 !! "a_quotes.json")
   /\ length (Pipeline.error_log st1) = 1%nat
   /\ length (Pipeline.error_log st2) = 4%nat)
  /\ Spec.extends st1 st2
  /\ Checkpoint.checkpoint_file (Pipeline.checkpoint st2)
     = Some (Checkpoint.data (Pipeline.checkpoint st2)).
Proof.
  intros st1 st2.
  split.
  { split; [by vm_compute|]. split; [by vm_compute|].
    split; [vm_compute; by eexists|]. split; by vm_compute. }
  assert (Hinit : Pipeline.checkpoint st1
                  = Checkpoint.init
                      (Checkpoint.checkpoint_file (Pipeline.checkpoint st1)))
    by (vm_compute; reflexivity).
  destruct (run_never_loses_progress Spec.failing ["a.txt"; "b.txt"] st1
              Hinit) as [Hext Hsaved].
  split; [exact Hext|]. by apply Hsaved.
Defined.

(** ** More on the alignment *)

Section TimestampShape.
Import Py FixTimestamps AlignSpec MoreAlign.

Lemma digit_not_colon (c : ascii) :
  is_digit c = true -> Ascii.eqb c ":" = false.
Proof.
  destruct (Ascii.eqb_spec c ":") as [->|]; [|done]. by vm_compute.
Qed.

Lemma digit_not_sign (c : ascii) :
  is_digit c = true -> Ascii.eqb c "+" || Ascii.eqb c "-" = false.
Proof.
  destruct (Ascii.eqb_spec c "+") as [->|]; [by vm_compute|].
  destruct (Ascii.eqb_spec c "-") as [->|]; [by vm_compute|done].
Qed.

Lemma match_tail_digits (t tl : text) :
  match_tail t = Some tl ->
  exists m1 m2 s1 s2,
    tl = [":"%char; m1; m2; ":"%char; s1; s2]
    /\ is_digit m1 = true /\ is_digit m2 = true
    /\ is_digit s1 = true /\ is_digit s2 = true.
Proof.
  unfold match_tail.
  destruct t as [|c1 [|m1 [|m2 [|c2 [|s1 [|s2 [|p rest]]]]]]]; try done.
  destruct (Ascii.eqb_spec c1 ":") as [->|]; [|done].
  destruct (is_digit m1) eqn:H2; [|done].
  destruct (is_digit m2) eqn:H3; [|done].
  destruct (Ascii.eqb_spec c2 ":") as [->|]; [|done].
  destruct (is_digit s1) eqn:H5; [|done].
  destruct (is_digit s2) eqn:H6; [|done].
  destruct (Ascii.eqb p ")"); [|done].
  simpl. intros [= <-]. by exists m1, m2, s1, s2.
Qed.

(** The text of a marker is one or two digits of hours, then minutes and
    seconds of two digits each. *)
Lemma match_marker_digits (t ts : text) :
  match_marker t = Some ts ->
  exists h m1 m2 s1 s2,
    ts = h ++ [":"%char; m1; m2; ":"%char; s1; s2]
    /\ (length h = 1 \/ length h = 2)%nat
    /\ Forall (fun c => is_digit c = true) h
    /\ is_digit m1 = true /\ is_digit m2 = true
    /\ is_digit s1 = true /\ is_digit s2 = true.
Proof.
  unfold match_marker. destruct t as [|p [|d1 r1]]; try done.
  destruct (Ascii.eqb p "("); [|done].
  destruct (is_digit d1) eqn:Hd1; [|done]. simpl.
  assert (Hone : option_map (cons d1) (match_tail r1) = Some ts ->
    exists h m1 m2 s1 s2,
      ts = h ++ [":"%char; m1; m2; ":"%char; s1; s2]
      /\ (length h = 1 \/ length h = 2)%nat
      /\ Forall (fun c => is_digit c = true) h
      /\ is_digit m1 = true /\ is_digit m2 = true
      /\ is_digit s1 = true /\ is_digit s2 = true).
  { destruct (match_tail r1) as [tl|] eqn:Ht; [|done]. intros [= <-].
    apply match_tail_digits in Ht as (m1 & m2 & s1 & s2 & -> & ?).
    exists [d1], m1, m2, s1, s2. split; [done|]. split; [by left|].
    split; [by repeat constructor|done]. }
  destruct r1 as [|d2 r2]; [done|].
  destruct (is_digit d2) eqn:Hd2; [|done].
  destruct (match_tail r2) as [tl|] eqn:Ht; [|done]. intros [= <-].
  apply match_tail_digits in Ht as (m1 & m2 & s1 & s2 & -> & ?).
  exists [d1; d2], m1, m2, s1, s2. split; [done|]. split; [by right|].
  split; [by repeat constructor|done].
Qed.

Lemma normalize_marker (h : text) (m1 m2 s1 s2 : ascii) :
  (length h = 1 \/ length h = 2)%nat ->
  Forall (fun c => is_digit c = true) h ->
  is_digit m1 = true -> is_digit m2 = true ->
  is_digit s1 = true -> is_digit s2 = true ->
  normalize_timestamp (h ++ [":"%char; m1; m2; ":"%char; s1; s2])
  = zfill 2 h ++ [":"%char; m1; m2; ":"%char; s1; s2]
  /\ is_hhmmss (zfill 2 h ++ [":"%char; m1; m2; ":"%char; s1; s2]) = true.
Proof.
  intros Hlen Hh Hm1 Hm2 Hs1 Hs2.
  destruct h as [|d1 [|d2 [|]]]; simpl in Hlen; try lia.
  - apply Forall_cons in Hh as [Hd1 _].
    unfold normalize_timestamp, zfill. simpl.
    rewrite !digit_not_colon by assumption. simpl.
    rewrite (digit_not_sign d1 Hd1). simpl.
    by rewrite Hd1, Hm1, Hm2, Hs1, Hs2.
  - apply Forall_cons in Hh as [Hd1 [Hd2 _]%Forall_cons].
    unfold normalize_timestamp, zfill. simpl.
    rewrite !digit_not_colon by assumption. simpl.
    rewrite (digit_not_sign d1 Hd1). simpl.
    by rewrite Hd1, Hd2, Hm1, Hm2, Hs1, Hs2.
Qed.

Lemma normalize_hhmmss (t : text) :
  is_hhmmss t = true -> normalize_timestamp t = t.
Proof.
  unfold is_hhmmss.
  destruct t as [|h1 [|h2 [|c1 [|m1 [|m2 [|c2 [|s1 [|s2 [|]]]]]]]]];
    try done.
  rewrite !andb_true_iff.
  intros (((((((Hh1 & Hh2) & Hc1) & Hm1) & Hm2) & Hc2) & Hs1) & Hs2).
  apply Ascii.eqb_eq in Hc1, Hc2. subst c1 c2.
  destruct (normalize_marker [h1; h2] m1 m2 s1 s2) as [Hn _];
    [by right|by repeat constructor|done..|].
  simpl in Hn. rewrite Hn. unfold zfill. simpl.
  by destruct (Ascii.eqb h1 "+" || Ascii.eqb h1 "-").
Qed.

Lemma search_in_window_marker (t : text) (q w : nat) (ts : text) :
  search_in_window t q w = Some ts -> exists i, marker_at (take q t) i ts.
Proof.
  intros H. pose proof (search_in_window_spec t q w) as Hs.
  rewrite H in Hs. destruct Hs as (i & [[_ Hm] _]). by exists i.
Qed.

Lemma find_timestamp_shape (t : text) (q : nat) (r : text) :
  find_timestamp_before_position t q = Some r -> is_hhmmss r = true.
Proof.
  rewrite find_timestamp_cascade.
  pose proof (first_window_spec t q) as H.
  destruct (first_window t q) as [ts|]; [|done].
  destruct H as (i & Hm & _). intros [= <-].
  apply match_marker_digits in Hm
    as (h & m1 & m2 & s1 & s2 & -> & Hlen & Hh & ? & ? & ? & ?).
  by destruct (normalize_marker h m1 m2 s1 s2) as [-> ->].
Qed.

(** X12. Every timestamp the resolver returns has the zero-padded form
    [HH:MM:SS], whether the marker gave one or two digits of hours, and
    normalizing it again changes nothing. *)
Theorem resolved_timestamp_is_padded (t : text) (q : nat) :
  match find_timestamp_before_position t q with
  | Some r => is_hhmmss r = true /\ normalize_timestamp r = r
  | None => True
  end.
Proof.
  destruct (find_timestamp_before_position t q) as [r|] eqn:H; [|done].
  apply find_timestamp_shape in H. split; [done|].
  by apply normalize_hhmmss.
Qed.

End TimestampShape.

Example padded_one_digit_hour :
  option_map Py.to_string
    (FixTimestamps.find_timestamp_before_position AlignSpec.far_marker 300)
  = Some "01:02:03".
Proof. by vm_compute. Qed.

Section CleanText.
Import Py FixTimestamps AlignSpec MoreAlign.

Lemma replace_char_same (c : ascii) (t : text) : replace_char c c t = t.
Proof.
  unfold replace_char. induction t as [|x t IH]; [done|]. simpl.
  rewrite IH. by destruct (Ascii.eqb_spec x c) as [->|].
Qed.

Lemma clean_text_unfold (t : text) :
  clean_text_for_search t = strip (collapse_ws false t).
Proof. unfold clean_text_for_search. by rewrite !replace_char_same. Qed.

Lemma ws_ok_weaken (t : text) : ws_ok true t = true -> ws_ok false t = true.
Proof.
  destruct t as [|c r]; [done|]. simpl.
  destruct (is_space c); [|done]. rewrite andb_false_r. done.
Qed.

Lemma collapse_ws_ok (b : bool) (t : text) :
  ws_ok b (collapse_ws b t) = true.
Proof.
  revert b. induction t as [|c r IH]; intros b; [done|]. simpl.
  destruct (is_space c) eqn:Hc.
  - destruct b; [apply IH|]. simpl. by rewrite IH.
  - simpl. rewrite Hc. apply IH.
Qed.

Lemma collapse_ws_fixed (b : bool) (t : text) :
  ws_ok b t = true -> collapse_ws b t = t.
Proof.
  revert b. induction t as [|c r IH]; intros b; [done|]. simpl.
  destruct (is_space c) eqn:Hc.
  - rewrite !andb_true_iff. intros [[->%Ascii.eqb_eq Hb] Hr].
    destruct b; [done|]. by rewrite IH.
  - intros Hr. by rewrite IH.
Qed.

Lemma ws_ok_tail (b : bool) (c : ascii) (r : text) :
  ws_ok b (c :: r) = true -> ws_ok false r = true.
Proof.
  simpl. destruct (is_space c); [|done].
  rewrite !andb_true_iff. intros [_ ?]. by apply ws_ok_weaken.
Qed.

Lemma ws_ok_prefix (b : bool) (l1 l2 : text) :
  ws_ok b (l1 ++ l2) = true -> ws_ok b l1 = true.
Proof.
  revert b. induction l1 as [|c l1 IH]; intros b; [done|]. simpl.
  destruct (is_space c); [|apply IH].
  rewrite !andb_true_iff. intros [? ?]. split; [done|]. by eapply IH.
Qed.

Lemma lstrip_suffix (t : text) : exists l, t = l ++ lstrip t.
Proof.
  induction t as [|c r [l IH]]; [by exists []|]. simpl.
  destruct (is_space c); [|by exists []].
  exists (c :: l). simpl. by rewrite <- IH.
Qed.

Lemma rstrip_prefix (t : text) : exists l, t = rstrip t ++ l.
Proof.
  unfold rstrip. destruct (lstrip_suffix (rev t)) as [l Hl].
  exists (rev l). rewrite <- rev_app_distr, <- Hl. by rewrite rev_involutive.
Qed.

Lemma ws_ok_suffix (b : bool) (l1 l2 : text) :
  ws_ok b (l1 ++ l2) = true -> ws_ok false l2 = true.
Proof.
  revert b. induction l1 as [|c l1 IH]; intros b; simpl.
  - destruct b; [apply ws_ok_weaken|done].
  - destruct (is_space c); [|apply IH].
    rewrite !andb_true_iff. intros [_ ?]. by eapply IH.
Qed.

Lemma lstrip_no_leading (t : text) : no_leading_space (lstrip t).
Proof.
  induction t as [|c r IH]; [by intros ? ?|]. simpl.
  destruct (is_space c) eqn:Hc; [done|]. by intros c' r' [= <- _].
Qed.

Lemma lstrip_fixed (t : text) : no_leading_space t -> lstrip t = t.
Proof.
  destruct t as [|c r]; [done|]. intros H. simpl.
  by rewrite (H c r eq_refl).
Qed.

Lemma no_leading_rev (t : text) :
  no_leading_space (rev t) <-> no_trailing_space t.
Proof.
  split.
  - intros H l c ->. apply (H c (rev l)). by rewrite rev_app_distr.
  - intros H c r Hr. apply (H (rev r) c).
    rewrite <- (rev_involutive t), Hr. done.
Qed.

Lemma rstrip_no_trailing (t : text) : no_trailing_space (rstrip t).
Proof.
  unfold rstrip. apply no_leading_rev. rewrite rev_involutive.
  apply lstrip_no_leading.
Qed.

Lemma rstrip_fixed (t : text) : no_trailing_space t -> rstrip t = t.
Proof.
  intros H. unfold rstrip. rewrite lstrip_fixed by (by apply no_leading_rev).
  apply rev_involutive.
Qed.

Lemma rstrip_keeps_leading (t : text) :
  no_leading_space t -> no_leading_space (rstrip t).
Proof.
  intros H c r Hr. destruct (rstrip_prefix t) as [l Hl].
  rewrite Hr in Hl. by apply (H c (r ++ l)).
Qed.

Lemma strip_normal (t : text) :
  no_leading_space (strip t) /\ no_trailing_space (strip t).
Proof.
  unfold strip. split.
  - apply rstrip_keeps_leading, lstrip_no_leading.
  - apply rstrip_no_trailing.
Qed.

Lemma strip_fixed (t : text) :
  no_leading_space t -> no_trailing_space t -> strip t = t.
Proof.
  intros Hl Hr. unfold strip. rewrite lstrip_fixed by done.
  by apply rstrip_fixed.
Qed.

Lemma strip_ws_ok (t : text) : ws_ok false t = true -> ws_ok false (strip t) = true.
Proof.
  intros H. unfold strip.
  destruct (lstrip_suffix t) as [l1 Hl1].
  destruct (rstrip_prefix (lstrip t)) as [l2 Hl2].
  rewrite Hl1 in H. apply ws_ok_suffix in H.
  rewrite Hl2 in H. by apply ws_ok_prefix in H.
Qed.

Lemma strip_shorter (t : text) : (length (strip t) <= length t)%nat.
Proof.
  unfold strip.
  destruct (lstrip_suffix t) as [l1 Hl1].
  destruct (rstrip_prefix (lstrip t)) as [l2 Hl2].
  rewrite Hl1 at 2. rewrite Hl2 at 2. rewrite !length_app. lia.
Qed.

Lemma collapse_shorter (b : bool) (t : text) :
  (length (collapse_ws b t) <= length t)%nat.
Proof.
  revert b. induction t as [|c r IH]; intros b; [done|]. simpl.
  destruct (is_space c); [destruct b|]; simpl;
    try (specialize (IH true); lia); specialize (IH false); lia.
Qed.

(** X13. The normalization used to search is a projection: the text it
    returns has no whitespace but single spaces between other characters
    (none at either end, none doubled, no tab or line break), it is no
    longer than the text given, and normalizing it again returns it
    unchanged. *)
Theorem clean_text_is_normal_form (t : text) :
  let c := clean_text_for_search t in
  ws_ok false c = true
  /\ no_leading_space c /\ no_trailing_space c
  /\ (length c <= length t)%nat
  /\ clean_text_for_search c = c.
Proof.
  intros c. subst c. rewrite !clean_text_unfold.
  pose proof (strip_normal (collapse_ws false t)) as [Hl Hr].
  pose proof (strip_ws_ok _ (collapse_ws_ok false t)) as Hok.
  split; [done|]. split; [done|]. split; [done|]. split.
  - etrans; [apply strip_shorter|apply collapse_shorter].
  - rewrite (collapse_ws_fixed false) by done. by apply strip_fixed.
Qed.

End CleanText.

Example clean_text_example :
  Py.to_string
    (FixTimestamps.clean_text_for_search
       (Py.of_string "  Growth   is about retention.  "))
  = "Growth is about retention.".
Proof. by vm_compute. Qed.

Section PositionBounds.
Import Py FixTimestamps AlignSpec MoreAlign.

Lemma find_bounds (t sub : text) :
  -1 <= find t sub <= Z.of_nat (length t).
Proof.
  unfold find.
  destruct (find_from_spec sub t 0) as [[-> _]|(i & -> & _ & Hi & _)]; lia.
Qed.

(** X14. The offset of a quote is [-1] or an offset of the text in which
    the step that found it searched: the normalized transcript for the four
    exact steps, its lower-case copy for the last one.  The normalized
    transcript is no longer than the transcript. *)
Theorem quote_position_in_range (transcript quote_text : text) :
  let ct := clean_text_for_search transcript in
  let pos := find_quote_position transcript quote_text in
  -1 <= pos
  /\ (pos <= Z.of_nat (length ct)
      \/ (pos = find (lower ct)
                   (take 50 (lower (clean_text_for_search quote_text)))
          /\ pos <= Z.of_nat (length (lower ct))))
  /\ (length ct <= length transcript)%nat.
Proof.
  intros ct pos. split; [|split].
  - subst pos. unfold find_quote_position.
    set (cq := clean_text_for_search quote_text). fold ct.
    pose proof (find_bounds ct cq).
    pose proof (find_bounds ct (take 100 cq)).
    pose proof (find_bounds ct (take 50 cq)).
    pose proof (find_bounds ct (take 30 cq)).
    pose proof (find_bounds (lower ct) (take 50 (lower cq))).
    destruct (negb (find ct cq =? -1)); [lia|].
    destruct (_ && _); [lia|]. destruct (_ && _); [lia|].
    destruct (_ && _); [lia|]. destruct (negb _); lia.
  - subst pos. unfold find_quote_position.
    set (cq := clean_text_for_search quote_text). fold ct.
    pose proof (find_bounds ct cq).
    pose proof (find_bounds ct (take 100 cq)).
    pose proof (find_bounds ct (take 50 cq)).
    pose proof (find_bounds ct (take 30 cq)).
    pose proof (find_bounds (lower ct) (take 50 (lower cq))).
    destruct (negb (find ct cq =? -1)); [left; lia|].
    destruct (_ && _); [left; lia|]. destruct (_ && _); [left; lia|].
    destruct (_ && _); [left; lia|].
    destruct (negb _); [right; split; [done|lia]|left; lia].
  - subst ct. rewrite clean_text_unfold.
    etrans; [apply strip_shorter|apply collapse_shorter].
Qed.

End PositionBounds.

Section TimestampPass.
Import Py FixTimestamps AlignSpec MoreAlign.

Lemma only_timestamp_set (v : json) (q : dict) :
  only_timestamp q (dict_set "timestamp" v q).
Proof. intros key Hk. by apply dict_get_set_ne. Qed.

Lemma hhmmss_written (r : text) (q : dict) :
  is_hhmmss r = true ->
  timestamp_written q (dict_set "timestamp" (JStr (to_string r)) q).
Proof. intros Hr. right. exists r. by rewrite dict_get_set_eq. Qed.

(** One quote of the pass. *)
Lemma process_quote_effect (t : text) (q : dict) (st : stats) :
  match process_quote t q st with
  | None => bad_text q = true
  | Some (q', st') =>
      bad_text q = false
      /\ only_timestamp q q' /\ timestamp_written q q'
      /\ quotes_checked st' = quotes_checked st
      /\ timestamps_updated st <= timestamps_updated st'
      /\ timestamps_unchanged st <= timestamps_unchanged st'
      /\ timestamps_updated st' + timestamps_unchanged st'
         = timestamps_updated st + timestamps_unchanged st
           + (if with_text q then 1 else 0)
      /\ (length (warnings st) <= length (warnings st')
          <= S (length (warnings st)))%nat
  end.
Proof.
  assert (Hzero : is_hhmmss (of_string "00:00:00") = true) by done.
  unfold process_quote, bad_text, with_text.
  destruct (dict_get_default "text" (JStr "") q) as [|b|n|x|s|l|o];
    try (destruct (truthy _); simpl;
         [done|repeat split; try done; try lia; by left]).
  destruct (truthy (JStr s)); simpl;
    [|repeat split; try done; try lia; by left].
  destruct (find_quote_position t (of_string s) =? -1).
  { simpl. rewrite length_app. simpl.
    repeat split; try done; try lia. by left. }
  destruct (find_timestamp_before_position t _) as [r|] eqn:Hr.
  - apply find_timestamp_shape in Hr.
    destruct (dict_get_default "timestamp" (JStr "") q) as [|b|n|x|old|l|o];
      try (simpl; repeat split; try done; try lia;
           [apply only_timestamp_set|by apply hhmmss_written]).
    destruct (String.eqb old (to_string r)); simpl.
    + repeat split; try done; try lia. by left.
    + repeat split; try done; try lia;
        [apply only_timestamp_set|by apply hhmmss_written].
  - destruct (truthy (dict_get_default "timestamp" (JStr "") q)); simpl;
      rewrite length_app; simpl.
    + repeat split; try done; try lia. by left.
    + repeat split; try done; try lia; [apply only_timestamp_set|].
      by apply (hhmmss_written (of_string "00:00:00")).
Qed.

Lemma process_quotes_effect (t : text) (quotes : list dict) (st : stats) :
  match process_quotes t quotes st with
  | None => existsb bad_text quotes = true
  | Some (quotes', st') =>
      existsb bad_text quotes = false
      /\ Forall2 only_timestamp quotes quotes'
      /\ Forall2 timestamp_written quotes quotes'
      /\ quotes_checked st' = quotes_checked st
      /\ timestamps_updated st <= timestamps_updated st'
      /\ timestamps_unchanged st <= timestamps_unchanged st'
      /\ timestamps_updated st' + timestamps_unchanged st'
         = timestamps_updated st + timestamps_unchanged st
           + Z.of_nat (length (List.filter with_text quotes))
      /\ (length (warnings st') <= length (warnings st) + length quotes)%nat
  end.
Proof.
  revert st. induction quotes as [|q quotes IH]; intros st.
  { simpl. repeat split; try done; try lia; constructor. }
  cbn [process_quotes existsb List.filter].
  pose proof (process_quote_effect t q st) as Hq.
  destruct (process_quote t q st) as [[q' st1]|]; [|by rewrite Hq].
  destruct Hq as (Hbad & Hk & Hw & Hc & Hu & Hn & Hsum & Hwarn).
  rewrite Hbad. simpl.
  specialize (IH st1).
  destruct (process_quotes t quotes st1) as [[rest' st2]|]; [|done].
  destruct IH as (Hbad2 & Hk2 & Hw2 & Hc2 & Hu2 & Hn2 & Hsum2 & Hwarn2).
  split; [done|]. split; [by constructor|]. split; [by constructor|].
  split; [congruence|]. split; [lia|]. split; [lia|]. split.
  - destruct (with_text q); simpl length; lia.
  - simpl. lia.
Qed.

(** The pass once the transcript is at hand ([None] when the lookup found
    none). *)
Lemma process_quote_file_effect (filename : string) (quotes : list dict)
    (transcript : option text) :
  match process_quote_file filename quotes transcript with
  | None => is_Some transcript /\ existsb bad_text quotes = true
  | Some (quotes', st) =>
      (is_Some transcript -> existsb bad_text quotes = false)
      /\ Forall2 only_timestamp quotes quotes'
      /\ Forall2 timestamp_written quotes quotes'
      /\ quotes_checked st = Z.of_nat (length quotes)
      /\ 0 <= timestamps_updated st /\ 0 <= timestamps_unchanged st
      /\ (is_Some transcript ->
          timestamps_updated st + timestamps_unchanged st
          = Z.of_nat (length (List.filter with_text quotes)))
      /\ (transcript = None -> quotes' = quotes
                               /\ timestamps_updated st = 0
                               /\ timestamps_unchanged st = 0)
  end.
Proof.
  assert (Hrefl : forall l : list dict,
            Forall2 only_timestamp l l /\ Forall2 timestamp_written l l).
  { intros l. split; apply Forall_Forall2_diag, Forall_forall; intros q _;
      [by intros ? ?|by left]. }
  unfold process_quote_file.
  destruct quotes as [|q0 quotes0].
  { destruct (Hrefl []). simpl. repeat split; try done. }
  set (quotes := q0 :: quotes0).
  destruct transcript as [t|].
  - pose proof (process_quotes_effect t quotes
                  (Stats (Z.of_nat (length quotes)) 0 0 [])) as H.
    destruct (process_quotes t quotes _) as [[quotes' st]|].
    + destruct H as (Hbad & Hk & Hw & Hc & Hu & Hn & Hsum & _).
      simpl in *. repeat split; try done; try lia.
    + split; [by eexists|done].
  - destruct (Hrefl quotes). simpl.
    repeat split; done.
Qed.

End TimestampPass.

Section TimestampPassFiles.
Import Py FixTimestamps FixTimestampsFiles AlignSpec MoreAlign MoreFiles.
Context (fs : files).

(** The lookup raises exactly when the transcript named after the quote
    file does not exist and the speaker is not a string. *)
Lemma find_transcript_file_raises (speaker_name : json)
    (filename : string) :
  (exists e, find_transcript_file fs speaker_name filename = inl e)
  <-> path_exists fs (named_transcript filename) = false
      /\ is_string speaker_name = false.
Proof.
  unfold find_transcript_file, named_transcript.
  destruct (path_exists fs _) eqn:Hp.
  { split; [by intros [? [=]]|by intros [[=] _]]. }
  destruct speaker_name as [|b|n|x|s|l|o]; simpl;
    try (split; [done|by eexists]).
  split; [|by intros [_ [=]]].
  intros [e He]. by repeat destruct (path_exists fs _).
Qed.

(** X15. The timestamp pass over a quote file, with its transcript lookup.
    The pass raises before it writes in three cases: the transcript named
    after the quote file does not exist and the speaker of the first quote
    is not a string; the transcript found cannot be read; the transcript
    was read and some quote has a text that is not a string (and not
    empty).  In every other case, the write taken to succeed, it returns
    and: the file has the same quotes in the same order, each differing from
    the original in its [timestamp] at most, and a timestamp that changed
    has the form [HH:MM:SS]; [quotes_checked] is the number of quotes; with
    a transcript read, every quote that has a text is counted once, as
    updated or as unchanged, and the quotes without a text in neither;
    without one, the quotes are as they were and nothing is counted. *)
Theorem timestamp_pass_invariants (filename : string) (quotes : list dict) :
  (forall q0 rest, quotes = q0 :: rest ->
     pass_raises fs filename q0 rest ->
     FixTimestampsFiles.process_quote_file fs filename quotes = None)
  /\ match FixTimestampsFiles.process_quote_file fs filename quotes with
     | None => exists q0 rest, quotes = q0 :: rest
                               /\ pass_raises fs filename q0 rest
     | Some (quotes', st) =>
         Forall2 only_timestamp quotes quotes'
         /\ Forall2 timestamp_written quotes quotes'
         /\ quotes_checked st = Z.of_nat (length quotes)
         /\ 0 <= timestamps_updated st /\ 0 <= timestamps_unchanged st
         /\ (transcript_read fs filename quotes ->
             timestamps_updated st + timestamps_unchanged st
             = Z.of_nat (length (List.filter with_text quotes)))
         /\ (~ transcript_read fs filename quotes ->
             quotes' = quotes /\ timestamps_updated st = 0
             /\ timestamps_unchanged st = 0)
     end.
Proof.
  destruct quotes as [|q0 rest].
  { split; [done|].
    pose proof (process_quote_file_effect filename [] None) as H.
    unfold FixTimestampsFiles.process_quote_file.
    destruct (FixTimestamps.process_quote_file filename [] None) as [[quotes' st]|];
      [|by destruct H as [[? [=]] _]].
    destruct H as (_ & Hk & Hw & Hc & Hu & Hn & _ & Hnone).
    do 5 (split; [done|]). split; [done|]. intros _. by apply Hnone. }
  unfold FixTimestampsFiles.process_quote_file, pass_raises, transcript_read.
  cbv zeta.
  set (quotes := q0 :: rest).
  set (sp := dict_get_default "speaker" (JStr "") q0).
  pose proof (find_transcript_file_raises sp filename) as Hraise.
  destruct (find_transcript_file fs sp filename) as [e|[path|]] eqn:Hfind.
  - (* the lookup raises *)
    split; [done|]. exists q0, rest. split; [done|]. left.
    apply Hraise. by eexists.
  - (* a transcript was found *)
    pose proof (process_quote_file_effect filename quotes) as H.
    destruct (read_text fs path) as [e|t] eqn:Hread.
    + split; [done|]. exists q0, rest. split; [done|]. right.
      exists path. by rewrite Hread.
    + specialize (H (Some t)).
      destruct (FixTimestamps.process_quote_file filename quotes (Some t))
        as [[quotes' st]|].
      * destruct H as (Hbad & Hk & Hw & Hc & Hu & Hn & Hsum & _).
        split.
        { intros q0' rest' [= <- <-] [[Hp Hs]|(path' & Heq & Hr)].
          - assert (Hex : exists e, @inr string _ (Some path) = inl e)
              by (apply Hraise; done).
            by destruct Hex.
          - fold sp in Heq. rewrite Hfind in Heq. injection Heq as <-.
            rewrite Hread in Hr. fold quotes in Hr.
            rewrite Hbad in Hr by (by eexists). done. }
        do 5 (split; [done|]). split.
        -- intros _. apply Hsum. by eexists.
        -- intros Hno. exfalso. apply Hno. by exists path, t.
      * destruct H as [_ Hbad]. split; [done|].
        exists q0, rest. split; [done|]. right. exists path.
        by rewrite Hread.
  - (* no transcript *)
    pose proof (process_quote_file_effect filename quotes None) as H.
    destruct (FixTimestamps.process_quote_file filename quotes None) as [[quotes' st]|];
      [|by destruct H as [[? [=]] _]].
    destruct H as (_ & Hk & Hw & Hc & Hu & Hn & _ & Hnone).
    split.
    { intros q0' rest' [= <- <-] [[Hp Hs]|(path' & Heq & _)].
      - assert (Hex : exists e, @inr string (option string) None = inl e)
          by (apply Hraise; done).
        by destruct Hex.
      - fold sp in Heq. by rewrite Hfind in Heq. }
    do 5 (split; [done|]). split; [|intros _; by apply Hnone].
    by intros (path' & t & [=] & _).
Qed.

End TimestampPassFiles.

(** A quote file whose first speaker is null, with no transcript named
    after it: the lookup raises and the file is left as it was. *)
Example timestamp_pass_null_speaker :
  let fs := MoreFiles.one_transcript "transcripts/Ada_Chen.txt"
              AlignSpec.scenario in
  FixTimestampsFiles.process_quote_file fs "b_quotes.json"
    [[("speaker", Py.JNull); ("text", Py.JStr "Growth is about retention.")]]
  = None
  /\ FixTimestampsFiles.find_transcript_file fs (Py.JStr "Ada (Chen)")
       "b_quotes.json" = inr (Some "transcripts/Ada_Chen.txt").
Proof. by vm_compute. Qed.

(** Three quotes against the scenario transcript: one found after its
    marker, one not in the transcript, one without a text. *)
Example timestamp_pass_example :
  let quotes := [[("text", Py.JStr "Growth is about retention.")];
                 [("text", Py.JStr "Not said."); ("timestamp", Py.JStr "9")];
                 [("speaker", Py.JStr "Ada")]] in
  match FixTimestampsFiles.process_quote_file
          (MoreFiles.one_transcript "transcripts/a.txt" AlignSpec.scenario)
          "a_quotes.json" quotes with
  | Some (quotes', st) =>
      quotes' = [[("text", Py.JStr "Growth is about retention.");
                  ("timestamp", Py.JStr "00:01:15")];
                 [("text", Py.JStr "Not said."); ("timestamp", Py.JStr "9")];
                 [("speaker", Py.JStr "Ada")]]
      /\ FixTimestamps.timestamps_updated st = 1
      /\ FixTimestamps.timestamps_unchanged st = 1
      /\ FixTimestamps.warnings st = ["Text not found: Not said...."]
  | None => False
  end.
Proof. by vm_compute. Qed.

(** ** The statistics and the fixed point of the completion pass *)

Section FillStatistics.
Import Py FillMissing Spec MoreFill.
Context (svc : service).

Lemma adds_refl (p : progress) : adds 0 0 0 p p.
Proof. split; unfold new_calls; lia. Qed.

Lemma adds_trans (ko zh es ko' zh' es' : Z) (a b c : progress) :
  adds ko zh es a b -> adds ko' zh' es' b c ->
  adds (ko + ko') (zh + zh') (es + es') a c.
Proof. intros [] []. unfold new_calls in *. split; unfold new_calls; lia. Qed.

(** One field of one quote. *)
Lemma fill_field_adds (english_text : json) (quote : dict) (p : progress)
    (field : string) :
  In field FIELDS ->
  let bump := fun name => if String.eqb field name then missing quote field
                          else 0 in
  adds (bump "text_ko") (bump "text_zh") (bump "text_es") p
    (fill_field svc english_text (quote, p) field).2.
Proof.
  intros Hf. unfold fill_field, translate_text, missing.
  destruct (is_missing_translation quote field).
  2:{ simpl. destruct (String.eqb field "text_ko"),
        (String.eqb field "text_zh"), (String.eqb field "text_es");
        apply adds_refl. }
  destruct (svc (calls p) english_text field) as [e|[[content i] o]];
    unfold FIELDS in Hf; simpl in Hf;
    destruct Hf as [<-|[<-|[<-|[]]]];
    split; unfold new_calls; simpl; rewrite ?length_app; simpl; lia.
Qed.

(** One quote. *)
Lemma fill_quote_adds (quote : dict) (p : progress) :
  adds (missing quote "text_ko") (missing quote "text_zh")
    (missing quote "text_es") p (fill_quote svc quote p).2.
Proof.
  assert (Hweak : adds 0 0 0 p p ->
                  adds (missing quote "text_ko") (missing quote "text_zh")
                    (missing quote "text_es") p p).
  { unfold missing. intros [].
    destruct (is_missing_translation quote "text_ko"),
      (is_missing_translation quote "text_zh"),
      (is_missing_translation quote "text_es");
      split; unfold new_calls in *; lia. }
  unfold fill_quote.
  set (t := dict_get_default "text" (JStr "") quote).
  destruct (truthy t); [|apply Hweak, adds_refl]. clear Hweak.
  unfold FIELDS. cbn [foldl negb].
  pose proof (fill_field_effect svc t quote p "text_ko") as (_ & Hk1 & _).
  pose proof (fill_field_adds t quote p "text_ko") as Ha1.
  destruct (fill_field svc t (quote, p) "text_ko") as [q1 p1].
  pose proof (fill_field_effect svc t q1 p1 "text_zh") as (_ & Hk2 & _).
  pose proof (fill_field_adds t q1 p1 "text_zh") as Ha2.
  destruct (fill_field svc t (q1, p1) "text_zh") as [q2 p2].
  pose proof (fill_field_adds t q2 p2 "text_es") as Ha3.
  destruct (fill_field svc t (q2, p2) "text_es") as [q3 p3].
  cbn [fst snd] in *.
  assert (Hzh : missing q1 "text_zh" = missing quote "text_zh").
  { unfold missing. by rewrite (is_missing_translation_ext quote q1)
      by (by apply Hk1). }
  assert (Hes : missing q2 "text_es" = missing quote "text_es").
  { unfold missing. rewrite (is_missing_translation_ext quote q2); [done|].
    rewrite Hk2, Hk1; done. }
  specialize (Ha1 ltac:(simpl; tauto)).
  specialize (Ha2 ltac:(simpl; tauto)).
  specialize (Ha3 ltac:(simpl; tauto)).
  cbn [String.eqb Ascii.eqb Bool.eqb] in Ha1, Ha2, Ha3.
  rewrite Hzh in Ha2. rewrite Hes in Ha3.
  pose proof (adds_trans _ _ _ _ _ _ _ _ _
                (adds_trans _ _ _ _ _ _ _ _ _ Ha1 Ha2) Ha3) as H.
  by rewrite !Z.add_0_r, !Z.add_0_l in H.
Qed.

Lemma count_missing_cons (q : dict) (quotes : list dict) (field : string) :
  count_missing (q :: quotes) field
  = missing q field + count_missing quotes field.
Proof.
  unfold count_missing, missing. rewrite filter_cons.
  destruct (decide _) as [H|H]; cbv beta in H;
    destruct (is_missing_translation q field); simpl in H; try tauto;
    simpl length; lia.
Qed.

Lemma fill_quotes_adds (quotes : list dict) (p : progress) :
  adds (count_missing quotes "text_ko") (count_missing quotes "text_zh")
    (count_missing quotes "text_es") p (fill_quotes svc quotes p).2.
Proof.
  revert p. induction quotes as [|q quotes IH]; intros p.
  { apply adds_refl. }
  cbn [fill_quotes].
  pose proof (fill_quote_adds q p) as Hq.
  destruct (fill_quote svc q p) as [q' p1].
  specialize (IH p1).
  destruct (fill_quotes svc quotes p1) as [rest' p2]. cbn [fst snd] in *.
  rewrite !count_missing_cons. by eapply adds_trans.
Qed.

(** X16. The statistics of the completion pass add up.
    [quotes_checked] is the number of quotes and [translations_needed] the
    sum of the three missing counts returned with the statistics;
    [api_calls] is the sum of the three [_added] counters, so it counts the
    calls that succeeded only: it is at most the number of calls issued,
    which is at most [translations_needed]; and no [_added] counter exceeds
    the missing count of its field. *)
Theorem fill_statistics_add_up (quotes : list dict) (issued : list call) :
  let r := process_quote_file svc quotes issued in
  let s := run_stats r.1.2 in
  r.2 = [("text_ko", count_missing quotes "text_ko");
         ("text_zh", count_missing quotes "text_zh");
         ("text_es", count_missing quotes "text_es")]
  /\ quotes_checked s = Z.of_nat (length quotes)
  /\ translations_needed s
     = count_missing quotes "text_ko" + count_missing quotes "text_zh"
       + count_missing quotes "text_es"
  /\ api_calls s = text_ko_added s + text_zh_added s + text_es_added s
  /\ 0 <= text_ko_added s <= count_missing quotes "text_ko"
  /\ 0 <= text_zh_added s <= count_missing quotes "text_zh"
  /\ 0 <= text_es_added s <= count_missing quotes "text_es"
  /\ api_calls s
     <= Z.of_nat (length (calls r.1.2)) - Z.of_nat (length issued)
     <= translations_needed s.
Proof.
  unfold process_quote_file. cbn [fst snd map foldr FIELDS].
  pose proof (fill_quotes_adds quotes
    (Progress issued
       (Stats (Z.of_nat (length quotes)) 0 0 0 0 0 0
          (count_missing quotes "text_ko"
           + (count_missing quotes "text_zh"
              + (count_missing quotes "text_es" + 0)))))) as [].
  destruct (fill_quotes svc quotes _) as [quotes' p].
  unfold new_calls in *. cbn [fst snd calls run_stats quotes_checked
    translations_needed text_ko_added text_zh_added text_es_added api_calls]
    in *.
  repeat split; try done; lia.
Qed.

End FillStatistics.

(** A service that raises on the Chinese field: two quotes, six fields
    needed, six calls issued, four counted. *)
Example fill_statistics_with_failures :
  let svc : FillMissing.service :=
    fun _ _ field => if String.eqb field "text_zh" then inl "rate limit"
                     else inr ("ok", 10, 5) in
  let quotes := [[("text", Py.JStr "one")]; [("text", Py.JStr "two")]] in
  let r := FillMissing.process_quote_file svc quotes [] in
  let s := FillMissing.run_stats r.1.2 in
  FillMissing.translations_needed s = 6
  /\ length (FillMissing.calls r.1.2) = 6%nat
  /\ FillMissing.api_calls s = 4
  /\ FillMissing.text_zh_added s = 0
  /\ FillMissing.input_tokens s = 40.
Proof. by vm_compute. Qed.

Section FillCompletes.
Import Py FillMissing Spec MoreFill.

Lemma strip_string_idempotent (s : string) :
  strip_string (strip_string s) = strip_string s.
Proof.
  unfold strip_string, to_string, of_string.
  rewrite list_ascii_of_string_of_list_ascii.
  f_equal. destruct (strip_normal (list_ascii_of_string s)).
  by apply strip_fixed.
Qed.

Lemma fill_field_fills (svc : service) (english_text : json) (quote : dict)
    (p : progress) (field : string) :
  answers_text svc ->
  is_missing_translation (fill_field svc english_text (quote, p) field).1
    field = false.
Proof.
  intros Hsvc. unfold fill_field, translate_text.
  destruct (is_missing_translation quote field) eqn:Hm; [|done].
  destruct (Hsvc (calls p) english_text field) as (c & i & o & -> & Hc).
  cbn [fst]. unfold is_missing_translation.
  rewrite dict_get_set_eq, strip_string_idempotent.
  by apply String.eqb_neq.
Qed.

Lemma has_text_kept (q q' : dict) :
  keeps_populated q q' -> has_text q' = has_text q.
Proof.
  intros Hk. unfold has_text, dict_get_default.
  rewrite (Hk "text"); [done|].
  unfold FIELDS. simpl. intros [[=]|[[=]|[[=]|[]]]].
Qed.

(** A quote with a text, against a service that answers. *)
Lemma fill_quote_completes (svc : service) (quote : dict) (p : progress) :
  answers_text svc -> has_text quote = true ->
  complete (fill_quote svc quote p).1 = true.
Proof.
  intros Hsvc Ht. unfold fill_quote. unfold has_text in Ht. rewrite Ht.
  set (t := dict_get_default "text" (JStr "") quote).
  unfold FIELDS. cbn [foldl negb].
  pose proof (fill_field_fills svc t quote p "text_ko" Hsvc) as Hf1.
  destruct (fill_field svc t (quote, p) "text_ko") as [q1 p1].
  pose proof (fill_field_effect svc t q1 p1 "text_zh") as (_ & Hk2 & _).
  pose proof (fill_field_fills svc t q1 p1 "text_zh" Hsvc) as Hf2.
  destruct (fill_field svc t (q1, p1) "text_zh") as [q2 p2].
  pose proof (fill_field_effect svc t q2 p2 "text_es") as (_ & Hk3 & _).
  pose proof (fill_field_fills svc t q2 p2 "text_es" Hsvc) as Hf3.
  destruct (fill_field svc t (q2, p2) "text_es") as [q3 p3].
  cbn [fst snd] in *.
  unfold complete, FIELDS. cbn [forallb].
  rewrite Hf3.
  rewrite (is_missing_translation_ext q2 q3 "text_zh") by (by apply Hk3).
  rewrite Hf2.
  rewrite (is_missing_translation_ext q1 q3 "text_ko")
    by (rewrite Hk3, Hk2; done).
  by rewrite Hf1.
Qed.

(** A quote without a text, or with its three fields, is left alone. *)
Lemma fill_quote_skips (svc : service) (quote : dict) (p : progress) :
  has_text quote = false \/ complete quote = true ->
  fill_quote svc quote p = (quote, p).
Proof.
  unfold fill_quote, has_text, complete, FIELDS. intros [->|Hc]; [done|].
  destruct (truthy _); [|done]. cbn [forallb] in Hc.
  rewrite !andb_true_iff, !negb_true_iff in Hc.
  destruct Hc as (Hko & Hzh & Hes & _).
  cbn [foldl negb]. unfold fill_field. by rewrite Hko, Hzh, Hes.
Qed.

Lemma fill_quotes_skips (svc : service) (quotes : list dict) (p : progress) :
  Forall (fun q => has_text q = false \/ complete q = true) quotes ->
  fill_quotes svc quotes p = (quotes, p).
Proof.
  induction 1 as [|q quotes Hq _ IH]; [done|]. cbn [fill_quotes].
  by rewrite fill_quote_skips, IH.
Qed.

Lemma fill_quotes_completes (svc : service) (quotes : list dict)
    (p : progress) :
  answers_text svc ->
  Forall2 (fun q q' => has_text q' = has_text q
                       /\ (has_text q = true -> complete q' = true)
                       /\ (has_text q = false -> q' = q))
    quotes (fill_quotes svc quotes p).1.
Proof.
  intros Hsvc. revert p. induction quotes as [|q quotes IH]; intros p.
  { constructor. }
  cbn [fill_quotes].
  pose proof (fill_quote_effect svc q p) as [_ Hk].
  pose proof (fill_quote_completes svc q p Hsvc) as Hc.
  pose proof (fill_quote_skips svc q p) as Hs.
  destruct (fill_quote svc q p) as [q' p1]. cbn [fst snd] in *.
  specialize (IH p1).
  destruct (fill_quotes svc quotes p1) as [rest' p2]. cbn [fst snd] in *.
  constructor; [|done].
  split; [by apply has_text_kept|]. split; [done|].
  intros Hn. specialize (Hs (or_introl Hn)). congruence.
Qed.

(** X17. The completion pass reaches a fixed point in one run when the
    service answers every call with a content that is not blank: a quote
    that has a text leaves the pass with its three target-language fields
    filled, a quote without a text leaves it as it came; and a second pass
    over the file, with any service, issues no call, counts no addition and
    writes the same file back. *)
Theorem fill_missing_completes (svc svc' : service) (quotes : list dict)
    (issued issued' : list call) :
  answers_text svc ->
  let r := process_quote_file svc quotes issued in
  let r' := process_quote_file svc' r.1.1 issued' in
  Forall2 (fun q q' => has_text q' = has_text q
                       /\ (has_text q = true -> complete q' = true)
                       /\ (has_text q = false -> q' = q))
    quotes r.1.1
  /\ r'.1.1 = r.1.1
  /\ calls r'.1.2 = issued'
  /\ api_calls (run_stats r'.1.2) = 0.
Proof.
  intros Hsvc. unfold process_quote_file. cbn [fst snd].
  pose proof (fill_quotes_completes svc quotes
                (Progress issued
                   (Stats (Z.of_nat (length quotes)) 0 0 0 0 0 0
                      (foldr Z.add 0
                         (map snd
                            (map (fun f => (f, count_missing quotes f))
                               FIELDS))))) Hsvc) as H.
  destruct (fill_quotes svc quotes _) as [quotes' p]. cbn [fst snd] in *.
  split; [done|].
  rewrite fill_quotes_skips; [done|].
  apply Forall2_Forall_r with (Q := fun q' => has_text q' = false \/ complete q' = true) in H;
    [done|].
  apply Forall_forall. intros q _ q' (Ht & Hc & _).
  destruct (has_text q); [right; by apply Hc|by left].
Qed.

Lemma fill_missing_completes_witness :
  let svc : service := fun _ _ _ => inr (" ok ", 10, 5) in
  let quotes := [[("text", JStr "one"); ("text_ko", JStr " ")];
                 [("speaker", JStr "Ada")]] in
  let r := process_quote_file svc quotes [] in
  let r' := process_quote_file echo_service r.1.1 [] in
  answers_text svc
  /\ r.1.1 = [[("text", JStr "one"); ("text_ko", JStr "ok");
               ("text_zh", JStr "ok"); ("text_es", JStr "ok")];
              [("speaker", JStr "Ada")]]
  /\ r'.1.1 = r.1.1 /\ calls r'.1.2 = [].
Proof.
  intros svc quotes.
  assert (Hsvc : answers_text svc).
  { intros issued t f. exists " ok ", 10, 5. split; [done|].
    by vm_compute. }
  pose proof (fill_missing_completes svc echo_service quotes [] [] Hsvc)
    as (_ & H2 & H3 & _).
  split; [exact Hsvc|]. split; [by vm_compute|]. split; [exact H2|exact H3].
Defined.

End FillCompletes.

(** A blank answer is stored and counted as an addition, and the field is
    still missing for the next pass. *)
Example blank_answer_is_counted :
  let svc : FillMissing.service := fun _ _ _ => inr ("  ", 10, 1) in
  let quotes := [[("text", Py.JStr "one"); ("text_ko", Py.JStr "hana");
                  ("text_zh", Py.JStr "yi")]] in
  let r := FillMissing.process_quote_file svc quotes [] in
  r.1.1 = [[("text", Py.JStr "one"); ("text_ko", Py.JStr "hana");
            ("text_zh", Py.JStr "yi"); ("text_es", Py.JStr EmptyString)]]
  /\ FillMissing.text_es_added (FillMissing.run_stats r.1.2) = 1
  /\ FillMissing.count_missing r.1.1 "text_es" = 1.
Proof. by vm_compute. Qed.

(** ** A second timestamp pass *)

Section TimestampPassAgain.
Import Py FixTimestamps AlignSpec MoreAlign.

Lemma dict_get_default_set_eq (k : string) (v dflt : json) (d : dict) :
  dict_get_default k dflt (dict_set k v d) = v.
Proof. unfold dict_get_default. by rewrite dict_get_set_eq. Qed.

Lemma dict_get_default_set_ne (k k' : string) (v dflt : json) (d : dict) :
  k' <> k ->
  dict_get_default k' dflt (dict_set k v d) = dict_get_default k' dflt d.
Proof. intros. unfold dict_get_default. by rewrite dict_get_set_ne. Qed.

(** The quote a pass leaves is left alone by the next pass, and counted as
    unchanged when it has a text. *)
Lemma process_quote_again (t : text) (q q' : dict) (st st' st2 : stats) :
  process_quote t q st = Some (q', st') ->
  exists st2',
    process_quote t q' st2 = Some (q', st2')
    /\ quotes_checked st2' = quotes_checked st2
    /\ timestamps_updated st2' = timestamps_updated st2
    /\ timestamps_unchanged st2'
       = timestamps_unchanged st2 + (if with_text q then 1 else 0).
Proof.
  unfold process_quote, with_text.
  destruct (dict_get_default "text" (JStr "") q) as [|b|n|x|s|l|o] eqn:Ht.
  all: destruct (truthy _) eqn:Htr; cbn [negb]; try done.
  all: try (intros [= <- <-]; rewrite Ht, Htr; cbn [negb];
            eexists; split; [done|]; repeat split; lia).
  destruct (find_quote_position t (of_string s) =? -1) eqn:Hpos.
  { intros [= <- <-]. rewrite Ht, Htr, Hpos. cbn [negb].
    eexists. split; [done|]. cbn; repeat split; lia. }
  destruct (find_timestamp_before_position t _) as [r|] eqn:Hr.
  - assert (Hset : forall st0,
      process_quote t (dict_set "timestamp" (JStr (to_string r)) q) st0
      = Some (dict_set "timestamp" (JStr (to_string r)) q,
              Stats (quotes_checked st0) (timestamps_updated st0)
                (timestamps_unchanged st0 + 1) (warnings st0))).
    { intros st0. unfold process_quote.
      rewrite dict_get_default_set_ne, dict_get_default_set_eq by done.
      rewrite Ht, Htr, Hpos, Hr. cbn [negb].
      by rewrite String.eqb_refl. }
    destruct (dict_get_default "timestamp" (JStr "") q)
      as [|b|n|x|old|l|o] eqn:Hold;
      try (intros [= <- <-]; eexists; split; [apply Hset|cbn; repeat split; lia]).
    destruct (String.eqb old (to_string r)) eqn:Heq.
    + intros [= <- <-]. rewrite Ht, Htr, Hpos, Hr, Hold, Heq. cbn [negb].
      eexists. split; [done|]. cbn; repeat split; lia.
    + intros [= <- <-]. eexists. split; [apply Hset|cbn; repeat split; lia].
  - destruct (truthy (dict_get_default "timestamp" (JStr "") q)) eqn:Hold.
    + intros [= <- <-]. rewrite Ht, Htr, Hpos, Hr, Hold. cbn [negb].
      eexists. split; [done|]. cbn; repeat split; lia.
    + intros [= <- <-].
      rewrite dict_get_default_set_ne, dict_get_default_set_eq by done.
      rewrite Ht, Htr, Hpos, Hr. cbn [negb truthy String.eqb].
      eexists. split; [done|]. cbn; repeat split; lia.
Qed.

Lemma process_quotes_again (t : text) (quotes quotes' : list dict)
    (st st' st2 : stats) :
  process_quotes t quotes st = Some (quotes', st') ->
  exists st2',
    process_quotes t quotes' st2 = Some (quotes', st2')
    /\ quotes_checked st2' = quotes_checked st2
    /\ timestamps_updated st2' = timestamps_updated st2
    /\ timestamps_unchanged st2'
       = timestamps_unchanged st2
         + Z.of_nat (length (List.filter with_text quotes)).
Proof.
  revert quotes' st st' st2.
  induction quotes as [|q quotes IH]; intros quotes' st st' st2.
  { intros [= <- <-]. exists st2. cbn. repeat split; lia. }
  cbn [process_quotes List.filter].
  destruct (process_quote t q st) as [[q' st1]|] eqn:Hq; [|done].
  destruct (process_quotes t quotes st1) as [[rest' st1']|] eqn:Hrest;
    [|done].
  intros [= <- <-].
  destruct (process_quote_again t q q' st st1 st2 Hq)
    as (sa & Ha & Hc & Hu & Hn).
  destruct (IH rest' st1 st1' sa Hrest) as (sb & Hb & Hc' & Hu' & Hn').
  exists sb. cbn [process_quotes]. rewrite Ha, Hb.
  split; [done|]. split; [congruence|]. split; [congruence|].
  rewrite Hn', Hn. destruct (with_text q); simpl length; lia.
Qed.

Lemma process_quotes_length (t : text) (quotes quotes' : list dict)
    (st st' : stats) :
  process_quotes t quotes st = Some (quotes', st') ->
  length quotes' = length quotes.
Proof.
  intros H. pose proof (process_quotes_effect t quotes st) as He.
  rewrite H in He. destruct He as (_ & Hk & _).
  symmetry. by eapply Forall2_length.
Qed.

(** X18. The timestamp pass is idempotent: when a pass over a quote file
    returns, a second pass over the file it wrote, with the same
    transcript, returns too, writes the same file back and updates no
    timestamp; every quote the first pass counted, as updated or as
    unchanged, is counted as unchanged. *)
Theorem timestamp_pass_is_idempotent (filename : string)
    (quotes quotes' : list dict) (transcript : option text) (st : stats) :
  process_quote_file filename quotes transcript = Some (quotes', st) ->
  exists st',
    process_quote_file filename quotes' transcript = Some (quotes', st')
    /\ quotes_checked st' = quotes_checked st
    /\ timestamps_updated st' = 0
    /\ timestamps_unchanged st'
       = timestamps_updated st + timestamps_unchanged st.
Proof.
  unfold process_quote_file.
  destruct quotes as [|q0 quotes0].
  { intros [= <- <-]. by eexists. }
  set (quotes := q0 :: quotes0).
  destruct transcript as [t|].
  - intros H.
    pose proof (process_quotes_length _ _ _ _ _ H) as Hlen.
    pose proof (process_quotes_effect t quotes
                  (Stats (Z.of_nat (length quotes)) 0 0 [])) as He.
    rewrite H in He. destruct He as (_ & _ & _ & Hc & _ & _ & Hsum & _).
    destruct (process_quotes_again t quotes quotes' _ st
                (Stats (Z.of_nat (length quotes')) 0 0 []) H)
      as (st2 & H2 & Hc2 & Hu2 & Hn2).
    exists st2. destruct quotes' as [|q0' rest']; [done|].
    split; [done|].
    cbn [quotes_checked timestamps_updated timestamps_unchanged]
      in Hc, Hc2, Hu2, Hn2, Hsum.
    rewrite Hc2, Hc, Hu2, Hn2, Hsum, Hlen. repeat split; done.
  - intros [= <- <-]. subst quotes. by eexists.
Qed.

Lemma timestamp_pass_is_idempotent_witness :
  let quotes := [[("text", JStr "Growth is about retention.")];
                 [("text", JStr "Not said."); ("timestamp", JStr "9")];
                 [("speaker", JStr "Ada")]] in
  let quotes' := [[("text", JStr "Growth is about retention.");
                   ("timestamp", JStr "00:01:15")];
                  [("text", JStr "Not said."); ("timestamp", JStr "9")];
                  [("speaker", JStr "Ada")]] in
  exists st',
    process_quote_file "a_quotes.json" quotes' (Some scenario)
    = Some (quotes', st')
    /\ quotes_checked st' = 3
    /\ timestamps_updated st' = 0
    /\ timestamps_unchanged st' = 1 + 1.
Proof.
  intros quotes quotes'.
  apply (timestamp_pass_is_idempotent "a_quotes.json" quotes quotes'
           (Some scenario)
           (Stats 3 1 1 ["Text not found: Not said...."])).
  by vm_compute.
Defined.

End TimestampPassAgain.

(** ** The width of the progress bar *)

Section ProgressBarFacts.
Import ProgressBar.

Lemma filled_bounds (current total length : Z) :
  0 <= current <= total -> 0 <= length ->
  0 <= filled current total length <= length.
Proof.
  intros Hc Hl. unfold filled. destruct (0 <? total) eqn:Ht; [|lia].
  apply Z.ltb_lt in Ht. split.
  - apply Z.div_pos; nia.
  - apply Z.div_le_upper_bound; nia.
Qed.

(** X19. The progress bar keeps its width while the count stays within
    the total: it has exactly [length] cells, full ones first; it is all
    full when the count has reached a positive total, and all light when
    the total is zero (no division is attempted). *)
Theorem progress_bar_width (current total length : Z) :
  0 <= current <= total -> 0 <= length ->
  let k := filled current total length in
  bar current total length
  = repeat Full (Z.to_nat k) ++ repeat Light (Z.to_nat length - Z.to_nat k)
  /\ 0 <= k <= length
  /\ Datatypes.length (bar current total length) = Z.to_nat length
  /\ (0 < total -> current = total -> k = length)
  /\ (total = 0 -> k = 0).
Proof.
  intros Hc Hl k.
  pose proof (filled_bounds current total length Hc Hl) as Hk.
  fold k in Hk. unfold bar, times. fold k.
  split; [by rewrite Z2Nat.inj_sub by lia|]. split; [done|].
  split; [rewrite length_app, !repeat_length; lia|]. split.
  - intros Ht ->. subst k. unfold filled.
    destruct (0 <? total) eqn:Hlt; [|lia]. apply Z.div_mul. lia.
  - intros ->. done.
Qed.

Lemma progress_bar_width_witness :
  bar 3 5 40 = repeat Full 24 ++ repeat Light 16
  /\ Datatypes.length (bar 3 5 40) = 40%nat.
Proof.
  destruct (progress_bar_width 3 5 40 ltac:(lia) ltac:(lia))
    as (Hb & _ & Hl & _).
  split; [exact Hb|exact Hl].
Defined.

End ProgressBarFacts.

(** Beyond the total the bar outgrows its width: no light cell is left and
    the full ones exceed [length]. *)
Example progress_bar_overflow :
  ProgressBar.bar 7 5 40 = repeat ProgressBar.Full 56.
Proof. by vm_compute. Qed.
